(** * llvm_lang: the precedence-climbing parser and the AST lowering pass

    A shallow embedding of [parser.cpp] and [codegen.cpp].  The global
    variables of the C++ program become the fields of two state records,
    one for the parser and one for the lowering pass; every C++ function
    becomes a state-passing function of the same name.  A pointer that may
    be [nullptr] is an [option]. *)

From Stdlib Require Import Floats ZArith Lia Ascii String.
From stdpp Require Import gmap strings list pretty.

Open Scope string_scope.
Open Scope list_scope.
Open Scope Z_scope.

(** ** A state monad with a stuck outcome

    [None] is never a [nullptr]: in the parser it means that the fuel of
    the model ran out, in the lowering pass that the C++ program
    dereferenced a pointer that is null or dangling. *)

Definition M (S A : Type) : Type := S → option (A * S).

Definition ret {S A} (a : A) : M S A := λ s, Some (a, s).

Definition bind {S A B} (m : M S A) (k : A → M S B) : M S B :=
  λ s, match m s with
       | Some (a, s') => k a s'
       | None => None
       end.

Definition gets {S A} (f : S → A) : M S A := λ s, Some (f s, s).
Definition modify {S} (f : S → S) : M S unit := λ s, Some (tt, f s).
Definition stuck {S A} : M S A := λ _, None.

Notation "'do' x <- m ; k" := (bind m (λ x, k))
  (at level 10, x name, m at level 100, k at level 200).
Notation "'do' ' p <- m ; k" := (bind m (λ x, match x with p => k end))
  (at level 10, p pattern, m at level 100, k at level 200).
Notation "m ;; k" := (bind m (λ _, k))
  (at level 100, k at level 200, right associativity).

(** ** Tokens

    Modelled from the spec: [lex.h] and the lexer are not part of the
    sources.  A token is an [int]: the character code of a punctuation or
    operator character, or a token kind.  The kinds are the ones the spec
    lists; they are negative, outside the range of [isascii], as
    [get_tok_precedence] presupposes. *)

Abbreviation tok_eof := (-1).
Abbreviation tok_def := (-2).
Abbreviation tok_extern := (-3).
Abbreviation tok_identifier := (-4).
Abbreviation tok_number := (-5).
Abbreviation tok_if := (-6).
Abbreviation tok_then := (-7).
Abbreviation tok_else := (-8).
Abbreviation tok_for := (-9).
Abbreviation tok_do := (-10).
Abbreviation tok_end := (-11).
Abbreviation tok_binary := (-12).
Abbreviation tok_unary := (-13).

(** The code of a character literal such as ['+']. *)
Definition chr (c : ascii) : Z := Z.of_N (N_of_ascii c).

Definition isascii (c : Z) : bool := (0 <=? c) && (c <=? 127).

(** Modelled from the spec: what one call of the lexer's [gettok] yields.
    A token comes with its payload, which [gettok] leaves in the globals
    [identifier_str], [num_val] and [operator_name] that the parser
    reads. *)
Inductive lexeme :=
| LxIdent (s : string)        (* tok_identifier, identifier_str = s *)
| LxNumber (v : float)        (* tok_number, num_val = v *)
| LxBinary (op : string)      (* tok_binary, operator_name = op *)
| LxUnary (op : string)       (* tok_unary, operator_name = op *)
| Lx (t : Z).                 (* a keyword or a character *)

#[local] Set Warnings "-register-all".

(** ** The AST (the classes of [ast.h], as [parser.cpp] constructs them and
    [codegen.cpp] reads them) *)

Inductive ExprAST :=
| NumberExprAST (Val : float)
| VariableExprAST (Name : string)
| BinaryExprAST (Op : Z) (LHS RHS : ExprAST)
| CallExprAST (Callee : string) (Args : list ExprAST)
| IfExprAST (Condition Then Else : ExprAST)
| ForExpr (VarName : string) (Start Condition Step Body : ExprAST).

Record PrototypeAST := mkPrototypeAST {
  Name : string;
  Args : list string;
  IsOperator : bool;
  Precedence : Z
}.

Record FunctionAST := mkFunctionAST {
  Proto : PrototypeAST;
  Body : ExprAST
}.

(** ** Parser state: the globals of [parser.cpp] and of the lexer *)

Record PState := mkPState {
  cur_tok : Z;
  input : list lexeme;                (* what the lexer has not read yet *)
  identifier_str : string;
  num_val : float;
  operator_name : string;
  BINOP_PRECEDENCE : gmap Z Z;        (* std::map<char, int> *)
  perrs : list string                 (* what log_error printed *)
}.

(** The initial table of [parser.cpp], the one [get_tok_precedence] reads.
    ([internal.cpp] declares a second table of that name, keyed by strings,
    which the parser never reads.) *)
Definition initial_precedence : gmap Z Z :=
  <[chr "<" := 10]> (<[chr "+" := 20]> (<[chr "-" := 20]> (<[chr "*" := 40]> ∅))).

Definition set_cur_tok (t : Z) (st : PState) : PState :=
  mkPState t (input st) (identifier_str st) (num_val st) (operator_name st)
           (BINOP_PRECEDENCE st) (perrs st).

Definition plog (msg : string) (st : PState) : PState :=
  mkPState (cur_tok st) (input st) (identifier_str st) (num_val st)
           (operator_name st) (BINOP_PRECEDENCE st) (perrs st ++ [msg]).

(** Modelled from the spec: the lexer's [gettok].  At the end of the input
    it answers [tok_eof], again and again. *)
Definition gettok (st : PState) : Z * PState :=
  match input st with
  | [] => (tok_eof, st)
  | l :: rest =>
      match l with
      | LxIdent s =>
          (tok_identifier,
           mkPState (cur_tok st) rest s (num_val st) (operator_name st)
                    (BINOP_PRECEDENCE st) (perrs st))
      | LxNumber v =>
          (tok_number,
           mkPState (cur_tok st) rest (identifier_str st) v (operator_name st)
                    (BINOP_PRECEDENCE st) (perrs st))
      | LxBinary op =>
          (tok_binary,
           mkPState (cur_tok st) rest (identifier_str st) (num_val st) op
                    (BINOP_PRECEDENCE st) (perrs st))
      | LxUnary op =>
          (tok_unary,
           mkPState (cur_tok st) rest (identifier_str st) (num_val st) op
                    (BINOP_PRECEDENCE st) (perrs st))
      | Lx t =>
          (t,
           mkPState (cur_tok st) rest (identifier_str st) (num_val st)
                    (operator_name st) (BINOP_PRECEDENCE st) (perrs st))
      end
  end.

Module Parser.

Definition PM := M PState.

(** [static int get_next_token() { return cur_tok = gettok(); }] *)
Definition get_next_token : PM Z :=
  λ st, let '(t, st') := gettok st in Some (t, set_cur_tok t st').

(** [log_error] and [log_error_p]: print, answer [nullptr]. *)
Definition log_error {A} (msg : string) : PM (option A) :=
  λ st, Some (None, plog msg st).

Definition parse_number_expr : PM (option ExprAST) :=
  do v <- gets num_val;
  get_next_token;;
  ret (Some (NumberExprAST v)).

Section OpenRecursion.
(** The functions below call [parse_expression]; the knot is tied in
    [parse_primary]. *)
Variable parse_expression : PM (option ExprAST).

Definition parse_paren_expr : PM (option ExprAST) :=
  get_next_token;;
  do V <- parse_expression;
  match V with
  | None => ret None
  | Some V =>
      do t <- gets cur_tok;
      if negb (t =? chr ")") then log_error "expected ')'"
      else get_next_token;; ret (Some V)
  end.

Definition parse_if_expr : PM (option ExprAST) :=
  get_next_token;;
  do cond <- parse_expression;
  match cond with
  | None => ret None
  | Some cond =>
      do t <- gets cur_tok;
      if negb (t =? tok_then) then log_error "expected `then`"
      else
        get_next_token;;
        do then_ <- parse_expression;
        match then_ with
        | None => ret None
        | Some then_ =>
            do t <- gets cur_tok;
            if t =? tok_else then
              get_next_token;;
              do else_ <- parse_expression;
              match else_ with
              | None => ret None
              | Some else_ => ret (Some (IfExprAST cond then_ else_))
              end
            else ret (Some (IfExprAST cond then_ (NumberExprAST 0%float)))
        end
  end.

Definition parse_for_expr : PM (option ExprAST) :=
  get_next_token;;
  do t <- gets cur_tok;
  if negb (t =? tok_identifier) then
    log_error "Expected identifier after `for`"
  else
  do var <- gets identifier_str;
  get_next_token;;
  do t <- gets cur_tok;
  if negb (t =? chr "=") then
    log_error "Expected `=` after identifier for initialization."
  else
  get_next_token;;
  do start <- parse_expression;
  match start with
  | None => log_error "Error parsing initialization in for statement."
  | Some start =>
  do t <- gets cur_tok;
  if negb (t =? chr ",") then
    log_error "Missing ',' separtor in for statement after initialization."
  else
  get_next_token;;
  do condition <- parse_expression;
  match condition with
  | None => log_error "Error parsing condition in for statement."
  | Some condition =>
  do t <- gets cur_tok;
  if negb (t =? chr ",") then
    log_error "Missing ',' separtor in for statement after condition."
  else
  get_next_token;;
  do step <- parse_expression;
  match step with
  | None => log_error "Error parsing step in for statement."
  | Some step =>
  do t <- gets cur_tok;
  if negb (t =? tok_do) then log_error "Expected `do` in for statement."
  else
  get_next_token;;
  do body <- parse_expression;
  match body with
  | None => log_error "Error parsing body in for statement."
  | Some body =>
  do t <- gets cur_tok;
  if negb (t =? tok_end) then log_error "Missing `end`."
  else
  get_next_token;;
  ret (Some (ForExpr var start condition step body))
  end end end end.
End OpenRecursion.

(** [get_tok_precedence]: -1 unless the current token is a character of
    the table with a positive precedence. *)
Definition get_tok_precedence (st : PState) : Z :=
  if negb (isascii (cur_tok st)) then -1
  else match BINOP_PRECEDENCE st !! cur_tok st with
       | None => -1
       | Some tok_prec => if tok_prec <=? 0 then -1 else tok_prec
       end.

(** The mutually recursive functions of the expression grammar.  One unit
    of fuel is spent by every call and by every turn of a [while (true)]
    loop; [None] means the fuel ran out. *)
Fixpoint parse_primary (fuel : nat) : PM (option ExprAST) :=
  match fuel with
  | O => stuck
  | S fuel =>
      do t <- gets cur_tok;
      if t =? tok_identifier then parse_identifier_expr fuel
      else if t =? tok_number then parse_number_expr
      else if t =? chr "(" then parse_paren_expr (parse_expression fuel)
      else if t =? tok_if then parse_if_expr (parse_expression fuel)
      else if t =? tok_for then parse_for_expr (parse_expression fuel)
      else log_error "unknown token when expecting an expression"
  end

with parse_identifier_expr (fuel : nat) : PM (option ExprAST) :=
  match fuel with
  | O => stuck
  | S fuel =>
      do id_name <- gets identifier_str;
      get_next_token;;
      do t <- gets cur_tok;
      if negb (t =? chr "(") then ret (Some (VariableExprAST id_name))
      else
        get_next_token;;
        do t <- gets cur_tok;
        do args <- (if negb (t =? chr ")") then parse_call_args fuel []
                    else ret (Some []));
        match args with
        | None => ret None
        | Some args =>
            get_next_token;;
            ret (Some (CallExprAST id_name args))
        end
  end

(** The [while (true)] loop of [parse_identifier_expr]; [None] inside the
    answer is the loop's [return nullptr]. *)
with parse_call_args (fuel : nat) (args : list ExprAST)
    : PM (option (list ExprAST)) :=
  match fuel with
  | O => stuck
  | S fuel =>
      do arg <- parse_expression fuel;
      match arg with
      | None => ret None
      | Some arg =>
          let args := args ++ [arg] in
          do t <- gets cur_tok;
          if t =? chr ")" then ret (Some args)
          else if negb (t =? chr ",") then
            log_error "Expected ')' or ',' in argument list"
          else get_next_token;; parse_call_args fuel args
      end
  end

with parse_binop_rhs (fuel : nat) (expr_prec : Z) (LHS : ExprAST)
    : PM (option ExprAST) :=
  match fuel with
  | O => stuck
  | S fuel =>
      do tok_prec <- gets get_tok_precedence;
      if tok_prec <? expr_prec then ret (Some LHS)
      else
        do binop <- gets cur_tok;
        get_next_token;;
        do RHS <- parse_primary fuel;
        match RHS with
        | None => ret None
        | Some RHS =>
            do next_prec <- gets get_tok_precedence;
            do RHS <- (if tok_prec <? next_prec
                       then parse_binop_rhs fuel (tok_prec + 1) RHS
                       else ret (Some RHS));
            match RHS with
            | None => ret None
            | Some RHS =>
                parse_binop_rhs fuel expr_prec (BinaryExprAST binop LHS RHS)
            end
        end
  end

with parse_expression (fuel : nat) : PM (option ExprAST) :=
  match fuel with
  | O => stuck
  | S fuel =>
      do LHS <- parse_primary fuel;
      match LHS with
      | None => ret None
      | Some LHS => parse_binop_rhs fuel 0 LHS
      end
  end.

(** The conversion of [precedence = num_val], a [double] assigned to an
    [unsigned]: the fraction is dropped.  It is reached for values between
    1 and 100 only. *)
Definition double_to_unsigned (v : float) : Z :=
  match Prim2SF v with
  | S754_finite false m e =>
      if 0 <=? e then Z.pos m * 2 ^ e else Z.pos m / 2 ^ (- e)
  | _ => 0
  end.

(** The loop [while (get_next_token() == tok_identifier)
    arg_names.push_back(identifier_str);].  Every turn reads one lexeme, so
    the lexemes left bound the number of turns: called on [input st] the
    loop never gets stuck ([read_arg_names_total]). *)
Fixpoint read_arg_names (bound : list lexeme) (arg_names : list string)
    : PM (list string) :=
  do t <- get_next_token;
  if t =? tok_identifier then
    do id <- gets identifier_str;
    match bound with
    | _ :: bound => read_arg_names bound (arg_names ++ [id])
    | [] => stuck
    end
  else ret arg_names.

(** The [switch (cur_tok)] of [parse_prototype]: the function name, the
    kind (0 = identifier, 1 = unary, 2 = binary) and the precedence, or
    [nullptr]. *)
Definition parse_prototype_head : PM (option (string * Z * Z)) :=
  do t <- gets cur_tok;
  if t =? tok_identifier then
    do fn_name <- gets identifier_str;
    get_next_token;;
    ret (Some (fn_name, 0, 30))
  else if t =? tok_binary then
    do op <- gets operator_name;
    let fn_name := "binary" +:+ op in
    get_next_token;;
    do t <- gets cur_tok;
    if t =? tok_number then
      do v <- gets num_val;
      if (v <? 1)%float || (100 <? v)%float then
        log_error "Invalid precedence: must be 1..100"
      else
        get_next_token;;
        ret (Some (fn_name, 2, double_to_unsigned v))
    else ret (Some (fn_name, 2, 30))
  else log_error "Expected function name in prototype".

Definition parse_prototype : PM (option PrototypeAST) :=
  do head <- parse_prototype_head;
  match head with
  | None => ret None
  | Some (fn_name, kind, precedence) =>
      do t <- gets cur_tok;
      if negb (t =? chr "(") then log_error "Expected '(' in prototype"
      else
        do bound <- gets input;
        do arg_names <- read_arg_names bound [];
        do t <- gets cur_tok;
        if negb (t =? chr ")") then log_error "Expected ')' in prototype"
        else
          get_next_token;;
          if negb (kind =? 0) && negb (Z.of_nat (length arg_names) =? kind)
          then log_error "Invalid number of operands for operator."
          else ret (Some (mkPrototypeAST fn_name arg_names
                                         (negb (kind =? 0)) precedence))
  end.

Definition parse_definition (fuel : nat) : PM (option FunctionAST) :=
  get_next_token;;
  do proto <- parse_prototype;
  match proto with
  | None => ret None
  | Some proto =>
      do E <- parse_expression fuel;
      match E with
      | Some E => ret (Some (mkFunctionAST proto E))
      | None => ret None
      end
  end.

Definition parse_extern : PM (option PrototypeAST) :=
  get_next_token;;
  parse_prototype.

(** The two-argument constructor of [PrototypeAST] is declared in [ast.h];
    an anonymous prototype is no operator, its precedence is never read. *)
Definition anon_proto : PrototypeAST := mkPrototypeAST "__anon_expr" [] false 0.

Definition parse_top_level_expression (fuel : nat) : PM (option FunctionAST) :=
  do E <- parse_expression fuel;
  match E with
  | Some E => ret (Some (mkFunctionAST anon_proto E))
  | None => ret None
  end.

End Parser.

(** ** The compilation unit

    The part of LLVM's IR that [codegen.cpp] builds.  Pointers to
    functions, basic blocks and instructions are identifiers; a block of
    the heap [Blocks] belongs to a function once it is in the function's
    block list.  An instruction stands for the [Create...] call of the
    builder that made it: the builder's constant folding and the passes of
    [TheFPM] are LLVM's and are left out. *)

Inductive Value :=
| ConstantFP (v : float)
| Argument (F : nat) (idx : nat)       (* [&arg], argument [idx] of [F] *)
| Inst (id : nat).                     (* the result of an instruction *)

Inductive Instruction :=
| FAdd (L R : Value) (name : string)
| FSub (L R : Value) (name : string)
| FMul (L R : Value) (name : string)
| FCmpULT (L R : Value) (name : string)
| FCmpONE (L R : Value) (name : string)
| UIToFP (V : Value) (name : string)
| Call (Callee : nat) (args : list Value) (name : string)
| PHI (incoming : list (Value * nat)) (name : string)
| Br (dest : nat)
| CondBr (cond : Value) (iftrue iffalse : nat)
| Ret (V : Value).

Record InstRec := mkInst {
  inst : Instruction;
  inst_parent : option nat
}.

Record BasicBlock := mkBB {
  bb_name : string;
  bb_parent : option nat;
  bb_insts : list nat
}.

Record Function := mkFunction {
  fn_id : nat;
  fn_name : string;
  fn_args : list string;
  fn_blocks : list nat
}.

(** ** Lowering state: the globals of [internal.cpp] that [codegen.cpp]
    uses.  [NamedValues] holds [Value *], as [codegen.cpp] stores them. *)

Record CState := mkCState {
  FunctionProtos : gmap string PrototypeAST;
  NamedValues : gmap string (option Value);
  TheModule : list Function;
  Blocks : gmap nat BasicBlock;
  Insts : gmap nat InstRec;
  InsertBlock : option nat;           (* the builder's insertion block *)
  next_id : nat;                      (* the next fresh identifier *)
  cerrs : list string                 (* what log_error printed *)
}.

Definition set_FunctionProtos (x : gmap string PrototypeAST) (st : CState) :=
  mkCState x (NamedValues st) (TheModule st) (Blocks st) (Insts st)
           (InsertBlock st) (next_id st) (cerrs st).
Definition set_NamedValues (x : gmap string (option Value)) (st : CState) :=
  mkCState (FunctionProtos st) x (TheModule st) (Blocks st) (Insts st)
           (InsertBlock st) (next_id st) (cerrs st).
Definition set_TheModule (x : list Function) (st : CState) :=
  mkCState (FunctionProtos st) (NamedValues st) x (Blocks st) (Insts st)
           (InsertBlock st) (next_id st) (cerrs st).
Definition set_Blocks (x : gmap nat BasicBlock) (st : CState) :=
  mkCState (FunctionProtos st) (NamedValues st) (TheModule st) x (Insts st)
           (InsertBlock st) (next_id st) (cerrs st).
Definition set_Insts (x : gmap nat InstRec) (st : CState) :=
  mkCState (FunctionProtos st) (NamedValues st) (TheModule st) (Blocks st) x
           (InsertBlock st) (next_id st) (cerrs st).
Definition set_InsertBlock (x : option nat) (st : CState) :=
  mkCState (FunctionProtos st) (NamedValues st) (TheModule st) (Blocks st)
           (Insts st) x (next_id st) (cerrs st).
Definition set_next_id (x : nat) (st : CState) :=
  mkCState (FunctionProtos st) (NamedValues st) (TheModule st) (Blocks st)
           (Insts st) (InsertBlock st) x (cerrs st).
Definition clog (msg : string) (st : CState) :=
  mkCState (FunctionProtos st) (NamedValues st) (TheModule st) (Blocks st)
           (Insts st) (InsertBlock st) (next_id st) (cerrs st ++ [msg]).

Module LLVM.

Definition CM := M CState.

Definition fresh : CM nat :=
  do n <- gets next_id;
  modify (set_next_id (S n));;
  ret n.

(** A pointer that must not be null or dangling where it is followed. *)
Definition deref {A} (o : option A) : CM A :=
  match o with
  | Some a => ret a
  | None => stuck
  end.

(** LLVM keeps the names of a symbol table distinct: a name that is taken
    gets a number appended (after a dot for a function).  Which number is
    LLVM's business; the model takes the first free one. *)
Definition unique_name (taken : list string) (sep name : string) : string :=
  if bool_decide (name ∈ taken) then
    match List.find (λ k : nat, bool_decide (name +:+ sep +:+ pretty k ∉ taken))
                    (seq 1 (S (length taken))) with
    | Some k => name +:+ sep +:+ pretty k
    | None => name
    end
  else name.

Fixpoint unique_names (taken : list string) (names : list string)
    : list string :=
  match names with
  | [] => []
  | n :: names =>
      let n' := unique_name taken "" n in
      n' :: unique_names (n' :: taken) names
  end.

(** [Module::getFunction] *)
Definition getFunction (m : list Function) (name : string) : option Function :=
  List.find (λ f, bool_decide (fn_name f = name)) m.

Definition lookup_fn (F : nat) (m : list Function) : option Function :=
  List.find (λ f, bool_decide (fn_id f = F)) m.

Definition update_fn (F : nat) (g : Function → Function) (m : list Function)
    : list Function :=
  map (λ f, if bool_decide (fn_id f = F) then g f else f) m.

Definition the_function (F : nat) : CM Function :=
  do m <- gets TheModule;
  deref (lookup_fn F m).

(** [Function::Create(FT, ExternalLinkage, Name, TheModule.get())] followed
    by [setName] on every argument. *)
Definition Function_Create (name : string) (args : list string) : CM nat :=
  do F <- fresh;
  do m <- gets TheModule;
  let f := mkFunction F (unique_name (map fn_name m) "." name)
                      (unique_names [] args) [] in
  modify (set_TheModule (m ++ [f]));;
  ret F.

Definition add_block (b : nat) (f : Function) : Function :=
  mkFunction (fn_id f) (fn_name f) (fn_args f) (fn_blocks f ++ [b]).

(** [BasicBlock::Create] with a name and a parent; a null [parent] gives
    a block that belongs to no function yet. *)
Definition BasicBlock_Create (name : string) (parent : option nat) : CM nat :=
  do b <- fresh;
  do bs <- gets Blocks;
  modify (set_Blocks (<[b := mkBB name parent []]> bs));;
  match parent with
  | None => ret b
  | Some F =>
      the_function F;;
      do m <- gets TheModule;
      modify (set_TheModule (update_fn F (add_block b) m));;
      ret b
  end.

(** [f->insert(f->end(), bb)] *)
Definition Function_insert_end (f : option nat) (b : nat) : CM unit :=
  do F <- deref f;
  the_function F;;
  do bs <- gets Blocks;
  do bb <- deref (bs !! b);
  modify (set_Blocks (<[b := mkBB (bb_name bb) (Some F) (bb_insts bb)]> bs));;
  do m <- gets TheModule;
  modify (set_TheModule (update_fn F (add_block b) m)).

Definition SetInsertPoint (b : nat) : CM unit :=
  modify (set_InsertBlock (Some b)).

(** [Builder->GetInsertBlock()] *)
Definition GetInsertBlock : CM nat :=
  do ib <- gets InsertBlock;
  deref ib.

(** [bb->getParent()] *)
Definition BasicBlock_getParent (b : nat) : CM (option nat) :=
  do bs <- gets Blocks;
  do bb <- deref (bs !! b);
  ret (bb_parent bb).

(** The builder appends an instruction to its insertion block; without an
    insertion block the instruction is created and belongs to no block. *)
Definition Builder_insert (i : Instruction) : CM nat :=
  do id <- fresh;
  do ib <- gets InsertBlock;
  do ins <- gets Insts;
  modify (set_Insts (<[id := mkInst i ib]> ins));;
  match ib with
  | None => ret id
  | Some b =>
      do bs <- gets Blocks;
      do bb <- deref (bs !! b);
      modify (set_Blocks
                (<[b := mkBB (bb_name bb) (bb_parent bb) (bb_insts bb ++ [id])]> bs));;
      ret id
  end.

Definition Create (i : Instruction) : CM (option Value) :=
  do id <- Builder_insert i;
  ret (Some (Inst id)).

(** [phi->addIncoming(v, bb)] *)
Definition addIncoming (phi : nat) (v : Value) (b : nat) : CM unit :=
  do ins <- gets Insts;
  do r <- deref (ins !! phi);
  match inst r with
  | PHI incoming name =>
      modify (set_Insts
                (<[phi := mkInst (PHI (incoming ++ [(v, b)]) name) (inst_parent r)]> ins))
  | _ => stuck
  end.

(** [I->eraseFromParent()] *)
Definition Instruction_eraseFromParent (id : nat) : CM unit :=
  do ins <- gets Insts;
  do r <- deref (ins !! id);
  modify (set_Insts (delete id ins));;
  match inst_parent r with
  | None => ret tt
  | Some b =>
      do bs <- gets Blocks;
      do bb <- deref (bs !! b);
      modify (set_Blocks
                (<[b := mkBB (bb_name bb) (bb_parent bb)
                             (List.filter (λ j, negb (Nat.eqb j id)) (bb_insts bb))]> bs))
  end.

Definition insert_after (b : nat) (new : list nat) (f : Function) : Function :=
  mkFunction (fn_id f) (fn_name f) (fn_args f)
    (flat_map (λ x, if Nat.eqb x b then x :: new else [x]) (fn_blocks f)).

(** [SplitBlockAndInsertIfThen(Cond, SplitBefore, false)], where
    [SplitBefore] is the last instruction of its block: the block keeps what
    comes before [SplitBefore] and ends in a conditional branch to a new
    "then" block or to a new tail block; the tail takes [SplitBefore]; the
    "then" block branches to the tail.  The answer is the terminator of the
    "then" block. *)
Definition SplitBlockAndInsertIfThen (Cond : Value) (SplitBefore : nat)
    : CM nat :=
  do ins <- gets Insts;
  do r <- deref (ins !! SplitBefore);
  do head <- deref (inst_parent r);
  do bs <- gets Blocks;
  do hb <- deref (bs !! head);
  do F <- deref (bb_parent hb);
  the_function F;;
  do tail <- fresh;
  do then_bb <- fresh;
  do then_term <- fresh;
  do head_term <- fresh;
  let keep := List.filter (λ j, negb (Nat.eqb j SplitBefore)) (bb_insts hb) in
  modify (set_Blocks
            (<[head := mkBB (bb_name hb) (Some F) (keep ++ [head_term])]>
               (<[then_bb := mkBB "" (Some F) [then_term]]>
                  (<[tail := mkBB "" (Some F) [SplitBefore]]> bs))));;
  modify (set_Insts
            (<[head_term := mkInst (CondBr Cond then_bb tail) (Some head)]>
               (<[then_term := mkInst (Br tail) (Some then_bb)]>
                  (<[SplitBefore := mkInst (inst r) (Some tail)]> ins))));;
  do m <- gets TheModule;
  modify (set_TheModule (update_fn F (insert_after head [then_bb; tail]) m));;
  ret then_term.

(** [I->getParent()] *)
Definition Instruction_getParent (id : nat) : CM nat :=
  do ins <- gets Insts;
  do r <- deref (ins !! id);
  deref (inst_parent r).

(** [F->eraseFromParent()]: the function leaves the module and its blocks
    are destroyed with their instructions. *)
Definition Function_eraseFromParent (F : nat) : CM unit :=
  do f <- the_function F;
  do bs <- gets Blocks;
  do ins <- gets Insts;
  let dead := flat_map (λ b, match bs !! b with
                             | Some bb => bb_insts bb
                             | None => []
                             end) (fn_blocks f) in
  modify (set_Insts (foldr delete ins dead));;
  modify (set_Blocks (foldr delete bs (fn_blocks f)));;
  do m <- gets TheModule;
  modify (set_TheModule (List.filter (λ g, negb (Nat.eqb (fn_id g) F)) m)).

End LLVM.

(** ** The lowering pass ([codegen.cpp]) *)

Module CodeGen.
Import LLVM.

(** [log_error_v]: print, answer [nullptr]. *)
Definition log_error_v {A} (msg : string) : CM (option A) :=
  modify (clog msg);;
  ret None.

(** [NamedValues[k]] read: [operator[]] of [std::map] adds a null entry
    for a key that is missing. *)
Definition NamedValues_at (k : string) : CM (option Value) :=
  do nv <- gets NamedValues;
  match nv !! k with
  | Some v => ret v
  | None => modify (set_NamedValues (<[k := None]> nv));; ret None
  end.

(** [NamedValues[k] = v] *)
Definition NamedValues_assign (k : string) (v : option Value) : CM unit :=
  do nv <- gets NamedValues;
  modify (set_NamedValues (<[k := v]> nv)).

Definition PrototypeAST_codegen (p : PrototypeAST) : CM nat :=
  Function_Create (Name p) (Args p).

Definition get_function (name : string) : CM (option nat) :=
  do m <- gets TheModule;
  match getFunction m name with
  | Some f => ret (Some (fn_id f))
  | None =>
      do protos <- gets FunctionProtos;
      match protos !! name with
      | Some p => do F <- PrototypeAST_codegen p; ret (Some F)
      | None => ret None
      end
  end.

(** The value of a [Create...] call that cannot be null. *)
Definition CreateV (i : Instruction) : CM Value :=
  do id <- Builder_insert i;
  ret (Inst id).

(** The [switch (Op)] of [BinaryExprAST::codegen]. *)
Definition binary_switch (Op : Z) (L R : Value) : CM (option Value) :=
  if Op =? chr "+" then Create (FAdd L R "addtmp")
  else if Op =? chr "-" then Create (FSub L R "subtmp")
  else if Op =? chr "*" then Create (FMul L R "multmp")
  else if Op =? chr "<" then
    do L <- CreateV (FCmpULT L R "cmptmp");
    Create (UIToFP L "booltmp")
  else log_error_v "invalid binary operator".

Section ArgLoop.
Variable codegen : ExprAST → CM (option Value).

(** The loop of [CallExprAST::codegen] over [Args]. *)
Fixpoint codegen_args (Args : list ExprAST) (ArgsV : list Value)
    : CM (option (list Value)) :=
  match Args with
  | [] => ret (Some ArgsV)
  | expr :: Args =>
      do v <- codegen expr;
      match v with
      | None => ret None
      | Some v => codegen_args Args (ArgsV ++ [v])
      end
  end.
End ArgLoop.

Fixpoint codegen (e : ExprAST) : CM (option Value) :=
  match e with
  | NumberExprAST Val => ret (Some (ConstantFP Val))

  | VariableExprAST Name =>
      do V <- NamedValues_at Name;
      match V with
      | None => log_error_v "Unknown variable name"
      | Some V => ret (Some V)
      end

  | BinaryExprAST Op LHS RHS =>
      do L <- codegen LHS;
      do R <- codegen RHS;
      match L, R with
      | Some L, Some R => binary_switch Op L R
      | _, _ => ret None
      end

  | CallExprAST Callee Args =>
      do CalleeF <- get_function Callee;
      match CalleeF with
      | None => log_error_v ("Unknown function " +:+ Callee +:+ " referenced")
      | Some CalleeF =>
          do f <- the_function CalleeF;
          if negb (Nat.eqb (length (fn_args f)) (length Args)) then
            log_error_v ("Incorrect number of arguments for function " +:+ Callee)
          else
            do ArgsV <- codegen_args codegen Args [];
            match ArgsV with
            | None => ret None
            | Some ArgsV => Create (Call CalleeF ArgsV "calltmp")
            end
      end

  | IfExprAST Condition Then Else =>
      do cond_val <- codegen Condition;
      match cond_val with
      | None => ret None
      | Some cond_val =>
      do bool_cond <- CreateV (FCmpONE cond_val (ConstantFP 0%float) "ifcond");
      do ib <- GetInsertBlock;
      do f <- BasicBlock_getParent ib;
      do then_bb <- BasicBlock_Create "then" f;
      do else_bb <- BasicBlock_Create "else" None;
      do fin_bb <- BasicBlock_Create "finish" None;
      Builder_insert (CondBr bool_cond then_bb else_bb);;
      SetInsertPoint then_bb;;
      do then_val <- codegen Then;
      match then_val with
      | None => ret None
      | Some then_val =>
      Builder_insert (Br fin_bb);;
      do then_phi_bb <- GetInsertBlock;
      Function_insert_end f else_bb;;
      SetInsertPoint else_bb;;
      do else_val <- codegen Else;
      match else_val with
      | None => ret None
      | Some else_val =>
      Builder_insert (Br fin_bb);;
      do else_phi_bb <- GetInsertBlock;
      Function_insert_end f fin_bb;;
      SetInsertPoint fin_bb;;
      do ret_val <- Builder_insert (PHI [] "iftmp");
      addIncoming ret_val then_val then_phi_bb;;
      addIncoming ret_val else_val else_phi_bb;;
      ret (Some (Inst ret_val))
      end end end

  | ForExpr VarName Start Condition Step Body =>
      do start <- codegen Start;
      match start with
      | None => ret None
      | Some start =>
      do ib <- GetInsertBlock;
      do f <- BasicBlock_getParent ib;
      do first_bb <- GetInsertBlock;
      do loop_bb <- BasicBlock_Create "loop" f;
      do end_bb <- BasicBlock_Create "endfor" None;
      Builder_insert (Br loop_bb);;
      SetInsertPoint loop_bb;;
      do var <- Builder_insert (PHI [] "loopval");
      addIncoming var start first_bb;;
      do old_val <- NamedValues_at VarName;
      NamedValues_assign VarName (Some (Inst var));;
      do condition <- codegen Condition;
      match condition with
      | None => ret None
      | Some condition =>
      do bool_cond <- CreateV (FCmpONE condition (ConstantFP 0%float) "forcond");
      do branch <- Builder_insert (Br end_bb);
      do then_inst <- SplitBlockAndInsertIfThen bool_cond branch;
      do split_bb <- Instruction_getParent then_inst;
      SetInsertPoint split_bb;;
      Instruction_eraseFromParent then_inst;;
      do body <- codegen Body;
      match body with
      | None => ret None
      | Some _ =>
      do step <- codegen Step;
      match step with
      | None => ret None
      | Some step =>
      do next <- CreateV (FAdd (Inst var) step "");
      addIncoming var next split_bb;;
      Builder_insert (Br loop_bb);;
      Function_insert_end f end_bb;;
      SetInsertPoint end_bb;;
      NamedValues_assign VarName old_val;;
      ret (Some (ConstantFP 0%float))
      end end end end
  end.

(** The loop of [FunctionAST::codegen] over [F->args()]. *)
Fixpoint bind_args (F : nat) (idx : nat) (names : list string)
    (nv : gmap string (option Value)) : gmap string (option Value) :=
  match names with
  | [] => nv
  | n :: names => bind_args F (S idx) names (<[n := Some (Argument F idx)]> nv)
  end.

(** [FunctionAST::codegen].  Where the function found has a body already,
    the C++ formats its diagnostic from [Proto->get_name()], after [Proto]
    was moved into [FunctionProtos]: a null pointer is followed.  The calls
    of [verifyFunction] and of the pass manager are LLVM's and left out. *)
Definition FunctionAST_codegen (fn : FunctionAST) : CM (option nat) :=
  let p := Proto fn in
  do protos <- gets FunctionProtos;
  modify (set_FunctionProtos (<[Name p := p]> protos));;
  do F <- get_function (Name p);
  match F with
  | None => ret None
  | Some F =>
      do f <- the_function F;
      if negb (bool_decide (fn_blocks f = [])) then stuck
      else
        do BB <- BasicBlock_Create "entry" (Some F);
        SetInsertPoint BB;;
        modify (set_NamedValues (bind_args F 0 (fn_args f) ∅));;
        do ret_value <- codegen (Body fn);
        match ret_value with
        | Some ret_value =>
            Builder_insert (Ret ret_value);;
            ret (Some F)
        | None =>
            Function_eraseFromParent F;;
            ret None
        end
  end.

End CodeGen.

(** ** The session ([handle_definition], [handle_extern],
    [handle_top_level_expression] and [main_loop] of [parser.cpp])

    The JIT is LLVM's: the model keeps the compilation units handed to it
    and nothing of what it does with them. *)

Record Module_ := mkModule {
  m_functions : list Function;
  m_blocks : gmap nat BasicBlock;
  m_insts : gmap nat InstRec
}.

Record Session := mkSession {
  parser : PState;
  lowering : CState;
  TheJIT : list Module_
}.

Module Driver.
Import LLVM.

Definition SM := M Session.

Definition in_parser {A} (m : Parser.PM A) : SM A :=
  λ s, match m (parser s) with
       | Some (a, p) => Some (a, mkSession p (lowering s) (TheJIT s))
       | None => None
       end.

Definition in_lowering {A} (m : CM A) : SM A :=
  λ s, match m (lowering s) with
       | Some (a, c) => Some (a, mkSession (parser s) c (TheJIT s))
       | None => None
       end.

(** [initialize_modules_and_managers]: a new context, module and
    builder. *)
Definition initialize_modules_and_managers (st : CState) : CState :=
  mkCState (FunctionProtos st) (NamedValues st) [] ∅ ∅ None (next_id st)
           (cerrs st).

(** [TheJIT->addModule(ThreadSafeModule(std::move(TheModule), ...))] *)
Definition addModule : SM unit :=
  modify (λ s, let c := lowering s in
               mkSession (parser s) c
                 (TheJIT s ++ [mkModule (TheModule c) (Blocks c) (Insts c)])).

Definition handle_definition (fuel : nat) : SM unit :=
  do func <- in_parser (Parser.parse_definition fuel);
  match func with
  | Some func =>
      do IR <- in_lowering (CodeGen.FunctionAST_codegen func);
      match IR with
      | Some _ =>
          addModule;;
          in_lowering (modify initialize_modules_and_managers)
      | None => ret tt
      end
  | None => in_parser Parser.get_next_token;; ret tt
  end.

Definition handle_extern : SM unit :=
  do ext <- in_parser Parser.parse_extern;
  match ext with
  | Some ext =>
      in_lowering (CodeGen.PrototypeAST_codegen ext);;
      in_lowering (do protos <- gets FunctionProtos;
                   modify (set_FunctionProtos (<[Name ext := ext]> protos)))
  | None => in_parser Parser.get_next_token;; ret tt
  end.

(** The anonymous function is added to the JIT, run and removed again;
    running it is the backend's part. *)
Definition handle_top_level_expression (fuel : nat) : SM unit :=
  do expr <- in_parser (Parser.parse_top_level_expression fuel);
  match expr with
  | Some expr =>
      do IR <- in_lowering (CodeGen.FunctionAST_codegen expr);
      match IR with
      | Some _ => in_lowering (modify initialize_modules_and_managers)
      | None => ret tt
      end
  | None => in_parser Parser.get_next_token;; ret tt
  end.

(** [main_loop]: [turns] bounds the turns of its [while (true)], [fuel] is
    the fuel of every parse. *)
Fixpoint main_loop (turns fuel : nat) : SM unit :=
  match turns with
  | O => stuck
  | S turns =>
      do t <- in_parser (gets cur_tok);
      if t =? tok_eof then ret tt
      else if t =? chr ";" then
        in_parser Parser.get_next_token;; main_loop turns fuel
      else if t =? tok_def then
        handle_definition fuel;; main_loop turns fuel
      else if t =? tok_extern then
        handle_extern;; main_loop turns fuel
      else handle_top_level_expression fuel;; main_loop turns fuel
  end.

Definition cstate0 : CState := mkCState ∅ ∅ [] ∅ ∅ None 0 [].

(** [main]: the state at start, the first token, the loop. *)
Definition pstate0 (inp : list lexeme) : PState :=
  mkPState 0 inp "" 0%float "" initial_precedence [].

Definition main (turns fuel : nat) (inp : list lexeme) : option (unit * Session) :=
  (in_parser Parser.get_next_token;; main_loop turns fuel)
    (mkSession (pstate0 inp) cstate0 []).

End Driver.


(** * Concrete inputs *)

Module Ex.

Definition lparen := Lx (chr "(").
Definition rparen := Lx (chr ")").
Definition semi := Lx (chr ";").

(** The state a run ends in. *)
Definition end_state {S A} (r : option (A * S)) (dflt : S) : S :=
  match r with
  | Some (_, s) => s
  | None => dflt
  end.

(** The session after [main] has read the whole of [inp]. *)
Definition session_after (inp : list lexeme) : Session :=
  end_state (Driver.main 50 50 inp)
            (mkSession (Driver.pstate0 []) Driver.cstate0 []).

(** [def binary| 5 (a b) a;] *)
Definition def_binary_or : list lexeme :=
  [Lx tok_def; LxBinary "|"; LxNumber 5; lparen; LxIdent "a"; LxIdent "b";
   rparen; LxIdent "a"; semi].

(** [1 | 0] *)
Definition one_or_zero : ExprAST :=
  BinaryExprAST (chr "|") (NumberExprAST 1) (NumberExprAST 0).

(** The lowering state once [def binary| 5 (a b) a;] went through. *)
Definition binary_or_declared : CState := lowering (session_after def_binary_or).

(** [def f(a) b] *)
Definition def_f_unbound : FunctionAST :=
  mkFunctionAST (mkPrototypeAST "f" ["a"] false 30) (VariableExprAST "b").

Definition def_f_unbound_end : CState :=
  end_state (CodeGen.FunctionAST_codegen def_f_unbound Driver.cstate0)
            Driver.cstate0.

(** [extern g(a b c);] *)
Definition extern_g : list lexeme :=
  [Lx tok_extern; LxIdent "g"; lparen; LxIdent "a"; LxIdent "b"; LxIdent "c";
   rparen; semi].

(** The lowering state at the point where [FunctionAST::codegen] turns to
    the body of a function [f(n)], in a session that has seen
    [extern g(a b c);]. *)
Definition in_f : CState :=
  end_state
    ((do F <- CodeGen.PrototypeAST_codegen (mkPrototypeAST "f" ["n"] false 30);
      do BB <- LLVM.BasicBlock_Create "entry" (Some F);
      LLVM.SetInsertPoint BB;;
      modify (set_NamedValues (CodeGen.bind_args F 0 ["n"] ∅)))
       (lowering (session_after extern_g)))
    Driver.cstate0.

Definition var_n := VariableExprAST "n".
Definition var_x := VariableExprAST "x".
Definition var_y := VariableExprAST "y".

(** [for i = 1, i < n, 1 do i end] *)
Definition count_to_n : ExprAST :=
  ForExpr "i" (NumberExprAST 1)
          (BinaryExprAST (chr "<") (VariableExprAST "i") var_n)
          (NumberExprAST 1) (VariableExprAST "i").

(** [for n = 1, n < 5, 1 do n end] *)
Definition shadowing_loop : ExprAST :=
  ForExpr "n" (NumberExprAST 1)
          (BinaryExprAST (chr "<") var_n (NumberExprAST 5))
          (NumberExprAST 1) var_n.

(** [for n = 1, y, 1 do 1 end] *)
Definition failing_loop : ExprAST :=
  ForExpr "n" (NumberExprAST 1) var_y (NumberExprAST 1) (NumberExprAST 1).

(** The parser state of [main] once the first token of [inp] is read. *)
Definition primed (inp : list lexeme) : PState :=
  end_state (Parser.get_next_token (Driver.pstate0 inp)) (Driver.pstate0 []).

Definition num (v : float) : ExprAST := NumberExprAST v.

(** [1+2*3] and [2*3+1] *)
Definition one_plus_product : list lexeme :=
  [LxNumber 1; Lx (chr "+"); LxNumber 2; Lx (chr "*"); LxNumber 3].
Definition product_plus_one : list lexeme :=
  [LxNumber 2; Lx (chr "*"); LxNumber 3; Lx (chr "+"); LxNumber 1].

(** [1|0|1] *)
Definition one_or_zero_or_one : list lexeme :=
  [LxNumber 1; Lx (chr "|"); LxNumber 0; Lx (chr "|"); LxNumber 1].

(** The session that has handled [def binary| 5 (a b) a;] and has read the
    first token of [1|0|1]. *)
Definition after_declaring : Session :=
  end_state
    ((Driver.in_parser Parser.get_next_token;;
      Driver.handle_definition 50;;
      Driver.in_parser Parser.get_next_token)
       (mkSession (Driver.pstate0 (def_binary_or ++ one_or_zero_or_one))
                  Driver.cstate0 []))
    (mkSession (Driver.pstate0 []) Driver.cstate0 []).

(** [unary! (a)] and [foo(a a)] *)
Definition unary_not : list lexeme := [LxUnary "!"; lparen; LxIdent "a"; rparen].
Definition foo_a_a : list lexeme := [LxIdent "foo"; lparen; LxIdent "a"; LxIdent "a"; rparen].

(** [binary| 5 (a b)] and [binary| (a)] *)
Definition binary_or_proto : list lexeme :=
  [LxBinary "|"; LxNumber 5; lparen; LxIdent "a"; LxIdent "b"; rparen].
Definition binary_one_param : list lexeme :=
  [LxBinary "|"; lparen; LxIdent "a"; rparen].

(** [def foo(a) a;] and [extern foo(a);] *)
Definition def_foo : list lexeme :=
  [Lx tok_def; LxIdent "foo"; lparen; LxIdent "a"; rparen; LxIdent "a"; semi].
Definition extern_foo : list lexeme :=
  [Lx tok_extern; LxIdent "foo"; lparen; LxIdent "a"; rparen; semi].

(** The names of the functions with a body, unit by unit. *)
Definition defined (jit : list Module_) : list (list string) :=
  map (λ m, map fn_name
              (List.filter (λ f, negb (bool_decide (fn_blocks f = [])))
                           (m_functions m))) jit.

(** What a run answers, where it answers a value. *)
Definition answer {S A} (r : option (option A * S)) (dflt : A) : A :=
  match r with
  | Some (Some a, _) => a
  | _ => dflt
  end.

Definition binary_or_parsed : PrototypeAST :=
  answer (Parser.parse_prototype (primed binary_or_proto)) Parser.anon_proto.

End Ex.

(** * Vocabulary of the statements *)

(** A computation preserves [R] when every run of it relates the state it
    starts from to the state it ends in. *)
Definition preserves {S A} (R : relation S) (m : M S A) : Prop :=
  ∀ s a s', m s = Some (a, s') → R s s'.

(** [m'] answers whatever [m] answers. *)
Definition le_run {S A} (m m' : M S A) : Prop :=
  ∀ s r, m s = Some r → m' s = Some r.

(** Two states agree on a field. *)
Definition same {S X} (f : S → X) : relation S := λ s s', f s' = f s.

Section Vocabulary.
Import LLVM CodeGen.

(** What [NamedValues[k]] answers when it is read: the pointer stored
    under [k], null where there is no entry. *)
Definition scope (st : CState) (k : string) : option Value :=
  default None (NamedValues st !! k).

(** The precedence table of a session. *)
Definition table (s : Session) : gmap Z Z := BINOP_PRECEDENCE (parser s).

(** [lowers_all es st vs st']: the expressions [es] lower one after the
    other, from left to right, each in the state the one before left, to
    the values [vs]. *)
Inductive lowers_all : list ExprAST → CState → list Value → CState → Prop :=
| lowers_nil st : lowers_all [] st [] st
| lowers_cons e es st v st1 vs st2 :
    codegen e st = Some (Some v, st1) →
    lowers_all es st1 vs st2 →
    lowers_all (e :: es) st (v :: vs) st2.

(** What [FunctionAST::codegen] does after it has put the prototype into
    the registry. *)
Definition after_registration (fn : FunctionAST) (F : nat)
    : CM (option nat) :=
  do f <- the_function F;
  if negb (bool_decide (fn_blocks f = [])) then stuck
  else
    do BB <- BasicBlock_Create "entry" (Some F);
    SetInsertPoint BB;;
    modify (set_NamedValues (bind_args F 0 (fn_args f) ∅));;
    do ret_value <- codegen (Body fn);
    match ret_value with
    | Some ret_value => Builder_insert (Ret ret_value);; ret (Some F)
    | None => Function_eraseFromParent F;; ret None
    end.

(** The three stretches of [ForExpr::codegen] between the lowering of its
    sub-expressions: from the start value to the condition, from the
    condition to the body, and from the step to the end. *)
Definition loop_header (VarName : string) (start : Value)
    : CM (nat * option nat * nat * nat * option Value) :=
  do ib <- GetInsertBlock;
  do f <- BasicBlock_getParent ib;
  do first_bb <- GetInsertBlock;
  do loop_bb <- BasicBlock_Create "loop" f;
  do end_bb <- BasicBlock_Create "endfor" None;
  Builder_insert (Br loop_bb);;
  SetInsertPoint loop_bb;;
  do var <- Builder_insert (PHI [] "loopval");
  addIncoming var start first_bb;;
  do old_val <- NamedValues_at VarName;
  NamedValues_assign VarName (Some (Inst var));;
  ret (var, f, loop_bb, end_bb, old_val).

Definition loop_branch (condition : Value) (end_bb : nat) : CM nat :=
  do bool_cond <- CreateV (FCmpONE condition (ConstantFP 0%float) "forcond");
  do branch <- Builder_insert (Br end_bb);
  do then_inst <- SplitBlockAndInsertIfThen bool_cond branch;
  do split_bb <- Instruction_getParent then_inst;
  SetInsertPoint split_bb;;
  Instruction_eraseFromParent then_inst;;
  ret split_bb.

Definition loop_close (VarName : string) (var : nat) (f : option nat)
    (loop_bb end_bb : nat) (old_val : option Value) (split_bb : nat)
    (step : Value) : CM unit :=
  do next <- CreateV (FAdd (Inst var) step "");
  addIncoming var next split_bb;;
  Builder_insert (Br loop_bb);;
  Function_insert_end f end_bb;;
  SetInsertPoint end_bb;;
  NamedValues_assign VarName old_val.

(** [shadowed_run x Start Condition Step Body st st']: the lowering of the
    loop runs from [st] to [st'] through all its stages, and the loop
    variable [x] is bound to the loop's PHI node where the condition, the
    body and the step are lowered. *)
Definition shadowed_run (x : string) (Start Condition Step Body : ExprAST)
    (st st' : CState) : Prop :=
  ∃ start s1 var f loop_bb end_bb old_val s2 c s3 split_bb s4 b s5 step s6,
    codegen Start st = Some (Some start, s1) ∧
    loop_header x start s1 = Some ((var, f, loop_bb, end_bb, old_val), s2) ∧
    scope s2 x = Some (Inst var) ∧
    codegen Condition s2 = Some (Some c, s3) ∧
    loop_branch c end_bb s3 = Some (split_bb, s4) ∧
    scope s4 x = Some (Inst var) ∧
    codegen Body s4 = Some (Some b, s5) ∧
    scope s5 x = Some (Inst var) ∧
    codegen Step s5 = Some (Some step, s6) ∧
    loop_close x var f loop_bb end_bb old_val split_bb step s6 = Some (tt, st').

End Vocabulary.

(** ** Vocabulary of the further properties *)

Section FurtherVocabulary.
Import LLVM CodeGen Parser Driver.

(** The diagnostics of [st] are still there in [st'], in front. *)
Definition cerrs_grow : relation CState :=
  λ st st', cerrs st `prefix_of` cerrs st'.

(** The diagnostics of [st] are still there in [st'], in front. *)
Definition perrs_grow : relation PState :=
  λ st st', perrs st `prefix_of` perrs st'.

(** A parser that answers [nullptr] only after a diagnostic. *)
Definition null_logs {A} (m : PM (option A)) : Prop :=
  ∀ st st', m st = Some (None, st') →
            (length (perrs st) < length (perrs st'))%nat.

(** Every prototype of the registry is filed under its own name. *)
Definition well_keyed (protos : gmap string PrototypeAST) : Prop :=
  ∀ k p, protos !! k = Some p → Name p = k.

(** From [st] to [st'] the registry stays well keyed and loses no name. *)
Definition registry_kept : relation CState :=
  λ st st',
    (well_keyed (FunctionProtos st) → well_keyed (FunctionProtos st')) ∧
    ∀ k, is_Some (FunctionProtos st !! k) → is_Some (FunctionProtos st' !! k).

(** The relation on sessions. *)
Definition session_registry_kept : relation Session :=
  λ s s', registry_kept (lowering s) (lowering s').

(** The lexemes of [op v1 op v2 ...]. *)
Definition operand_chain (op : Z) (vs : list float) : list lexeme :=
  flat_map (λ v, [Lx op; LxNumber v]) vs.

(** [((v0 op v1) op v2) ...] *)
Definition left_nested (op : Z) (LHS : ExprAST) (vs : list float) : ExprAST :=
  foldl (λ acc v, BinaryExprAST op acc (NumberExprAST v)) LHS vs.

(** The parser stands behind an operand, before the rest of the chain. *)
Definition behind_operand (op p : Z) (vs : list float) (st : PState) : Prop :=
  BINOP_PRECEDENCE st !! op = Some p ∧
  match vs with
  | [] => cur_tok st = tok_eof ∧ input st = []
  | v :: vs => cur_tok st = op ∧ input st = LxNumber v :: operand_chain op vs
  end.


(** The tokens the parser has still to look at: the lookahead, unless it
    is the end of the input, and what the lexer has not read. *)
Definition tokens_left (st : PState) : nat :=
  (length (input st) + (if (cur_tok st =? tok_eof)%Z then 0 else 1))%nat.

(** No more tokens are left in [st'] than in [st]. *)
Definition no_more : relation PState :=
  λ st st', (tokens_left st' ≤ tokens_left st)%nat.

(** A run of [m] that answers an expression has consumed a token. *)
Definition consumes {A} (m : Parser.PM (option A)) : Prop :=
  ∀ st a st', m st = Some (Some a, st') →
              (tokens_left st' < tokens_left st)%nat.

(** [m] returns from [st], and [Q] holds of what it answers. *)
Definition returns {A} (m : Parser.PM A) (Q : A → PState → Prop)
    (st : PState) : Prop :=
  ∃ a st', m st = Some (a, st') ∧ Q a st'.

(** [f'] is [f] with, possibly, more blocks. *)
Definition same_signature (f f' : Function) : Prop :=
  fn_id f' = fn_id f ∧ fn_name f' = fn_name f ∧ fn_args f' = fn_args f.

(** The module of [st'] has the functions of the module of [st], in the
    same order and with the same names and parameters, and after them the
    ones that were declared since. *)
Definition module_grows : relation CState :=
  λ st st', ∃ fs declared,
    TheModule st' = fs ++ declared ∧
    Forall2 same_signature (TheModule st) fs.

(** The token [gettok] answers for a lexeme. *)
Definition lexeme_token (l : lexeme) : Z :=
  match l with
  | LxIdent _ => tok_identifier
  | LxNumber _ => tok_number
  | LxBinary _ => tok_binary
  | LxUnary _ => tok_unary
  | Lx t => t
  end.

(** The lexer has read on from [st] to [st']. *)
Definition input_shrinks : relation PState :=
  λ st st', (length (input st') ≤ length (input st))%nat.

(** [op] is a character with a positive precedence in the table. *)
Definition known_operator (tbl : gmap Z Z) (op : Z) : bool :=
  isascii op &&
  match tbl !! op with
  | Some p => 0 <? p
  | None => false
  end.

(** Every binary node of [e] carries an operator of the table. *)
Fixpoint operators_known (tbl : gmap Z Z) (e : ExprAST) : bool :=
  match e with
  | NumberExprAST _ => true
  | VariableExprAST _ => true
  | BinaryExprAST Op LHS RHS =>
      known_operator tbl Op && operators_known tbl LHS
      && operators_known tbl RHS
  | CallExprAST _ Args => forallb (operators_known tbl) Args
  | IfExprAST Condition Then Else =>
      operators_known tbl Condition && operators_known tbl Then
      && operators_known tbl Else
  | ForExpr _ Start Condition Step Body =>
      operators_known tbl Start && operators_known tbl Condition
      && operators_known tbl Step && operators_known tbl Body
  end.

(** The parser state [st] has the precedence table [tbl]. *)
Definition has_table (tbl : gmap Z Z) (st : PState) : Prop :=
  BINOP_PRECEDENCE st = tbl.

(** The diagnostic "invalid binary operator" was not added between [st]
    and [st']. *)
Definition no_invalid : relation CState :=
  λ st st', "invalid binary operator" ∈ cerrs st' →
            "invalid binary operator" ∈ cerrs st.

(** The same for the lowering state of a session whose parser has the
    initial table, which it keeps. *)
Definition session_no_invalid : relation Session :=
  λ s s', table s = initial_precedence →
          table s' = initial_precedence ∧ no_invalid (lowering s) (lowering s').

(** Identifiers are handed out in increasing order. *)
Definition ids_grow : relation CState :=
  λ st st', (next_id st ≤ next_id st')%nat.

(** The instructions with an identifier below [n] are the same in [st']
    as in [st]. *)
Definition kept (n : nat) : relation CState :=
  λ st st', ∀ id, (id < n)%nat → Insts st' !! id = Insts st !! id.

(** The lowering state in [f(n)] once [n < 5] is lowered. *)
Definition after_comparison : CState :=
  Ex.end_state
    (codegen (BinaryExprAST (chr "<") Ex.var_n (Ex.num 5)) Ex.in_f) Ex.in_f.

(** The blocks of [st] are still there in [st']. *)
Definition blocks_grow : relation CState :=
  λ st st', ∀ b, is_Some (Blocks st !! b) → is_Some (Blocks st' !! b).

(** The functions other than [F] have no body. *)
Definition others_declared (F : nat) (m : list Function) : Prop :=
  Forall (λ f, fn_id f ≠ F → fn_blocks f = []) m.

(** The block [b] of [st] is a block of the function [F]. *)
Definition block_of (F : nat) (st : CState) (b : nat) : Prop :=
  ∃ bb, Blocks st !! b = Some bb ∧ bb_parent bb = Some F.

(** The state of the lowering pass while the body of [F] is lowered: the
    builder is in a block of [F], [F] is in the module and is the only
    function that may have blocks. *)
Definition in_function (F : nat) (st : CState) : Prop :=
  (∃ b, InsertBlock st = Some b ∧ block_of F st b ∧ (b < next_id st)%nat) ∧
  is_Some (lookup_fn F (TheModule st)) ∧
  others_declared F (TheModule st).

(** [m] returns from [st], in a state in which [F] is still being
    lowered. *)
Definition lowers {A} (F : nat) (m : CM A) (st : CState) : Prop :=
  ∃ r st', m st = Some (r, st') ∧ in_function F st'.






End FurtherVocabulary.

(** * Reasoning about runs *)

Section Runs.
Context {S : Type}.

Lemma bind_inv {A B} (m : M S A) (k : A → M S B) s b s' :
  bind m k s = Some (b, s') →
  ∃ a s1, m s = Some (a, s1) ∧ k a s1 = Some (b, s').
Proof.
  unfold bind. destruct (m s) as [[a s1]|] eqn:E; [|discriminate].
  intros H. by exists a, s1.
Qed.

Lemma bind_run {A B} (m : M S A) (k : A → M S B) s a s1 :
  m s = Some (a, s1) → bind m k s = k a s1.
Proof. unfold bind. by intros ->. Qed.

Lemma ret_inv {A} (a b : A) (s s' : S) :
  ret a s = Some (b, s') → b = a ∧ s' = s.
Proof. unfold ret. by intros [= -> ->]. Qed.

Lemma gets_inv {A} (f : S → A) s b s' :
  gets f s = Some (b, s') → b = f s ∧ s' = s.
Proof. unfold gets. by intros [= <- <-]. Qed.

Lemma modify_inv (f : S → S) s b s' :
  modify f s = Some (b, s') → s' = f s.
Proof. unfold modify. by intros [= <- <-]. Qed.

Context (R : relation S) `{!Reflexive R, !Transitive R}.

Lemma preserves_ret {A} (a : A) : preserves R (ret a).
Proof. intros s b s' [-> ->]%ret_inv. reflexivity. Qed.

Lemma preserves_gets {A} (f : S → A) : preserves R (gets f).
Proof. intros s b s' [-> ->]%gets_inv. reflexivity. Qed.

Lemma preserves_stuck {A} : preserves R (@stuck S A).
Proof. intros s b s'. discriminate. Qed.

Lemma preserves_modify (f : S → S) :
  (∀ s, R s (f s)) → preserves R (modify f).
Proof. intros Hf s b s' ->%modify_inv. apply Hf. Qed.

Lemma preserves_bind {A B} (m : M S A) (k : A → M S B) :
  preserves R m → (∀ a, preserves R (k a)) → preserves R (bind m k).
Proof.
  intros Hm Hk s b s' (a & s1 & H1 & H2)%bind_inv.
  transitivity s1; [by eapply Hm | by eapply Hk].
Qed.

End Runs.

#[local] Instance same_refl {S X} (f : S → X) : Reflexive (same f).
Proof. by intros s. Qed.

#[local] Instance same_trans {S X} (f : S → X) : Transitive (same f).
Proof. intros s1 s2 s3 H12 H23. unfold same in *. congruence. Qed.

(** Splits a goal [preserves R m] along the structure of [m]. *)
Ltac frame_step :=
  lazymatch goal with
  | |- preserves _ (bind _ _) =>
      (apply preserves_bind; try apply _); [|intros ?]
  | |- preserves _ (ret _) => apply preserves_ret; apply _
  | |- preserves _ (gets _) => apply preserves_gets; apply _
  | |- preserves _ stuck => apply preserves_stuck
  | |- preserves _ (modify _) =>
      (apply preserves_modify; try apply _); intros ?; hnf; reflexivity
  | |- preserves _ (match ?x with _ => _ end) => destruct x
  | |- preserves _ (if ?b then _ else _) => destruct b
  end.

Ltac frame := repeat frame_step; eauto with frame.

Create HintDb frame.

(** Takes a run [H : m s = Some (r, s')] apart, one [bind] at a time. *)
Ltac run_prim H :=
  lazymatch type of H with
  | gets _ _ = Some _ => apply gets_inv in H as [? ?]; subst
  | modify _ _ = Some _ => apply modify_inv in H; subst
  | ret _ _ = Some _ => apply ret_inv in H as [? ?]; try discriminate; subst
  | stuck _ = Some _ => discriminate H
  | _ => idtac
  end.

Ltac run_inv H :=
  cbv beta in H;
  lazymatch type of H with
  | bind _ _ _ = Some _ =>
      let H1 := fresh "Hrun" in
      apply bind_inv in H as (? & ? & H1 & H); run_prim H1; run_inv H
  | (match ?x with _ => _ end) _ = Some _ => destruct x eqn:?; run_inv H
  | (if ?b then _ else _) _ = Some _ => destruct b eqn:?; run_inv H
  | _ => run_prim H
  end.

(** ** What the IR primitives leave alone *)

Section Frames.
Import LLVM.
Context {X : Type} (f : CState → X).
Hypothesis f_Blocks : ∀ x s, f (set_Blocks x s) = f s.
Hypothesis f_Insts : ∀ x s, f (set_Insts x s) = f s.
Hypothesis f_TheModule : ∀ x s, f (set_TheModule x s) = f s.
Hypothesis f_InsertBlock : ∀ x s, f (set_InsertBlock x s) = f s.
Hypothesis f_next_id : ∀ x s, f (set_next_id x s) = f s.

#[local] Ltac prim :=
  repeat first
    [ frame_step
    | (apply preserves_modify; try apply _); intros ?; hnf;
      first [ apply f_Blocks | apply f_Insts | apply f_TheModule
            | apply f_InsertBlock | apply f_next_id ] ];
  eauto.

Lemma fresh_same : preserves (same f) fresh.
Proof. unfold fresh. prim. Qed.

Lemma deref_same {A} (o : option A) : preserves (same f) (deref o).
Proof. unfold deref. prim. Qed.

Lemma the_function_same F : preserves (same f) (the_function F).
Proof. unfold the_function. prim. apply deref_same. Qed.

Lemma Function_Create_same name args :
  preserves (same f) (Function_Create name args).
Proof. unfold Function_Create. prim. apply fresh_same. Qed.

Lemma BasicBlock_Create_same name parent :
  preserves (same f) (BasicBlock_Create name parent).
Proof.
  unfold BasicBlock_Create. prim;
    first [ apply fresh_same | apply the_function_same ].
Qed.

Lemma Function_insert_end_same F b :
  preserves (same f) (Function_insert_end F b).
Proof.
  unfold Function_insert_end. prim;
    first [ apply deref_same | apply the_function_same ].
Qed.

Lemma SetInsertPoint_same b : preserves (same f) (SetInsertPoint b).
Proof. unfold SetInsertPoint. prim. Qed.

Lemma GetInsertBlock_same : preserves (same f) GetInsertBlock.
Proof. unfold GetInsertBlock. prim. apply deref_same. Qed.

Lemma BasicBlock_getParent_same b :
  preserves (same f) (BasicBlock_getParent b).
Proof. unfold BasicBlock_getParent. prim. apply deref_same. Qed.

Lemma Builder_insert_same i : preserves (same f) (Builder_insert i).
Proof.
  unfold Builder_insert. prim; first [ apply fresh_same | apply deref_same ].
Qed.

Lemma Create_same i : preserves (same f) (Create i).
Proof. unfold Create. prim. apply Builder_insert_same. Qed.

Lemma addIncoming_same phi v b : preserves (same f) (addIncoming phi v b).
Proof. unfold addIncoming. prim. apply deref_same. Qed.

Lemma Instruction_eraseFromParent_same id :
  preserves (same f) (Instruction_eraseFromParent id).
Proof. unfold Instruction_eraseFromParent. prim; apply deref_same. Qed.

Lemma SplitBlockAndInsertIfThen_same c i :
  preserves (same f) (SplitBlockAndInsertIfThen c i).
Proof.
  unfold SplitBlockAndInsertIfThen. prim;
    first [ apply deref_same | apply fresh_same | apply the_function_same ].
Qed.

Lemma Instruction_getParent_same id :
  preserves (same f) (Instruction_getParent id).
Proof. unfold Instruction_getParent. prim; apply deref_same. Qed.

Lemma Function_eraseFromParent_same F :
  preserves (same f) (Function_eraseFromParent F).
Proof. unfold Function_eraseFromParent. prim. apply the_function_same. Qed.

Lemma CreateV_same i : preserves (same f) (CodeGen.CreateV i).
Proof. unfold CodeGen.CreateV. prim. apply Builder_insert_same. Qed.

Lemma PrototypeAST_codegen_same p :
  preserves (same f) (CodeGen.PrototypeAST_codegen p).
Proof. apply Function_Create_same. Qed.

Lemma get_function_same name : preserves (same f) (CodeGen.get_function name).
Proof. unfold CodeGen.get_function. prim. apply PrototypeAST_codegen_same. Qed.

End Frames.

#[export] Hint Resolve
  fresh_same deref_same the_function_same Function_Create_same
  BasicBlock_Create_same Function_insert_end_same SetInsertPoint_same
  GetInsertBlock_same BasicBlock_getParent_same Builder_insert_same
  Create_same addIncoming_same Instruction_eraseFromParent_same
  SplitBlockAndInsertIfThen_same Instruction_getParent_same
  Function_eraseFromParent_same CreateV_same PrototypeAST_codegen_same
  get_function_same : frame.

(** ** Induction on expressions, through the argument lists of calls *)

Section ExprAST_induction.
Variable P : ExprAST → Prop.
Hypothesis P_Number : ∀ v, P (NumberExprAST v).
Hypothesis P_Variable : ∀ n, P (VariableExprAST n).
Hypothesis P_Binary : ∀ op l r, P l → P r → P (BinaryExprAST op l r).
Hypothesis P_Call : ∀ c args, Forall P args → P (CallExprAST c args).
Hypothesis P_If : ∀ c t e, P c → P t → P e → P (IfExprAST c t e).
Hypothesis P_For :
  ∀ x s c st b, P s → P c → P st → P b → P (ForExpr x s c st b).

Fixpoint ExprAST_nested_ind (e : ExprAST) : P e :=
  match e with
  | NumberExprAST v => P_Number v
  | VariableExprAST n => P_Variable n
  | BinaryExprAST op l r =>
      P_Binary op l r (ExprAST_nested_ind l) (ExprAST_nested_ind r)
  | CallExprAST c args =>
      P_Call c args
        ((fix go (l : list ExprAST) : Forall P l :=
            match l with
            | [] => List.Forall_nil P
            | x :: l => List.Forall_cons P x l (ExprAST_nested_ind x) (go l)
            end) args)
  | IfExprAST c t e =>
      P_If c t e (ExprAST_nested_ind c) (ExprAST_nested_ind t)
           (ExprAST_nested_ind e)
  | ForExpr x s c st b =>
      P_For x s c st b (ExprAST_nested_ind s) (ExprAST_nested_ind c)
            (ExprAST_nested_ind st) (ExprAST_nested_ind b)
  end.

End ExprAST_induction.

(** ** Lowering an expression never writes the prototype registry *)

Section Registry.
Import LLVM CodeGen.

Lemma log_error_v_protos {A} msg :
  preserves (same FunctionProtos) (@log_error_v A msg).
Proof. unfold log_error_v. frame. Qed.

Lemma NamedValues_at_protos k :
  preserves (same FunctionProtos) (NamedValues_at k).
Proof. unfold NamedValues_at. frame. Qed.

Lemma NamedValues_assign_protos k v :
  preserves (same FunctionProtos) (NamedValues_assign k v).
Proof. unfold NamedValues_assign. frame. Qed.

#[local] Hint Resolve log_error_v_protos NamedValues_at_protos
  NamedValues_assign_protos : frame.

Lemma get_function_protos name :
  preserves (same FunctionProtos) (get_function name).
Proof. frame. Qed.

Lemma binary_switch_protos Op L R :
  preserves (same FunctionProtos) (binary_switch Op L R).
Proof. unfold binary_switch. frame. Qed.

Lemma codegen_args_protos cg Args ArgsV :
  Forall (λ e, preserves (same FunctionProtos) (cg e)) Args →
  preserves (same FunctionProtos) (codegen_args cg Args ArgsV).
Proof.
  intros HF. revert ArgsV.
  induction HF as [|e Args He _ IH]; intros ArgsV; cbn [codegen_args]; frame.
Qed.

Lemma codegen_protos e : preserves (same FunctionProtos) (codegen e).
Proof.
  induction e using ExprAST_nested_ind; cbn [codegen];
    frame; eauto using binary_switch_protos, codegen_args_protos.
Qed.

End Registry.

(** ** A definition whose body fails *)

Section FailedDefinition.
Import LLVM CodeGen.

Lemma get_function_registered name p st r st' :
  FunctionProtos st !! name = Some p →
  get_function name st = Some (r, st') → is_Some r.
Proof.
  intros Hp H. unfold get_function in H. run_inv H; eauto; congruence.
Qed.

Lemma lookup_fn_erased F m :
  lookup_fn F (List.filter (λ g, negb (Nat.eqb (fn_id g) F)) m) = None.
Proof.
  unfold lookup_fn. induction m as [|g m IH]; [done|]. cbn [List.filter].
  destruct (Nat.eqb_spec (fn_id g) F) as [Heq|Hne]; cbn [negb]; [done|].
  cbn [List.find]. by rewrite bool_decide_eq_false_2.
Qed.

Lemma Function_eraseFromParent_gone F st st' :
  Function_eraseFromParent F st = Some (tt, st') →
  lookup_fn F (TheModule st') = None.
Proof.
  unfold Function_eraseFromParent. intros H. run_inv H.
  apply lookup_fn_erased.
Qed.

Lemma after_registration_protos fn F :
  preserves (same FunctionProtos) (after_registration fn F).
Proof.
  unfold after_registration. frame;
    eauto using the_function_same, BasicBlock_Create_same,
      SetInsertPoint_same, codegen_protos, Builder_insert_same,
      Function_eraseFromParent_same.
Qed.

End FailedDefinition.

(** * The claims *)

Section Claims.
Import LLVM CodeGen.

(** C10.  A definition whose lowering answers [nullptr] failed in its
    body; its prototype is in the registry under its name, in place of
    whatever was there, and every other entry is as before; the function
    that was being built is no longer in the module. *)
Theorem failed_definition_stays_registered fn st st' :
  FunctionAST_codegen fn st = Some (None, st') →
  FunctionProtos st'
    = <[Name (Proto fn) := Proto fn]> (FunctionProtos st) ∧
  ∃ F st1 st2 st3,
    get_function (Name (Proto fn))
      (set_FunctionProtos
         (<[Name (Proto fn) := Proto fn]> (FunctionProtos st)) st)
      = Some (Some F, st1) ∧
    is_Some (lookup_fn F (TheModule st1)) ∧
    codegen (Body fn) st2 = Some (None, st3) ∧
    lookup_fn F (TheModule st') = None.
Proof.
  intros H. unfold FunctionAST_codegen in H.
  apply bind_inv in H as (protos & s0 & [-> ->]%gets_inv & H).
  apply bind_inv in H as ([] & s1 & ->%modify_inv & H).
  apply bind_inv in H as (F & s2 & HF & H).
  destruct F as [F|].
  2:{ eapply get_function_registered in HF as [? [=]].
      cbn. apply lookup_insert_eq. }
  pose proof (get_function_protos _ _ _ _ HF) as HP2.
  change (after_registration fn F s2 = Some (None, st')) in H.
  pose proof (after_registration_protos _ _ _ _ _ H) as HP3.
  split; [unfold same in *; by rewrite HP3, HP2|].
  exists F, s2. unfold after_registration in H. run_inv H.
  eexists _, _. split; [done|]. split; [|split; [done|]].
  - unfold the_function in Hrun. run_inv Hrun.
    destruct (lookup_fn F (TheModule s2)); [eauto|discriminate].
  - match goal with
    | He : Function_eraseFromParent _ _ = Some (?u, _) |- _ => destruct u
    end.
    by eapply Function_eraseFromParent_gone.
Qed.

Lemma failed_definition_witness :
  FunctionProtos Ex.def_f_unbound_end = <[ "f" := Proto Ex.def_f_unbound ]> ∅ ∧
  ∃ F st1 st2 st3,
    get_function "f"
      (set_FunctionProtos (<[ "f" := Proto Ex.def_f_unbound ]> ∅) Driver.cstate0)
      = Some (Some F, st1) ∧
    is_Some (lookup_fn F (TheModule st1)) ∧
    codegen (VariableExprAST "b") st2 = Some (None, st3) ∧
    lookup_fn F (TheModule Ex.def_f_unbound_end) = None.
Proof.
  apply (failed_definition_stays_registered Ex.def_f_unbound Driver.cstate0).
  vm_compute. reflexivity.
Defined.

(** C1, as the code has it.  A binary operator other than [+], [-], [*]
    and [<] whose operands both lower is answered by [nullptr] and the
    diagnostic "invalid binary operator"; the state is the one the operands
    left, so no call is emitted and the registry is never looked at. *)
Theorem other_operator_is_invalid Op LHS RHS st L st1 R st2 :
  Op ≠ chr "+" → Op ≠ chr "-" → Op ≠ chr "*" → Op ≠ chr "<" →
  codegen LHS st = Some (Some L, st1) →
  codegen RHS st1 = Some (Some R, st2) →
  codegen (BinaryExprAST Op LHS RHS) st
    = Some (None, clog "invalid binary operator" st2).
Proof.
  intros Hadd Hsub Hmul Hlt HL HR. cbn [codegen].
  rewrite (bind_run _ _ _ _ _ HL), (bind_run _ _ _ _ _ HR).
  unfold binary_switch.
  by rewrite !(proj2 (Z.eqb_neq _ _)).
Qed.

Lemma other_operator_witness :
  codegen Ex.one_or_zero Ex.binary_or_declared
    = Some (None, clog "invalid binary operator" Ex.binary_or_declared).
Proof.
  apply (other_operator_is_invalid (chr "|") (NumberExprAST 1) (NumberExprAST 0)
           Ex.binary_or_declared (ConstantFP 1) Ex.binary_or_declared
           (ConstantFP 0) Ex.binary_or_declared);
    first [ reflexivity | by vm_compute ].
Defined.

(** C1 fails where the operator function is declared: after
    [def binary| 5 (a b) a;] the registry holds [binary|], and lowering
    [1 | 0] still answers [nullptr] with "invalid binary operator". *)
Lemma declared_operator_is_invalid :
  is_Some (FunctionProtos Ex.binary_or_declared !! "binary|") ∧
  (∃ F st', get_function "binary|" Ex.binary_or_declared = Some (Some F, st')) ∧
  ∃ st', codegen Ex.one_or_zero Ex.binary_or_declared = Some (None, st') ∧
         cerrs st' = cerrs Ex.binary_or_declared ++ ["invalid binary operator"] ∧
         Insts st' = Insts Ex.binary_or_declared.
Proof.
  split; [eexists; vm_compute; reflexivity|]. split.
  - eexists _, _. vm_compute. reflexivity.
  - eexists. split; [vm_compute; reflexivity|]. by vm_compute.
Qed.

(** C6.  A loop that lowers answers the constant 0, whatever its parts
    are. *)
Theorem loop_value_is_zero VarName Start Condition Step Body st v st' :
  codegen (ForExpr VarName Start Condition Step Body) st = Some (Some v, st') →
  v = ConstantFP 0%float.
Proof.
  intros H. cbn [codegen] in H. run_inv H. congruence.
Qed.

Lemma loop_value_witness :
  Ex.answer (codegen Ex.count_to_n Ex.in_f) (ConstantFP 1) = ConstantFP 0%float.
Proof.
  apply (loop_value_is_zero "i" (NumberExprAST 1)
           (BinaryExprAST (chr "<") (VariableExprAST "i") Ex.var_n)
           (NumberExprAST 1) (VariableExprAST "i") Ex.in_f
           (Ex.answer (codegen Ex.count_to_n Ex.in_f) (ConstantFP 1))
           (Ex.end_state (codegen Ex.count_to_n Ex.in_f) Ex.in_f)).
  vm_compute. reflexivity.
Defined.

Lemma codegen_args_lowered pre rest acc st vs st1 :
  lowers_all pre st vs st1 →
  codegen_args codegen (pre ++ rest) acc st
    = codegen_args codegen rest (acc ++ vs) st1.
Proof.
  intros H. revert acc. induction H as [st|e es st v st1 vs st2 He _ IH];
    intros acc; cbn [app codegen_args].
  - by rewrite app_nil_r.
  - rewrite (bind_run _ _ _ _ _ He). by rewrite IH, <- app_assoc.
Qed.

Lemma the_function_run F st f :
  lookup_fn F (TheModule st) = Some f → the_function F st = Some (f, st).
Proof. intros H. unfold the_function, bind, gets, deref. by rewrite H. Qed.

(** C4, as the code has it.  A binary node lowers its left operand and
    then, in the state that left, its right operand, also when the left one
    failed; when either failed the node answers [nullptr] in the state the
    right operand left, without an instruction of its own.  A call lowers
    its arguments from left to right and stops at the first that fails: the
    state is the one that argument left, whatever comes after it. *)
Theorem operands_are_lowered_in_order :
  (∀ Op LHS RHS st L st1 R st2,
     codegen LHS st = Some (L, st1) →
     codegen RHS st1 = Some (R, st2) →
     L = None ∨ R = None →
     codegen (BinaryExprAST Op LHS RHS) st = Some (None, st2)) ∧
  (∀ Callee pre a post st F st0 f vs st1 st2,
     get_function Callee st = Some (Some F, st0) →
     lookup_fn F (TheModule st0) = Some f →
     length (fn_args f) = length (pre ++ a :: post) →
     lowers_all pre st0 vs st1 →
     codegen a st1 = Some (None, st2) →
     codegen (CallExprAST Callee (pre ++ a :: post)) st = Some (None, st2)).
Proof.
  split.
  - intros Op LHS RHS st L st1 R st2 HL HR Hfail. cbn [codegen].
    rewrite (bind_run _ _ _ _ _ HL), (bind_run _ _ _ _ _ HR).
    destruct Hfail as [-> | ->]; [done|]. by destruct L.
  - intros Callee pre a post st F st0 f vs st1 st2 HF Hf Hlen Hpre Ha.
    cbn [codegen]. rewrite (bind_run _ _ _ _ _ HF).
    rewrite (bind_run _ _ _ _ _ (the_function_run _ _ _ Hf)).
    rewrite Hlen, Nat.eqb_refl. cbn [negb].
    unfold bind at 1. rewrite (codegen_args_lowered _ _ _ _ _ _ Hpre).
    cbn [codegen_args]. by rewrite (bind_run _ _ _ _ _ Ha).
Qed.

(** [x + g(n, n, n)] where [x] is unbound, and [g(n, x, y)]. *)
Lemma operands_in_order_witness :
  codegen (BinaryExprAST (chr "+") Ex.var_x
             (CallExprAST "g" [Ex.var_n; Ex.var_n; Ex.var_n])) Ex.in_f
    = Some (None,
            Ex.end_state
              (codegen (CallExprAST "g" [Ex.var_n; Ex.var_n; Ex.var_n])
                 (Ex.end_state (codegen Ex.var_x Ex.in_f) Ex.in_f))
              Ex.in_f) ∧
  codegen (CallExprAST "g" ([Ex.var_n] ++ Ex.var_x :: [Ex.var_y])) Ex.in_f
    = Some (None,
            Ex.end_state
              (codegen Ex.var_x
                 (Ex.end_state (codegen Ex.var_n
                    (Ex.end_state (get_function "g" Ex.in_f) Ex.in_f)) Ex.in_f))
              Ex.in_f).
Proof.
  split.
  - apply (proj1 operands_are_lowered_in_order (chr "+") Ex.var_x
             (CallExprAST "g" [Ex.var_n; Ex.var_n; Ex.var_n]) Ex.in_f
             None (Ex.end_state (codegen Ex.var_x Ex.in_f) Ex.in_f)
             (Some (Ex.answer
                (codegen (CallExprAST "g" [Ex.var_n; Ex.var_n; Ex.var_n])
                   (Ex.end_state (codegen Ex.var_x Ex.in_f) Ex.in_f))
                (ConstantFP 0)))).
    + vm_compute. reflexivity.
    + vm_compute. reflexivity.
    + by left.
  - apply (proj2 operands_are_lowered_in_order "g" [Ex.var_n] Ex.var_x
             [Ex.var_y] Ex.in_f 0%nat
             (Ex.end_state (get_function "g" Ex.in_f) Ex.in_f)
             (mkFunction 0 "g" ["a"; "b"; "c"] [])
             [Argument 1 0]
             (Ex.end_state (codegen Ex.var_n
                (Ex.end_state (get_function "g" Ex.in_f) Ex.in_f)) Ex.in_f)).
    + vm_compute. reflexivity.
    + vm_compute. reflexivity.
    + reflexivity.
    + eapply lowers_cons; [vm_compute; reflexivity|].
      apply lowers_nil.
    + vm_compute. reflexivity.
Defined.

(** C4 fails for a binary node: in [x + g(n, n, n)] the lowering of [x]
    fails and emits nothing, yet the call of [g] is lowered after it and
    its instruction is in the block. *)
Lemma right_operand_is_lowered_after_failure :
  ∃ st1 st2,
    codegen Ex.var_x Ex.in_f = Some (None, st1) ∧
    Insts st1 = ∅ ∧
    codegen (BinaryExprAST (chr "+") Ex.var_x
               (CallExprAST "g" [Ex.var_n; Ex.var_n; Ex.var_n])) Ex.in_f
      = Some (None, st2) ∧
    Insts st2 !! 3%nat
      = Some (mkInst (Call 0 [Argument 1 0; Argument 1 0; Argument 1 0] "calltmp")
                     (InsertBlock Ex.in_f)) ∧
    cerrs st2 = cerrs st1.
Proof.
  eexists _, _. split; [vm_compute; reflexivity|].
  split; [by vm_compute|].
  split; [vm_compute; reflexivity|].
  split; by vm_compute.
Qed.

End Claims.

(** ** The scope across the lowering of an expression *)

Section Scope.
Import LLVM CodeGen.

Lemma same_NamedValues_scope {A} (m : CM A) st a st' :
  preserves (same NamedValues) m →
  m st = Some (a, st') → ∀ k, scope st' k = scope st k.
Proof. intros Hm H k. unfold scope. by rewrite (Hm _ _ _ H). Qed.

Lemma log_error_v_scope {A} msg :
  preserves (same NamedValues) (@log_error_v A msg).
Proof. unfold log_error_v. frame. Qed.

Lemma binary_switch_scope Op L R :
  preserves (same NamedValues) (binary_switch Op L R).
Proof. unfold binary_switch. frame. apply log_error_v_scope. Qed.

Lemma NamedValues_at_scope x st v st' :
  NamedValues_at x st = Some (v, st') →
  v = scope st x ∧ ∀ k, scope st' k = scope st k.
Proof.
  unfold NamedValues_at, scope. intros H. run_inv H; [done|].
  split; [done|]. intros k. cbn.
  destruct (decide (x = k)) as [->|Hne].
  - by rewrite lookup_insert_eq, Heqo.
  - by rewrite lookup_insert_ne.
Qed.

Lemma NamedValues_assign_scope x v st u st' :
  NamedValues_assign x v st = Some (u, st') →
  scope st' x = v ∧ ∀ k, k ≠ x → scope st' k = scope st k.
Proof.
  unfold NamedValues_assign, scope. intros H. run_inv H. cbn. split.
  - by rewrite lookup_insert_eq.
  - intros k Hne. by rewrite lookup_insert_ne.
Qed.

(** Collects, for the runs among the hypotheses, that they leave every
    lookup in the scope as it was. *)
Ltac scope_facts :=
  repeat match goal with
  | H : ?m ?s = Some (?a, ?s') |- _ =>
      lazymatch goal with
      | _ : (∀ k, scope s' k = scope s k) |- _ => fail
      | _ => idtac
      end;
      assert (∀ k, scope s' k = scope s k)
        by first
             [ eapply same_NamedValues_scope; [|exact H];
               solve [eauto using log_error_v_scope, binary_switch_scope with frame]
             | eapply NamedValues_at_scope; exact H
             | solve [eauto] ]
  end.

Ltac scope_rewrite :=
  repeat match goal with
  | H : (∀ k, scope ?s' k = scope _ k) |- context [scope ?s' _] => rewrite !H
  end.

Lemma codegen_args_scope Args :
  Forall (λ e, ∀ st v st', codegen e st = Some (Some v, st') →
                           ∀ k, scope st' k = scope st k) Args →
  ∀ acc st vs st', codegen_args codegen Args acc st = Some (Some vs, st') →
                   ∀ k, scope st' k = scope st k.
Proof.
  induction 1 as [|e Args He _ IH]; intros acc st vs st' H k;
    cbn [codegen_args] in H; run_inv H; [done|].
  scope_facts. by scope_rewrite.
Qed.

Lemma codegen_scope e st v st' :
  codegen e st = Some (Some v, st') → ∀ k, scope st' k = scope st k.
Proof.
  revert st v st'.
  induction e as [| |op l IHl r IHr|c args IHargs|c IHc t IHt e IHe
                  |x s c stp b IHs IHc IHstp IHb] using ExprAST_nested_ind;
    intros s0 r0 s1 H k; cbn [codegen] in H;
    unfold log_error_v in H; run_inv H.
  - done.
  - scope_facts. by scope_rewrite.
  - scope_facts. by scope_rewrite.
  - pose proof (codegen_args_scope _ IHargs). scope_facts. by scope_rewrite.
  - scope_facts. by scope_rewrite.
  - scope_facts.
    match goal with
    | Hat : NamedValues_at x _ = Some _,
      Hin : NamedValues_assign x (Some _) _ = Some _,
      Hout : NamedValues_assign x _ _ = Some (_, ?sf) |- scope ?sf _ = _ =>
        apply NamedValues_at_scope in Hat as [-> _];
        apply NamedValues_assign_scope in Hin as [_ Hshadow];
        apply NamedValues_assign_scope in Hout as [Hx Hrest]
    end.
    destruct (decide (k = x)) as [->|Hne].
    + rewrite Hx. by scope_rewrite.
    + rewrite Hrest by done. scope_rewrite. rewrite Hshadow by done.
      by scope_rewrite.
Qed.

(** Rebuilds the run of a stretch of code from the runs of its steps. *)
Ltac run_build :=
  repeat (erewrite bind_run; [|eassumption]);
  first [ reflexivity | eassumption ].

(** C8, for a loop that lowers.  The condition, the body and the step are
    lowered with the loop variable bound to the loop's PHI node, and once
    the loop is lowered every name of the scope answers what it answered
    before: the loop variable has its earlier binding back and no other
    entry has changed. *)
Theorem loop_variable_is_restored x Start Condition Step Body st old v st' :
  scope st x = Some old →
  codegen (ForExpr x Start Condition Step Body) st = Some (Some v, st') →
  shadowed_run x Start Condition Step Body st st' ∧
  scope st' x = Some old ∧
  ∀ k, scope st' k = scope st k.
Proof.
  intros Hold H.
  pose proof (codegen_scope _ _ _ _ H) as Hall.
  split; [|split; [by rewrite Hall|done]].
  cbn [codegen] in H. run_inv H. scope_facts.
  match goal with
  | Hin : NamedValues_assign x (Some (Inst ?var)) _ = Some (_, ?s2),
    Hs : codegen Start _ = Some _,
    Hc : codegen Condition ?s2 = Some _,
    Hb : codegen Body _ = Some _,
    Hp : codegen Step _ = Some _,
    Hout : NamedValues_assign x _ _ = Some (?u, _) |- _ =>
      destruct u;
      pose proof (proj1 (NamedValues_assign_scope _ _ _ _ _ Hin)) as Hshadow;
      pose proof (codegen_scope _ _ _ _ Hc);
      pose proof (codegen_scope _ _ _ _ Hb);
      pose proof (codegen_scope _ _ _ _ Hp);
      unfold shadowed_run; do 16 eexists;
      split; [exact Hs|];
      split; [unfold loop_header; run_build|];
      split; [exact Hshadow|];
      split; [exact Hc|];
      split; [unfold loop_branch; run_build|];
      split; [by scope_rewrite|];
      split; [exact Hb|];
      split; [by scope_rewrite|];
      split; [exact Hp|];
      unfold loop_close; run_build
  end.
Qed.

(** [for n = 1, n < 5, 1 do n end] in a function whose parameter is [n]. *)
Lemma loop_variable_witness :
  shadowed_run "n" (NumberExprAST 1)
    (BinaryExprAST (chr "<") Ex.var_n (NumberExprAST 5))
    (NumberExprAST 1) Ex.var_n
    Ex.in_f (Ex.end_state (codegen Ex.shadowing_loop Ex.in_f) Ex.in_f) ∧
  scope (Ex.end_state (codegen Ex.shadowing_loop Ex.in_f) Ex.in_f) "n"
    = Some (Argument 1 0) ∧
  ∀ k, scope (Ex.end_state (codegen Ex.shadowing_loop Ex.in_f) Ex.in_f) k
       = scope Ex.in_f k.
Proof.
  apply (loop_variable_is_restored "n" (NumberExprAST 1)
           (BinaryExprAST (chr "<") Ex.var_n (NumberExprAST 5))
           (NumberExprAST 1) Ex.var_n Ex.in_f (Argument 1 0)
           (ConstantFP 0)).
  - vm_compute. reflexivity.
  - vm_compute. reflexivity.
Defined.

(** C8 fails for a loop that does not lower: in [for n = 1, y, 1 do 1 end]
    the condition [y] is unbound, lowering returns at once, and [n] stays
    bound to the loop's PHI node instead of the parameter. *)
Lemma loop_variable_is_not_restored_on_failure :
  ∃ st' var,
    scope Ex.in_f "n" = Some (Argument 1 0) ∧
    codegen Ex.failing_loop Ex.in_f = Some (None, st') ∧
    scope st' "n" = Some (Inst var) ∧
    inst <$> Insts st' !! var = Some (PHI [(ConstantFP 1, 2%nat)] "loopval").
Proof.
  eexists _, _. split; [by vm_compute|].
  split; [vm_compute; reflexivity|].
  split; by vm_compute.
Qed.

End Scope.

(** ** What the parser leaves alone *)

Section ParserFrames.
Import Parser.
Context {X : Type} (f : PState → X).
Hypothesis f_gettok : ∀ st, f (snd (gettok st)) = f st.
Hypothesis f_cur_tok : ∀ t st, f (set_cur_tok t st) = f st.

Lemma get_next_token_same : preserves (same f) get_next_token.
Proof.
  intros st t st'. unfold get_next_token.
  destruct (gettok st) as [t0 st0] eqn:E. intros [= <- <-].
  hnf. rewrite f_cur_tok. by rewrite <- (f_gettok st), E.
Qed.

Lemma read_arg_names_same bound acc :
  preserves (same f) (read_arg_names bound acc).
Proof.
  revert acc. induction bound as [|l bound IH]; intros acc;
    cbn [read_arg_names]; frame; auto using get_next_token_same.
Qed.

Lemma parse_number_expr_same : preserves (same f) parse_number_expr.
Proof. unfold parse_number_expr. frame. apply get_next_token_same. Qed.

Hypothesis f_plog : ∀ msg st, f (plog msg st) = f st.

Lemma log_error_same {A} msg : preserves (same f) (@log_error A msg).
Proof. intros st r st'. unfold log_error. intros [= <- <-]. apply f_plog. Qed.

#[local] Hint Resolve get_next_token_same read_arg_names_same
  parse_number_expr_same log_error_same : frame.

Lemma parse_paren_expr_same pe :
  preserves (same f) pe → preserves (same f) (parse_paren_expr pe).
Proof. intros Hpe. unfold parse_paren_expr. frame. Qed.

Lemma parse_if_expr_same pe :
  preserves (same f) pe → preserves (same f) (parse_if_expr pe).
Proof. intros Hpe. unfold parse_if_expr. frame. Qed.

Lemma parse_for_expr_same pe :
  preserves (same f) pe → preserves (same f) (parse_for_expr pe).
Proof. intros Hpe. unfold parse_for_expr. frame. Qed.

#[local] Hint Resolve parse_paren_expr_same parse_if_expr_same
  parse_for_expr_same : frame.

Lemma parse_functions_same fuel :
  preserves (same f) (parse_primary fuel) ∧
  preserves (same f) (parse_identifier_expr fuel) ∧
  (∀ args, preserves (same f) (parse_call_args fuel args)) ∧
  (∀ expr_prec LHS, preserves (same f) (parse_binop_rhs fuel expr_prec LHS)) ∧
  preserves (same f) (parse_expression fuel).
Proof.
  induction fuel as [|fuel (IHp & IHi & IHa & IHb & IHe)].
  - repeat split; intros; apply preserves_stuck.
  - repeat split; intros;
      cbn [parse_primary parse_identifier_expr parse_call_args
           parse_binop_rhs parse_expression]; frame.
Qed.

Lemma parse_expression_same fuel : preserves (same f) (parse_expression fuel).
Proof. apply parse_functions_same. Qed.

Lemma parse_prototype_same : preserves (same f) parse_prototype.
Proof. unfold parse_prototype, parse_prototype_head. frame. Qed.

#[local] Hint Resolve parse_expression_same parse_prototype_same : frame.

Lemma parse_definition_same fuel : preserves (same f) (parse_definition fuel).
Proof. unfold parse_definition. frame. Qed.

Lemma parse_extern_same : preserves (same f) parse_extern.
Proof. unfold parse_extern. frame. Qed.

Lemma parse_top_level_expression_same fuel :
  preserves (same f) (parse_top_level_expression fuel).
Proof. unfold parse_top_level_expression. frame. Qed.

End ParserFrames.

(** ** The session never writes the precedence table *)

Section Table.
Import Parser Driver.

Lemma gettok_table st : BINOP_PRECEDENCE (snd (gettok st)) = BINOP_PRECEDENCE st.
Proof. unfold gettok. by destruct (input st) as [|[] ?]. Qed.

Lemma in_parser_table {A} (m : PM A) :
  preserves (same BINOP_PRECEDENCE) m → preserves (same table) (in_parser m).
Proof.
  intros Hm s a s'. unfold in_parser.
  destruct (m (parser s)) as [[a0 p]|] eqn:E; [|done].
  intros [= <- <-]. apply (Hm _ _ _ E).
Qed.

Lemma in_lowering_table {A} (m : LLVM.CM A) :
  preserves (same table) (in_lowering m).
Proof.
  intros s a s'. unfold in_lowering.
  destruct (m (lowering s)) as [[a0 c]|]; [|done]. by intros [= <- <-].
Qed.

#[local] Hint Resolve in_lowering_table : frame.
#[local] Hint Extern 1 (preserves (same table) (in_parser _)) =>
  apply in_parser_table;
  first [ apply get_next_token_same | apply parse_definition_same
        | apply parse_extern_same | apply parse_top_level_expression_same
        | apply preserves_gets; apply _ ];
  auto using gettok_table : frame.

Lemma handle_definition_table fuel :
  preserves (same table) (handle_definition fuel).
Proof. unfold handle_definition, addModule. frame. Qed.

Lemma handle_extern_table : preserves (same table) handle_extern.
Proof. unfold handle_extern. frame. Qed.

Lemma handle_top_level_expression_table fuel :
  preserves (same table) (handle_top_level_expression fuel).
Proof. unfold handle_top_level_expression. frame. Qed.

Lemma main_loop_table turns fuel : preserves (same table) (main_loop turns fuel).
Proof.
  induction turns as [|turns IH]; cbn [main_loop]; frame;
    auto using handle_definition_table, handle_extern_table,
      handle_top_level_expression_table.
Qed.

End Table.

(** ** More fuel changes no answer *)

Section Fuel.
Import Parser.
Context {S : Type}.

Lemma le_run_refl {A} (m : M S A) : le_run m m.
Proof. by intros s r. Qed.

Lemma le_run_stuck {A} (m : M S A) : le_run stuck m.
Proof. intros s r. discriminate. Qed.

Lemma le_run_bind {A B} (m m' : M S A) (k k' : A → M S B) :
  le_run m m' → (∀ a, le_run (k a) (k' a)) → le_run (bind m k) (bind m' k').
Proof.
  intros Hm Hk s r. unfold bind.
  destruct (m s) as [[a s1]|] eqn:E; [|discriminate].
  rewrite (Hm _ _ E). apply Hk.
Qed.

End Fuel.

Ltac mono_step :=
  lazymatch goal with
  | |- le_run (bind _ _) (bind _ _) => apply le_run_bind; [|intros ?]
  | |- le_run stuck _ => apply le_run_stuck
  | |- le_run (match ?x with _ => _ end) _ => destruct x
  | |- le_run (if ?b then _ else _) _ => destruct b
  end.

Ltac mono := repeat mono_step; auto using le_run_refl.

Section ParserFuel.
Import Parser.

Lemma parse_paren_expr_mono pe pe' :
  le_run pe pe' → le_run (parse_paren_expr pe) (parse_paren_expr pe').
Proof. intros H. unfold parse_paren_expr. mono. Qed.

Lemma parse_if_expr_mono pe pe' :
  le_run pe pe' → le_run (parse_if_expr pe) (parse_if_expr pe').
Proof. intros H. unfold parse_if_expr. mono. Qed.

Lemma parse_for_expr_mono pe pe' :
  le_run pe pe' → le_run (parse_for_expr pe) (parse_for_expr pe').
Proof. intros H. unfold parse_for_expr. mono. Qed.

Lemma parse_functions_mono n :
  ∀ m, (n ≤ m)%nat →
    le_run (parse_primary n) (parse_primary m) ∧
    le_run (parse_identifier_expr n) (parse_identifier_expr m) ∧
    (∀ args, le_run (parse_call_args n args) (parse_call_args m args)) ∧
    (∀ expr_prec LHS, le_run (parse_binop_rhs n expr_prec LHS)
                             (parse_binop_rhs m expr_prec LHS)) ∧
    le_run (parse_expression n) (parse_expression m).
Proof.
  induction n as [|n IH]; intros m Hle.
  - repeat split; intros; apply le_run_stuck.
  - destruct m as [|m]; [lia|].
    destruct (IH m ltac:(lia)) as (IHp & IHi & IHa & IHb & IHe).
    repeat split; intros;
      cbn [parse_primary parse_identifier_expr parse_call_args
           parse_binop_rhs parse_expression];
      mono;
      auto using parse_paren_expr_mono, parse_if_expr_mono,
        parse_for_expr_mono.
Qed.

(** What [parse_expression] answers with some fuel, it answers with any
    larger fuel. *)
Lemma parse_expression_mono n m st r :
  (n ≤ m)%nat →
  parse_expression n st = Some r → parse_expression m st = Some r.
Proof. intros Hle. by apply parse_functions_mono. Qed.

End ParserFuel.

(** * Claims about the parser *)

Section ParserClaims.
Import Parser Driver.

(** C7.  With the built-in table, [1+2*3] parses to [1+(2*3)] and [2*3+1]
    to [(2*3)+1], with the whole input read; the fuel 4 is enough for
    both, and more fuel changes nothing. *)
Theorem product_binds_tighter fuel :
  (4 ≤ fuel)%nat →
  (∃ st', parse_expression fuel (Ex.primed Ex.one_plus_product)
          = Some (Some (BinaryExprAST (chr "+") (Ex.num 1)
                          (BinaryExprAST (chr "*") (Ex.num 2) (Ex.num 3))), st')
          ∧ input st' = [] ∧ cur_tok st' = tok_eof) ∧
  (∃ st', parse_expression fuel (Ex.primed Ex.product_plus_one)
          = Some (Some (BinaryExprAST (chr "+")
                          (BinaryExprAST (chr "*") (Ex.num 2) (Ex.num 3))
                          (Ex.num 1)), st')
          ∧ input st' = [] ∧ cur_tok st' = tok_eof).
Proof.
  intros Hfuel.
  split; eexists;
    (split; [apply (parse_expression_mono 4 fuel _ _ Hfuel);
             vm_compute; reflexivity|done]).
Qed.

Lemma product_binds_tighter_witness :
  (∃ st', parse_expression 4 (Ex.primed Ex.one_plus_product)
          = Some (Some (BinaryExprAST (chr "+") (Ex.num 1)
                          (BinaryExprAST (chr "*") (Ex.num 2) (Ex.num 3))), st')
          ∧ input st' = [] ∧ cur_tok st' = tok_eof) ∧
  (∃ st', parse_expression 4 (Ex.primed Ex.product_plus_one)
          = Some (Some (BinaryExprAST (chr "+")
                          (BinaryExprAST (chr "*") (Ex.num 2) (Ex.num 3))
                          (Ex.num 1)), st')
          ∧ input st' = [] ∧ cur_tok st' = tok_eof).
Proof. apply (product_binds_tighter 4). lia. Defined.

(** C2, as the code has it.  Nothing in the session writes the precedence
    table: whatever [main_loop] and [handle_definition] read, the table is
    afterwards what it was.  So after [def binary| 5 (a b) a;], which
    records the precedence 5 in the prototype, [|] is still no operator and
    [1|0|1] parses to the literal 1, the parse ending at the first [|]. *)
Theorem precedence_table_is_never_extended :
  (∀ turns fuel s s',
     main_loop turns fuel s = Some (tt, s') → table s' = table s) ∧
  (∀ fuel s s',
     handle_definition fuel s = Some (tt, s') → table s' = table s) ∧
  (∀ fuel, (2 ≤ fuel)%nat →
     Precedence <$> FunctionProtos (lowering Ex.after_declaring) !! "binary|"
       = Some 5 ∧
     table Ex.after_declaring = initial_precedence ∧
     ∃ st', parse_expression fuel (parser Ex.after_declaring)
            = Some (Some (Ex.num 1), st') ∧
            cur_tok st' = chr "|" ∧
            input st' = [LxNumber 0; Lx (chr "|"); LxNumber 1]).
Proof.
  split; [|split].
  - intros turns fuel s s' H. apply (main_loop_table _ _ _ _ _ H).
  - intros fuel s s' H. apply (handle_definition_table _ _ _ _ H).
  - intros fuel Hfuel.
    split; [by vm_compute|]. split; [by vm_compute|].
    eexists.
    split; [apply (parse_expression_mono 2 fuel _ _ Hfuel);
            vm_compute; reflexivity|done].
Qed.

Lemma precedence_table_witness :
  table (Ex.session_after (Ex.def_binary_or ++ Ex.one_or_zero_or_one))
    = table (Ex.end_state
               (in_parser get_next_token
                  (mkSession (pstate0 (Ex.def_binary_or ++ Ex.one_or_zero_or_one))
                             cstate0 []))
               (mkSession (pstate0 []) cstate0 [])) ∧
  (Precedence <$> FunctionProtos (lowering Ex.after_declaring) !! "binary|"
     = Some 5 ∧
   table Ex.after_declaring = initial_precedence ∧
   ∃ st', parse_expression 2 (parser Ex.after_declaring)
          = Some (Some (Ex.num 1), st') ∧
          cur_tok st' = chr "|" ∧
          input st' = [LxNumber 0; Lx (chr "|"); LxNumber 1]).
Proof.
  split.
  - apply (proj1 precedence_table_is_never_extended 50%nat 50%nat).
    vm_compute. reflexivity.
  - apply (proj2 (proj2 precedence_table_is_never_extended) 2%nat). lia.
Defined.

(** C2 fails: [def binary| 5 (a b) a;] is parsed and lowered, its
    prototype carries the precedence 5, and the table has no entry for [|];
    [1|0|1] does not parse to [(1|0)|1]. *)
Lemma declared_operator_is_not_in_the_table :
  Precedence <$> FunctionProtos (lowering Ex.after_declaring) !! "binary|"
    = Some 5 ∧
  table Ex.after_declaring !! chr "|" = None ∧
  fst <$> parse_expression 50 (parser Ex.after_declaring)
    = Some (Some (Ex.num 1)) ∧
  fst <$> parse_expression 50 (parser Ex.after_declaring)
    ≠ Some (Some (BinaryExprAST (chr "|")
                    (BinaryExprAST (chr "|") (Ex.num 1) (Ex.num 0))
                    (Ex.num 1))).
Proof.
  split; [by vm_compute|]. split; [by vm_compute|].
  split; [by vm_compute|]. by vm_compute.
Qed.

End ParserClaims.

(** * Claims about prototypes *)

Section PrototypeClaims.
Import Parser.

Lemma gettok_perrs st : perrs (snd (gettok st)) = perrs st.
Proof. unfold gettok. by destruct (input st) as [|[] ?]. Qed.

Lemma gettok_input_length st :
  length (input (snd (gettok st))) = pred (length (input st)).
Proof.
  unfold gettok. destruct (input st) as [|[] ?] eqn:E; cbn; by rewrite ?E.
Qed.

Lemma get_next_token_run st :
  get_next_token st
    = Some (fst (gettok st), set_cur_tok (fst (gettok st)) (snd (gettok st))).
Proof. unfold get_next_token. by destruct (gettok st). Qed.

(** The loop over the parameter names never runs out of its bound. *)
Lemma read_arg_names_total bound acc st :
  (length (input st) ≤ length bound)%nat →
  is_Some (read_arg_names bound acc st).
Proof.
  revert acc st. induction bound as [|l bound IH]; intros acc st Hlen;
    cbn [read_arg_names]; rewrite (bind_run _ _ _ _ _ (get_next_token_run st)).
  - destruct (input st) eqn:E; [|cbn in Hlen; lia].
    unfold gettok. rewrite E. cbn. eauto.
  - destruct (fst (gettok st) =? tok_identifier) eqn:Et; [|cbn; eauto].
    unfold bind at 1, gets. apply IH. cbn.
    rewrite gettok_input_length. cbn in Hlen. lia.
Qed.

Lemma parse_prototype_head_total st : is_Some (parse_prototype_head st).
Proof.
  unfold parse_prototype_head, bind, gets, log_error, ret.
  destruct (cur_tok st =? tok_identifier).
  { rewrite get_next_token_run. eauto. }
  destruct (cur_tok st =? tok_binary); [|eauto].
  rewrite get_next_token_run. cbn.
  destruct (fst (gettok st) =? tok_number); [|eauto].
  destruct (_ || _); [eauto|].
  rewrite get_next_token_run. eauto.
Qed.

Lemma parse_prototype_total st : is_Some (parse_prototype st).
Proof.
  unfold parse_prototype.
  destruct (parse_prototype_head_total st) as [[head st1] Eh].
  rewrite (bind_run _ _ _ _ _ Eh).
  destruct head as [[[fn_name kind] precedence]|]; [|cbn; eauto].
  unfold bind at 1, gets.
  destruct (negb _); [cbn; eauto|].
  unfold bind at 1, gets.
  destruct (read_arg_names_total (input st1) [] st1 (le_n _)) as [[names st2] E].
  rewrite (bind_run _ _ _ _ _ E).
  unfold bind at 1, gets.
  destruct (negb _); [cbn; eauto|].
  rewrite (bind_run _ _ _ _ _ (get_next_token_run _)).
  destruct (_ && _); cbn; eauto.
Qed.

Lemma read_arg_names_perrs bound acc :
  preserves (same perrs) (read_arg_names bound acc).
Proof. apply read_arg_names_same; [apply gettok_perrs|done]. Qed.

Lemma get_next_token_perrs : preserves (same perrs) get_next_token.
Proof. apply get_next_token_same; [apply gettok_perrs|done]. Qed.

(** Collects what the token reads of a run leave of the diagnostics. *)
Ltac perrs_facts :=
  repeat match goal with
  | H : get_next_token _ = Some _ |- _ => apply get_next_token_perrs in H
  | H : read_arg_names _ _ _ = Some _ |- _ => apply read_arg_names_perrs in H
  end; unfold same in *.

Ltac inj_all :=
  repeat match goal with
  | E : Some _ = Some _ |- _ => injection E as E; subst
  | E : (_, _) = (_, _) |- _ => injection E as E; subst
  | E : Some _ = None |- _ => discriminate E
  | E : None = Some _ |- _ => discriminate E
  end.

Lemma parse_prototype_head_perrs st r st' :
  parse_prototype_head st = Some (r, st') →
  match r with
  | Some _ => perrs st' = perrs st
  | None => ∃ msg, perrs st' = perrs st ++ [msg]
  end.
Proof.
  intros H. unfold parse_prototype_head, log_error in H.
  run_inv H; inj_all; perrs_facts; cbn in *; eauto; try congruence.
  eexists. f_equal. congruence.
Qed.

Lemma parse_prototype_head_binary st fn_name kind precedence st' :
  cur_tok st = tok_binary →
  parse_prototype_head st = Some (Some (fn_name, kind, precedence), st') →
  fn_name = "binary" +:+ operator_name st ∧ kind = 2.
Proof.
  intros Hbin H. unfold parse_prototype_head, log_error in H.
  unfold bind at 1, gets in H. rewrite Hbin in H. cbn [Z.eqb] in H.
  run_inv H; by inj_all.
Qed.

(** [parse_prototype] answers [nullptr] only with a diagnostic. *)
Lemma parse_prototype_null_logs st st' :
  parse_prototype st = Some (None, st') → ∃ msg, perrs st' = perrs st ++ [msg].
Proof.
  intros H. unfold parse_prototype, log_error in H.
  run_inv H; inj_all;
    match goal with
    | Hh : parse_prototype_head _ = Some _ |- _ =>
        apply parse_prototype_head_perrs in Hh
    end; perrs_facts; cbn in *; eauto;
    eexists; f_equal; congruence.
Qed.

(** C5, as the code has it.  A prototype starts with an identifier or with
    [binary]; any other token, [unary] among them, is answered by the
    diagnostic "Expected function name in prototype".  A [binary] prototype
    is named after the keyword and the operator and has exactly two
    parameters; where [parse_prototype] answers [nullptr] it has logged a
    diagnostic. *)
Theorem unary_is_no_prototype :
  (∀ st, cur_tok st ≠ tok_identifier → cur_tok st ≠ tok_binary →
     parse_prototype st
       = Some (None, plog "Expected function name in prototype" st)) ∧
  (∀ st p st',
     cur_tok st = tok_binary → parse_prototype st = Some (Some p, st') →
     Name p = "binary" +:+ operator_name st ∧ IsOperator p = true ∧
     length (Args p) = 2%nat) ∧
  (∀ st st',
     cur_tok st = tok_binary → parse_prototype st = Some (None, st') →
     ∃ msg, perrs st' = perrs st ++ [msg]).
Proof.
  split; [|split].
  - intros st Hid Hbin. unfold parse_prototype, parse_prototype_head.
    unfold bind at 1 2, gets.
    by rewrite !(proj2 (Z.eqb_neq _ _)).
  - intros st p st' Hbin H. unfold parse_prototype, log_error in H.
    run_inv H; inj_all.
    match goal with
    | Hh : parse_prototype_head _ = Some _ |- _ =>
        apply (parse_prototype_head_binary _ _ _ _ _ Hbin) in Hh as [-> ->]
    end.
    cbn [Name IsOperator Args]. split; [done|split; [done|]].
    match goal with
    | E : andb _ _ = false |- _ =>
        cbn in E; apply negb_false_iff, Z.eqb_eq in E; lia
    end.
  - intros st st' _. apply parse_prototype_null_logs.
Qed.

Lemma unary_is_no_prototype_witness :
  parse_prototype (Ex.primed Ex.unary_not)
    = Some (None, plog "Expected function name in prototype"
                       (Ex.primed Ex.unary_not)) ∧
  (Name Ex.binary_or_parsed = "binary" +:+ operator_name (Ex.primed Ex.binary_or_proto) ∧
   IsOperator Ex.binary_or_parsed = true ∧
   length (Args Ex.binary_or_parsed) = 2%nat) ∧
  ∃ msg, perrs (Ex.end_state (parse_prototype (Ex.primed Ex.binary_one_param))
                             (Ex.primed []))
         = perrs (Ex.primed Ex.binary_one_param) ++ [msg].
Proof.
  split; [|split].
  - apply (proj1 unary_is_no_prototype (Ex.primed Ex.unary_not)); by vm_compute.
  - apply (proj1 (proj2 unary_is_no_prototype) (Ex.primed Ex.binary_or_proto)
             Ex.binary_or_parsed
             (Ex.end_state (parse_prototype (Ex.primed Ex.binary_or_proto))
                           (Ex.primed []))).
    + by vm_compute.
    + vm_compute. reflexivity.
  - apply (proj2 (proj2 unary_is_no_prototype) (Ex.primed Ex.binary_one_param)).
    + by vm_compute.
    + vm_compute. reflexivity.
Defined.

(** C5 fails: [unary! (a)] is answered by [nullptr] and the diagnostic. *)
Lemma unary_prototype_is_rejected :
  ∃ st', parse_prototype (Ex.primed Ex.unary_not) = Some (None, st') ∧
         perrs st' = ["Expected function name in prototype"].
Proof. eexists. split; [vm_compute; reflexivity|done]. Qed.

Lemma get_next_token_Lx st t rest :
  input st = Lx t :: rest →
  get_next_token st
    = Some (t, mkPState t rest (identifier_str st) (num_val st)
                        (operator_name st) (BINOP_PRECEDENCE st) (perrs st)).
Proof. intros H. unfold get_next_token, gettok. by rewrite H. Qed.

Lemma get_next_token_LxIdent st s rest :
  input st = LxIdent s :: rest →
  get_next_token st
    = Some (tok_identifier,
            mkPState tok_identifier rest s (num_val st) (operator_name st)
                     (BINOP_PRECEDENCE st) (perrs st)).
Proof. intros H. unfold get_next_token, gettok. by rewrite H. Qed.

(** The loop over the parameter names reads the identifiers up to the
    closing parenthesis, whatever they are. *)
Lemma read_arg_names_idents names :
  ∀ bound acc st rest,
    input st = map LxIdent names ++ Lx (chr ")") :: rest →
    (length names ≤ length bound)%nat →
    ∃ st', read_arg_names bound acc st = Some (acc ++ names, st') ∧
           cur_tok st' = chr ")" ∧ input st' = rest.
Proof.
  induction names as [|n names IH]; intros bound acc st rest Hin Hlen.
  - destruct bound; cbn [read_arg_names];
      rewrite (bind_run _ _ _ _ _ (get_next_token_Lx st _ _ Hin));
      cbn; rewrite app_nil_r; eauto.
  - destruct bound as [|l bound]; [cbn in Hlen; lia|].
    cbn [read_arg_names].
    rewrite (bind_run _ _ _ _ _ (get_next_token_LxIdent st _ _ Hin)).
    cbn [Z.eqb Pos.eqb]. unfold bind at 1, gets. cbn [identifier_str].
    match goal with
    | |- context [read_arg_names bound _ ?s] =>
        destruct (IH bound (acc ++ [n]) s rest) as (st' & -> & Htok & Hrest);
        [reflexivity|cbn in Hlen; lia|]
    end.
    rewrite <- app_assoc. eauto.
Qed.

(** C9, as the code has it.  After a function name, a parenthesised list of
    identifiers is a prototype with these names as its parameters, in their
    order, whether or not a name is repeated. *)
Theorem parameter_names_are_taken_as_written fn names rest st :
  cur_tok st = tok_identifier →
  identifier_str st = fn →
  input st = Lx (chr "(") :: map LxIdent names ++ Lx (chr ")") :: rest →
  ∃ st', parse_prototype st
         = Some (Some (mkPrototypeAST fn names false 30), st').
Proof.
  intros Htok Hid Hin.
  assert (parse_prototype_head st
          = Some (Some (fn, 0, 30),
                  mkPState (chr "(") (map LxIdent names ++ Lx (chr ")") :: rest)
                    (identifier_str st) (num_val st) (operator_name st)
                    (BINOP_PRECEDENCE st) (perrs st))) as Hhead.
  { unfold parse_prototype_head, bind at 1, gets. rewrite Htok.
    cbn [Z.eqb Pos.eqb]. unfold bind at 1, gets.
    rewrite (bind_run _ _ _ _ _ (get_next_token_Lx st _ _ Hin)).
    by rewrite Hid. }
  unfold parse_prototype. rewrite (bind_run _ _ _ _ _ Hhead).
  unfold bind at 1, gets. cbn [cur_tok]. rewrite Z.eqb_refl. cbn [negb].
  unfold bind at 1, gets. cbn [input].
  match goal with
  | |- context [read_arg_names ?b ?a] =>
      unfold bind at 1;
      match goal with
      | |- context [read_arg_names b a ?s] =>
          destruct (read_arg_names_idents names b a s rest)
            as (st' & Hread & Hrp & Hrest);
          [reflexivity|rewrite length_app, length_map; lia|]
      end
  end.
  rewrite Hread.
  unfold bind at 1, gets. rewrite Hrp, Z.eqb_refl. cbn [negb].
  rewrite (bind_run _ _ _ _ _ (get_next_token_run st')).
  cbn. eauto.
Qed.

Lemma parameter_names_witness :
  ∃ st', parse_prototype (Ex.primed Ex.foo_a_a)
         = Some (Some (mkPrototypeAST "foo" ["a"; "a"] false 30), st').
Proof.
  apply (parameter_names_are_taken_as_written "foo" ["a"; "a"] []
           (Ex.primed Ex.foo_a_a)); reflexivity.
Defined.

(** C9 fails: [foo(a a)] is a prototype, and its parameter names are not
    distinct. *)
Lemma repeated_parameter_is_accepted :
  ∃ p st', parse_prototype (Ex.primed Ex.foo_a_a) = Some (Some p, st') ∧
           Args p = ["a"; "a"] ∧ ¬ NoDup (Args p).
Proof.
  eexists _, _. split; [vm_compute; reflexivity|]. split; [done|].
  cbn. intros Hnd. apply NoDup_cons_1_1 in Hnd. apply Hnd. by left.
Qed.

End PrototypeClaims.

(** * Claims about the session *)

Section SessionClaims.
Import Driver.

(** C3 on the code.  [def foo(a) a;] twice: the second definition is parsed
    and lowered like the first, nothing is logged, and the JIT is handed
    two compilation units that both define [foo]. *)
Theorem second_definition_is_lowered :
  ∃ s, main 50 50 (Ex.def_foo ++ Ex.def_foo) = Some (tt, s) ∧
       perrs (parser s) = [] ∧ cerrs (lowering s) = [] ∧
       Ex.defined (TheJIT s) = [["foo"]; ["foo"]].
Proof. eexists. split; [vm_compute; reflexivity|]. by vm_compute. Qed.

(** [extern foo(a);] and then [def foo(a) a;]: the definition is lowered
    into the declaration, one unit goes to the JIT. *)
Lemma definition_after_declaration :
  ∃ s, main 50 50 (Ex.extern_foo ++ Ex.def_foo) = Some (tt, s) ∧
       perrs (parser s) = [] ∧ cerrs (lowering s) = [] ∧
       Ex.defined (TheJIT s) = [["foo"]].
Proof. eexists. split; [vm_compute; reflexivity|]. by vm_compute. Qed.

End SessionClaims.

(** * Further properties of the lowering pass *)

#[local] Instance cerrs_grow_refl : Reflexive cerrs_grow.
Proof. intros st. unfold cerrs_grow. done. Qed.

#[local] Instance cerrs_grow_trans : Transitive cerrs_grow.
Proof. intros s1 s2 s3. unfold cerrs_grow. apply transitivity. Qed.

Section Diagnostics.
Import LLVM CodeGen.

Lemma same_cerrs_grow {A} (m : CM A) :
  preserves (same cerrs) m → preserves cerrs_grow m.
Proof. intros H st a st' Hrun. unfold cerrs_grow. by rewrite (H _ _ _ Hrun). Qed.

#[local] Hint Extern 2 (preserves cerrs_grow _) =>
  apply same_cerrs_grow; solve [eauto with frame] : frame.

Lemma log_error_v_grow {A} msg : preserves cerrs_grow (@log_error_v A msg).
Proof.
  intros st r st' H. unfold log_error_v in H. run_inv H.
  unfold cerrs_grow. cbn. by apply prefix_app_r.
Qed.

Lemma NamedValues_at_cerrs k : preserves (same cerrs) (NamedValues_at k).
Proof. unfold NamedValues_at. frame. Qed.

Lemma NamedValues_assign_cerrs k v :
  preserves (same cerrs) (NamedValues_assign k v).
Proof. unfold NamedValues_assign. frame. Qed.

#[local] Hint Resolve log_error_v_grow NamedValues_at_cerrs
  NamedValues_assign_cerrs : frame.

Lemma binary_switch_grow Op L R : preserves cerrs_grow (binary_switch Op L R).
Proof. unfold binary_switch. frame. Qed.

Lemma codegen_args_grow cg Args ArgsV :
  Forall (λ e, preserves cerrs_grow (cg e)) Args →
  preserves cerrs_grow (codegen_args cg Args ArgsV).
Proof.
  intros HF. revert ArgsV.
  induction HF as [|e Args He _ IH]; intros ArgsV; cbn [codegen_args]; frame.
Qed.

Lemma codegen_grow e : preserves cerrs_grow (codegen e).
Proof.
  induction e using ExprAST_nested_ind; cbn [codegen];
    frame; eauto using binary_switch_grow, codegen_args_grow.
Qed.

(** Collects how the diagnostics grow along the runs among the
    hypotheses. *)
Ltac grow_facts :=
  repeat match goal with
  | H : ?m ?s = Some (?a, ?s') |- _ =>
      lazymatch goal with
      | _ : (length (cerrs s) ≤ length (cerrs s'))%nat |- _ => fail
      | _ => idtac
      end;
      assert (length (cerrs s) ≤ length (cerrs s'))%nat
        by (apply prefix_length;
            assert (preserves cerrs_grow m) as Hgrow
              by solve [eauto using codegen_grow, binary_switch_grow with frame];
            exact (Hgrow _ _ _ H))
  end.

Lemma codegen_args_null_logs Args :
  Forall (λ e, ∀ st st', codegen e st = Some (None, st') →
                         (length (cerrs st) < length (cerrs st'))%nat) Args →
  ∀ acc st st', codegen_args codegen Args acc st = Some (None, st') →
                (length (cerrs st) < length (cerrs st'))%nat.
Proof.
  induction 1 as [|e Args He _ IH]; intros acc st st' H;
    cbn [codegen_args] in H; run_inv H;
    repeat match goal with
    | Ha : codegen_args _ _ _ _ = Some (None, _) |- _ => apply IH in Ha
    | Ha : codegen e _ = Some (None, _) |- _ => apply He in Ha
    end;
    grow_facts; lia.
Qed.

Lemma codegen_null_logs e st st' :
  codegen e st = Some (None, st') →
  (length (cerrs st) < length (cerrs st'))%nat.
Proof.
  revert st st'.
  induction e as [| |op l r IHl IHr|c args IHargs|c t e IHc IHt IHe
                  |x s c stp b IHs IHc IHstp IHb] using ExprAST_nested_ind;
    intros s0 s1 H; cbn [codegen] in H;
    unfold binary_switch, log_error_v, Create in H; run_inv H;
    repeat match goal with
    | Hn : codegen ?e _ = Some (None, _),
      IH : ∀ st st', codegen ?e st = Some (None, st') → _ |- _ =>
        apply IH in Hn
    | Hn : codegen_args codegen _ _ _ = Some (None, _) |- _ =>
        apply (codegen_args_null_logs _ IHargs) in Hn
    end;
    grow_facts; cbn [cerrs clog]; rewrite ?length_app; cbn [length]; try lia.
Qed.

(** Every lowering of an expression keeps the diagnostics logged before
    it, and one that answers [nullptr] has logged at least one more. *)
Theorem lowering_failure_is_diagnosed e st r st' :
  codegen e st = Some (r, st') →
  cerrs st `prefix_of` cerrs st' ∧
  (r = None → (length (cerrs st) < length (cerrs st'))%nat).
Proof.
  intros H. split.
  - exact (codegen_grow e _ _ _ H).
  - intros ->. exact (codegen_null_logs _ _ _ H).
Qed.

Lemma lowering_failure_witness :
  cerrs Ex.in_f
    `prefix_of` cerrs (Ex.end_state (codegen Ex.var_x Ex.in_f) Ex.in_f) ∧
  (@None Value = None →
   (length (cerrs Ex.in_f)
    < length (cerrs (Ex.end_state (codegen Ex.var_x Ex.in_f) Ex.in_f)))%nat).
Proof.
  apply (lowering_failure_is_diagnosed Ex.var_x Ex.in_f None).
  vm_compute. reflexivity.
Defined.

(** A definition whose lowering answers [nullptr] has logged a
    diagnostic. *)
Theorem failed_definition_is_diagnosed fn st st' :
  FunctionAST_codegen fn st = Some (None, st') →
  (length (cerrs st) < length (cerrs st'))%nat.
Proof.
  intros H. unfold FunctionAST_codegen in H. run_inv H.
  - match goal with
    | Hb : codegen _ _ = Some (None, _) |- _ =>
        pose proof (codegen_null_logs _ _ _ Hb)
    end.
    grow_facts. cbn [cerrs set_FunctionProtos set_NamedValues] in *. lia.
  - match goal with
    | Hg : get_function _ _ = Some (None, _) |- _ =>
        eapply get_function_registered in Hg as [? [=]];
        cbn; apply lookup_insert_eq
    end.
Qed.

Lemma failed_definition_is_diagnosed_witness :
  (length (cerrs Driver.cstate0) < length (cerrs Ex.def_f_unbound_end))%nat.
Proof.
  apply (failed_definition_is_diagnosed Ex.def_f_unbound).
  vm_compute. reflexivity.
Defined.

End Diagnostics.

(** * Further properties of the parser *)

#[local] Instance perrs_grow_refl : Reflexive perrs_grow.
Proof. intros st. unfold perrs_grow. done. Qed.

#[local] Instance perrs_grow_trans : Transitive perrs_grow.
Proof. intros s1 s2 s3. unfold perrs_grow. apply transitivity. Qed.

Section ParserInvariants.
Import Parser.
Context (R : relation PState) `{!Reflexive R, !Transitive R}.
Hypothesis R_next : preserves R get_next_token.
Hypothesis R_log : ∀ A msg, preserves R (@log_error A msg).

#[local] Hint Resolve R_next R_log : frame.

Lemma parse_number_expr_inv : preserves R parse_number_expr.
Proof. unfold parse_number_expr. frame. Qed.

Lemma parse_paren_expr_inv pe :
  preserves R pe → preserves R (parse_paren_expr pe).
Proof. intros Hpe. unfold parse_paren_expr. frame. Qed.

Lemma parse_if_expr_inv pe :
  preserves R pe → preserves R (parse_if_expr pe).
Proof. intros Hpe. unfold parse_if_expr. frame. Qed.

Lemma parse_for_expr_inv pe :
  preserves R pe → preserves R (parse_for_expr pe).
Proof. intros Hpe. unfold parse_for_expr. frame. Qed.

#[local] Hint Resolve parse_number_expr_inv parse_paren_expr_inv
  parse_if_expr_inv parse_for_expr_inv : frame.

Lemma parse_functions_inv fuel :
  preserves R (parse_primary fuel) ∧
  preserves R (parse_identifier_expr fuel) ∧
  (∀ args, preserves R (parse_call_args fuel args)) ∧
  (∀ expr_prec LHS, preserves R (parse_binop_rhs fuel expr_prec LHS)) ∧
  preserves R (parse_expression fuel).
Proof.
  induction fuel as [|fuel (IHp & IHi & IHa & IHb & IHe)].
  - repeat split; intros; apply preserves_stuck.
  - repeat split; intros;
      cbn [parse_primary parse_identifier_expr parse_call_args
           parse_binop_rhs parse_expression]; frame.
Qed.

Lemma read_arg_names_inv bound acc : preserves R (read_arg_names bound acc).
Proof.
  revert acc. induction bound as [|l bound IH]; intros acc;
    cbn [read_arg_names]; frame.
Qed.

Lemma parse_prototype_inv : preserves R parse_prototype.
Proof.
  unfold parse_prototype, parse_prototype_head. frame.
  apply read_arg_names_inv.
Qed.

End ParserInvariants.

Section ParserDiagnostics.
Import Parser.

Lemma get_next_token_grow : preserves perrs_grow get_next_token.
Proof.
  intros st t st' H. unfold perrs_grow.
  rewrite (get_next_token_same perrs gettok_perrs ltac:(done) _ _ _ H). done.
Qed.

Lemma log_error_grow A msg : preserves perrs_grow (@log_error A msg).
Proof.
  intros st r st'. unfold log_error. intros [= <- <-].
  unfold perrs_grow. cbn. by apply prefix_app_r.
Qed.

Lemma parse_grow fuel :
  preserves perrs_grow (parse_primary fuel) ∧
  preserves perrs_grow (parse_identifier_expr fuel) ∧
  (∀ args, preserves perrs_grow (parse_call_args fuel args)) ∧
  (∀ expr_prec LHS,
     preserves perrs_grow (parse_binop_rhs fuel expr_prec LHS)) ∧
  preserves perrs_grow (parse_expression fuel).
Proof.
  apply parse_functions_inv; try apply _;
    auto using get_next_token_grow, log_error_grow.
Qed.

(** Collects how the diagnostics grow along the runs among the
    hypotheses. *)
Ltac perrs_grow_facts :=
  repeat match goal with
  | H : ?m ?s = Some (None, ?s'), Hn : null_logs ?m |- _ => apply Hn in H
  | H : ?m ?s = Some (None, ?s'), Hn : ∀ x, null_logs (?f x) |- _ =>
      apply Hn in H
  | H : ?m ?s = Some (None, ?s'), Hn : ∀ x y, null_logs (?f x y) |- _ =>
      apply Hn in H
  | H : ?m ?s = Some (?a, ?s') |- _ =>
      lazymatch goal with
      | _ : (length (perrs s) ≤ length (perrs s'))%nat |- _ => fail
      | _ => idtac
      end;
      assert (length (perrs s) ≤ length (perrs s'))%nat
        by (apply prefix_length;
            assert (preserves perrs_grow m) as Hgrow
              by solve [eauto using get_next_token_grow];
            exact (Hgrow _ _ _ H))
  end.

Ltac inj_runs :=
  repeat match goal with
  | E : Some (_, _) = Some (_, _) |- _ => injection E; intros; subst; clear E
  end.

Ltac null_logs_tac H :=
  unfold log_error in H; run_inv H;
  repeat match goal with
  | Hx : (if _ then _ else _) _ = Some _ |- _ => run_inv Hx
  end;
  inj_runs; try discriminate;
  perrs_grow_facts;
  cbn [perrs plog]; rewrite ?length_app; cbn [length]; lia.

Lemma parse_paren_expr_null pe :
  preserves perrs_grow pe → null_logs pe → null_logs (parse_paren_expr pe).
Proof. intros Hg Hn st st' H. unfold parse_paren_expr in H. null_logs_tac H. Qed.

Lemma parse_if_expr_null pe :
  preserves perrs_grow pe → null_logs pe → null_logs (parse_if_expr pe).
Proof. intros Hg Hn st st' H. unfold parse_if_expr in H. null_logs_tac H. Qed.

Lemma parse_for_expr_null pe :
  preserves perrs_grow pe → null_logs pe → null_logs (parse_for_expr pe).
Proof. intros Hg Hn st st' H. unfold parse_for_expr in H. null_logs_tac H. Qed.

Lemma parse_null_logs fuel :
  null_logs (parse_primary fuel) ∧
  null_logs (parse_identifier_expr fuel) ∧
  (∀ args, null_logs (parse_call_args fuel args)) ∧
  (∀ expr_prec LHS, null_logs (parse_binop_rhs fuel expr_prec LHS)) ∧
  null_logs (parse_expression fuel).
Proof.
  induction fuel as [|fuel (IHp & IHi & IHa & IHb & IHe)].
  - repeat split; intros; intros st st' H; discriminate.
  - destruct (parse_grow fuel) as (Gp & Gi & Ga & Gb & Ge).
    repeat split; intros; intros st st' H;
      cbn [parse_primary parse_identifier_expr parse_call_args
           parse_binop_rhs parse_expression] in H.
    + unfold parse_number_expr in H. 
      unfold log_error in H; run_inv H;
      repeat match goal with
      | Hx : parse_paren_expr _ _ = Some (None, _) |- _ =>
          apply (parse_paren_expr_null _ Ge IHe) in Hx
      | Hx : parse_if_expr _ _ = Some (None, _) |- _ =>
          apply (parse_if_expr_null _ Ge IHe) in Hx
      | Hx : parse_for_expr _ _ = Some (None, _) |- _ =>
          apply (parse_for_expr_null _ Ge IHe) in Hx
      end; inj_runs; try discriminate; perrs_grow_facts;
      cbn [perrs plog]; rewrite ?length_app; cbn [length]; lia.
    + null_logs_tac H.
    + null_logs_tac H.
    + null_logs_tac H.
    + null_logs_tac H.
Qed.

Lemma parse_prototype_grow : preserves perrs_grow parse_prototype.
Proof.
  apply parse_prototype_inv; try apply _;
    auto using get_next_token_grow, log_error_grow.
Qed.

(** Every parse of an expression keeps the diagnostics logged before it,
    and one that answers [nullptr] has logged at least one more. *)
Theorem syntax_error_is_diagnosed fuel st r st' :
  parse_expression fuel st = Some (r, st') →
  perrs st `prefix_of` perrs st' ∧
  (r = None → (length (perrs st) < length (perrs st'))%nat).
Proof.
  intros H. split.
  - by apply (proj2 (proj2 (proj2 (proj2 (parse_grow fuel)))) _ _ _ H).
  - intros ->. by apply (proj2 (proj2 (proj2 (proj2 (parse_null_logs fuel))))).
Qed.

Lemma syntax_error_witness :
  perrs (Ex.primed [Ex.rparen])
    `prefix_of` perrs (Ex.end_state (parse_expression 3 (Ex.primed [Ex.rparen]))
                                    (Ex.primed [])) ∧
  (@None ExprAST = None →
   (length (perrs (Ex.primed [Ex.rparen]))
    < length (perrs (Ex.end_state (parse_expression 3 (Ex.primed [Ex.rparen]))
                                  (Ex.primed []))))%nat).
Proof.
  apply (syntax_error_is_diagnosed 3 (Ex.primed [Ex.rparen]) None).
  vm_compute. reflexivity.
Defined.

(** The three top-level parses answer [nullptr] only after a diagnostic. *)
Theorem top_level_syntax_error_is_diagnosed fuel st st' :
  parse_definition fuel st = Some (None, st') ∨
  parse_extern st = Some (None, st') ∨
  parse_top_level_expression fuel st = Some (None, st') →
  (length (perrs st) < length (perrs st'))%nat.
Proof.
  destruct (parse_grow fuel) as (_ & _ & _ & _ & Ge).
  destruct (parse_null_logs fuel) as (_ & _ & _ & _ & Ne).
  pose proof parse_prototype_grow as Gp.
  assert (null_logs parse_prototype) as Np.
  { intros s s' H. apply parse_prototype_null_logs in H as [msg ->].
    rewrite length_app. cbn. lia. }
  intros [H|[H|H]].
  - unfold parse_definition in H. null_logs_tac H.
  - unfold parse_extern in H. null_logs_tac H.
  - unfold parse_top_level_expression in H. null_logs_tac H.
Qed.

(** [def 1]: a definition without a name. *)
Lemma top_level_syntax_error_witness :
  (length (perrs (Ex.primed [Lx tok_def; LxNumber 1]))
   < length (perrs (Ex.end_state
                      (parse_definition 3 (Ex.primed [Lx tok_def; LxNumber 1]))
                      (Ex.primed []))))%nat.
Proof.
  apply (top_level_syntax_error_is_diagnosed 3).
  left. vm_compute. reflexivity.
Defined.

End ParserDiagnostics.

(** ** Resolving a function by name *)

Section Resolution.
Import LLVM CodeGen.

Lemma find_app_None {A} (P : A → bool) l1 l2 :
  List.find P l1 = None → List.find P (l1 ++ l2) = List.find P l2.
Proof. induction l1 as [|x l1 IH]; cbn; [done|]. by destruct (P x). Qed.

Lemma unique_name_free taken sep name :
  name ∉ taken → unique_name taken sep name = name.
Proof. intros H. unfold unique_name. by rewrite bool_decide_eq_false_2. Qed.

Lemma getFunction_None_names m name :
  getFunction m name = None → name ∉ map fn_name m.
Proof.
  unfold getFunction. induction m as [|f m IH]; cbn; [intros _; apply not_elem_of_nil|].
  destruct (bool_decide_reflect (fn_name f = name)) as [Heq|Hne]; [done|].
  intros H. apply not_elem_of_cons. split; [done|]. by apply IH.
Qed.

(** Where the registry files a prototype under its own name,
    [get_function] answers a function of the module that bears the name
    asked for; asked again, it answers the same function and changes
    nothing. *)
Theorem get_function_settles name st F st1 :
  (∀ p, FunctionProtos st !! name = Some p → Name p = name) →
  get_function name st = Some (Some F, st1) →
  (∃ f, getFunction (TheModule st1) name = Some f ∧ fn_id f = F) ∧
  get_function name st1 = Some (Some F, st1).
Proof.
  intros Hkey H.
  assert (∃ f, getFunction (TheModule st1) name = Some f ∧ fn_id f = F)
    as Hf.
  { unfold get_function in H. run_inv H.
    - match goal with
      | E : Some _ = Some _ |- _ => injection E as ->
      end. eauto.
    - match goal with
      | E : Some _ = Some _ |- _ => injection E as ->
      end.
      unfold PrototypeAST_codegen, Function_Create, fresh in *.
      match goal with
      | Hc : bind _ _ _ = Some _ |- _ => run_inv Hc
      end.
      match goal with
      | Hc : bind _ _ _ = Some _ |- _ => run_inv Hc
      end.
      cbn [TheModule set_TheModule set_next_id].
      rewrite (Hkey _ eq_refl).
      match goal with
      | Hn : getFunction _ _ = None |- _ =>
          rewrite (unique_name_free _ _ _ (getFunction_None_names _ _ Hn));
          unfold getFunction in *;
          rewrite (find_app_None _ _ _ Hn)
      end.
      cbn. rewrite bool_decide_eq_true_2 by done. eauto. }
  split; [done|]. destruct Hf as (f & Hf & <-).
  unfold get_function, bind, gets. by rewrite Hf.
Qed.

Lemma get_function_settles_witness :
  (∃ f, getFunction
          (TheModule (Ex.end_state (get_function "binary|" Ex.binary_or_declared)
                                   Ex.binary_or_declared)) "binary|" = Some f ∧
        fn_id f = 3%nat) ∧
  get_function "binary|"
      (Ex.end_state (get_function "binary|" Ex.binary_or_declared)
                    Ex.binary_or_declared)
    = Some (Some 3%nat,
            Ex.end_state (get_function "binary|" Ex.binary_or_declared)
                         Ex.binary_or_declared).
Proof.
  apply (get_function_settles "binary|" Ex.binary_or_declared).
  - intros p. vm_compute. by intros [= <-].
  - vm_compute. reflexivity.
Defined.

End Resolution.

(** ** The prototype registry across a session *)

#[local] Instance registry_kept_refl : Reflexive registry_kept.
Proof. by intros st. Qed.

#[local] Instance registry_kept_trans : Transitive registry_kept.
Proof. intros s1 s2 s3 [H1 H2] [H3 H4]. split; auto. Qed.

Section Registry2.
Import LLVM CodeGen Driver.

Lemma same_registry_kept {A} (m : CM A) :
  preserves (same FunctionProtos) m → preserves registry_kept m.
Proof.
  intros H st a st' Hrun. unfold registry_kept.
  by rewrite (H _ _ _ Hrun).
Qed.

Lemma register_kept p st :
  registry_kept st
    (set_FunctionProtos (<[Name p := p]> (FunctionProtos st)) st).
Proof.
  split; cbn.
  - intros Hwk k q. destruct (decide (Name p = k)) as [<-|Hne].
    + rewrite lookup_insert_eq. by intros [= <-].
    + rewrite lookup_insert_ne by done. apply Hwk.
  - intros k Hk. destruct (decide (Name p = k)) as [<-|Hne].
    + rewrite lookup_insert_eq. eauto.
    + by rewrite lookup_insert_ne.
Qed.

Lemma FunctionAST_codegen_registry fn :
  preserves registry_kept (FunctionAST_codegen fn).
Proof.
  intros st r st' H. unfold FunctionAST_codegen in H.
  apply bind_inv in H as (protos & s0 & [-> ->]%gets_inv & H).
  apply bind_inv in H as ([] & s1 & ->%modify_inv & H).
  apply bind_inv in H as (F & s2 & HF & H).
  transitivity (set_FunctionProtos
                  (<[Name (Proto fn) := Proto fn]> (FunctionProtos st)) st);
    [apply register_kept|].
  apply (same_registry_kept _ (get_function_protos _)) in HF.
  transitivity s2; [done|].
  destruct F as [F|]; [|apply ret_inv in H as [_ ->]; reflexivity].
  change (after_registration fn F s2 = Some (r, st')) in H.
  exact (same_registry_kept _ (after_registration_protos fn F) _ _ _ H).
Qed.

#[local] Instance session_registry_kept_refl : Reflexive session_registry_kept.
Proof. intros s. unfold session_registry_kept. reflexivity. Qed.

#[local] Instance session_registry_kept_trans :
  Transitive session_registry_kept.
Proof.
  intros s1 s2 s3. unfold session_registry_kept. apply transitivity.
Qed.

Lemma in_parser_registry {A} (m : Parser.PM A) :
  preserves session_registry_kept (in_parser m).
Proof.
  intros s a s'. unfold in_parser.
  destruct (m (parser s)) as [[a0 p]|]; [|done].
  intros [= <- <-]. unfold session_registry_kept. reflexivity.
Qed.

Lemma in_lowering_registry {A} (m : CM A) :
  preserves registry_kept m → preserves session_registry_kept (in_lowering m).
Proof.
  intros Hm s a s'. unfold in_lowering.
  destruct (m (lowering s)) as [[a0 c]|] eqn:E; [|done].
  intros [= <- <-]. exact (Hm _ _ _ E).
Qed.

#[local] Hint Resolve in_parser_registry : frame.
#[local] Hint Extern 1 (preserves session_registry_kept (in_lowering _)) =>
  apply in_lowering_registry : frame.

Lemma initialize_registry :
  preserves registry_kept (modify initialize_modules_and_managers).
Proof. intros st [] st' ->%modify_inv. by split. Qed.

Lemma addModule_registry : preserves session_registry_kept addModule.
Proof.
  intros s [] s' ->%modify_inv. unfold session_registry_kept. reflexivity.
Qed.

Lemma handle_definition_registry fuel :
  preserves session_registry_kept (handle_definition fuel).
Proof.
  unfold handle_definition. frame;
    auto using FunctionAST_codegen_registry, initialize_registry,
      addModule_registry with frame.
Qed.

Lemma handle_extern_registry : preserves session_registry_kept handle_extern.
Proof.
  unfold handle_extern. frame; apply in_lowering_registry.
  - apply same_registry_kept, PrototypeAST_codegen_same; done.
  - intros st [] st' H. run_inv H. apply register_kept.
Qed.

Lemma handle_top_level_expression_registry fuel :
  preserves session_registry_kept (handle_top_level_expression fuel).
Proof.
  unfold handle_top_level_expression. frame;
    auto using FunctionAST_codegen_registry, initialize_registry with frame.
Qed.

Lemma main_loop_registry turns fuel :
  preserves session_registry_kept (main_loop turns fuel).
Proof.
  induction turns as [|turns IH]; cbn [main_loop]; frame;
    auto using handle_definition_registry, handle_extern_registry,
      handle_top_level_expression_registry.
Qed.

(** Whatever a session reads, the registry files every prototype under the
    prototype's own name. *)
Theorem session_registry_is_well_keyed turns fuel inp s :
  main turns fuel inp = Some (tt, s) →
  well_keyed (FunctionProtos (lowering s)).
Proof.
  unfold main. intros H. run_inv H.
  match goal with
  | Hl : main_loop _ _ _ = Some (?u, _) |- _ => destruct u;
      apply main_loop_registry in Hl as [Hwk _]
  end.
  apply Hwk.
  match goal with
  | Hp : in_parser _ _ = Some _ |- _ =>
      apply in_parser_registry in Hp as [Hwk0 _]
  end.
  apply Hwk0. intros k p. cbn. by rewrite lookup_empty.
Qed.

Lemma session_registry_witness :
  well_keyed (FunctionProtos (lowering (Ex.session_after (Ex.extern_g ++ Ex.def_foo)))).
Proof.
  apply (session_registry_is_well_keyed 50 50 (Ex.extern_g ++ Ex.def_foo)).
  vm_compute. reflexivity.
Defined.

(** A name that is in the registry stays in it through every turn of the
    session. *)
Theorem session_keeps_prototypes turns fuel s s' k :
  main_loop turns fuel s = Some (tt, s') →
  is_Some (FunctionProtos (lowering s) !! k) →
  is_Some (FunctionProtos (lowering s') !! k).
Proof. intros H. apply (main_loop_registry _ _ _ _ _ H). Qed.

(** [def foo(a) a;] in a session that has seen [extern g(a b c);]. *)
Lemma session_keeps_prototypes_witness :
  is_Some
    (FunctionProtos
       (lowering
          (Ex.end_state
             (main_loop 50 50
                (mkSession (Ex.primed Ex.def_foo)
                           (lowering (Ex.session_after Ex.extern_g)) []))
             (mkSession (pstate0 []) cstate0 []))) !! "g").
Proof.
  apply (session_keeps_prototypes 50 50
           (mkSession (Ex.primed Ex.def_foo)
                      (lowering (Ex.session_after Ex.extern_g)) [])).
  - vm_compute. reflexivity.
  - eexists. vm_compute. reflexivity.
Defined.

End Registry2.

(** ** Operators of one precedence *)

Section LeftAssociativity.
Import Parser.
Variables (op p : Z).
Hypothesis op_ascii : isascii op = true.
Hypothesis p_positive : 0 < p.

Lemma get_tok_precedence_op st :
  BINOP_PRECEDENCE st !! op = Some p → cur_tok st = op →
  get_tok_precedence st = p.
Proof.
  intros Ht Hc. unfold get_tok_precedence. rewrite Hc, op_ascii, Ht. cbn.
  destruct (Z.leb_spec p 0); [lia|done].
Qed.

Lemma get_tok_precedence_eof st :
  cur_tok st = tok_eof → get_tok_precedence st = -1.
Proof. intros Hc. unfold get_tok_precedence. by rewrite Hc. Qed.

Lemma get_tok_precedence_behind vs st :
  behind_operand op p vs st →
  get_tok_precedence st = match vs with [] => -1 | _ => p end.
Proof.
  intros [Ht Hs]. destruct vs as [|v vs]; destruct Hs as [Hc _].
  - by apply get_tok_precedence_eof.
  - by apply get_tok_precedence_op.
Qed.

Lemma get_next_token_LxNumber st v rest :
  input st = LxNumber v :: rest →
  get_next_token st
    = Some (tok_number,
            mkPState tok_number rest (identifier_str st) v (operator_name st)
                     (BINOP_PRECEDENCE st) (perrs st)).
Proof. intros H. unfold get_next_token, gettok. by rewrite H. Qed.

Lemma get_next_token_eof st :
  input st = [] → get_next_token st = Some (tok_eof, set_cur_tok tok_eof st).
Proof. intros H. unfold get_next_token, gettok. by rewrite H. Qed.

(** Reading a number that is followed by the chain [vs]. *)
Lemma parse_number_before_chain vs st v :
  BINOP_PRECEDENCE st !! op = Some p →
  cur_tok st = tok_number → num_val st = v →
  input st = operand_chain op vs →
  ∃ st', parse_number_expr st = Some (Some (NumberExprAST v), st') ∧
         behind_operand op p vs st'.
Proof.
  intros Ht Hc Hv Hin. unfold parse_number_expr, bind at 1, gets. rewrite Hv.
  destruct vs as [|v1 vs]; cbn in Hin.
  - rewrite (bind_run _ _ _ _ _ (get_next_token_eof _ Hin)).
    eexists. split; [reflexivity|]. by split.
  - rewrite (bind_run _ _ _ _ _ (get_next_token_Lx _ _ _ Hin)).
    eexists. split; [reflexivity|]. by split.
Qed.

Lemma parse_binop_rhs_chain vs :
  ∀ fuel expr_prec LHS st,
    behind_operand op p vs st → 0 ≤ expr_prec ≤ p →
    (length vs + 1 ≤ fuel)%nat →
    ∃ st', parse_binop_rhs fuel expr_prec LHS st
           = Some (Some (left_nested op LHS vs), st') ∧
           input st' = [] ∧ cur_tok st' = tok_eof.
Proof.
  induction vs as [|v vs IH]; intros fuel expr_prec LHS st Hst Hprec Hfuel.
  - destruct fuel as [|fuel]; [cbn in Hfuel; lia|].
    cbn [parse_binop_rhs]. unfold bind at 1, gets.
    rewrite (get_tok_precedence_behind _ _ Hst).
    destruct (Z.ltb_spec (-1) expr_prec); [|lia].
    destruct Hst as (_ & Hc & Hin). eexists. split; [reflexivity|done].
  - destruct fuel as [|fuel]; [cbn in Hfuel; lia|].
    cbn [parse_binop_rhs]. unfold bind at 1, gets at 1.
    rewrite (get_tok_precedence_behind _ _ Hst).
    destruct (Z.ltb_spec p expr_prec); [lia|].
    destruct Hst as (Ht & Hc & Hin).
    unfold bind at 1, gets at 1. rewrite Hc.
    rewrite (bind_run _ _ _ _ _ (get_next_token_LxNumber _ _ _ Hin)).
    destruct fuel as [|fuel]; [cbn in Hfuel; lia|].
    cbn [parse_primary]. unfold bind at 1. unfold bind at 1, gets at 1.
    cbn [cur_tok Z.eqb Pos.eqb].
    edestruct (parse_number_before_chain vs) as (st2 & -> & Hst2);
      [exact Ht|reflexivity|reflexivity|reflexivity|].
    cbn [num_val].
    unfold bind at 1, gets at 1.
    rewrite (get_tok_precedence_behind _ _ Hst2).
    assert ((p <? match vs with [] => -1 | _ => p end) = false) as ->.
    { destruct vs; apply Z.ltb_ge; lia. }
    unfold bind at 1, ret at 1.
    apply IH; [done..|cbn in Hfuel; lia].
Qed.

(** A chain of operands joined by one operator of the table, up to the end
    of the input, parses to the tree nested to the left. *)
Theorem equal_precedence_associates_left v0 vs st fuel :
  BINOP_PRECEDENCE st !! op = Some p →
  cur_tok st = tok_number → num_val st = v0 →
  input st = operand_chain op vs →
  (length vs + 2 ≤ fuel)%nat →
  ∃ st', parse_expression fuel st
         = Some (Some (left_nested op (NumberExprAST v0) vs), st') ∧
         input st' = [] ∧ cur_tok st' = tok_eof.
Proof.
  intros Ht Hc Hv Hin Hfuel.
  destruct fuel as [|[|fuel]]; [lia..|].
  cbn [parse_expression parse_primary].
  unfold bind at 1. unfold bind at 1, gets at 1. rewrite Hc.
  cbn [Z.eqb Pos.eqb].
  destruct (parse_number_before_chain vs st v0 Ht Hc Hv Hin)
    as (st1 & -> & Hst1).
  apply parse_binop_rhs_chain; [done|lia|lia].
Qed.

End LeftAssociativity.

(** [1-2-3] is [(1-2)-3]. *)
Lemma equal_precedence_witness :
  ∃ st', Parser.parse_expression 4
           (Ex.primed [LxNumber 1; Lx (chr "-"); LxNumber 2; Lx (chr "-");
                       LxNumber 3])
         = Some (Some (left_nested (chr "-") (NumberExprAST 1) [2%float; 3%float]),
                 st') ∧
         input st' = [] ∧ cur_tok st' = tok_eof.
Proof.
  apply (equal_precedence_associates_left (chr "-") 20 eq_refl eq_refl
           1%float [2%float; 3%float]); first [reflexivity | cbn; lia].
Defined.

(** ** Two operators of any table *)

Section LoopSteps.
Import Parser.

(** One turn of the loop of [parse_binop_rhs] at a token that is no
    operator of at least the precedence asked for. *)
Lemma parse_binop_rhs_stop fuel expr_prec LHS st :
  get_tok_precedence st < expr_prec →
  parse_binop_rhs (S fuel) expr_prec LHS st = Some (Some LHS, st).
Proof.
  intros H. cbn [parse_binop_rhs]. unfold bind, gets.
  by rewrite (proj2 (Z.ltb_lt _ _) H).
Qed.

(** One turn of the loop at an operator, where the operand after it
    parses. *)
Lemma parse_binop_rhs_step fuel expr_prec LHS st t st1 RHS st2 :
  expr_prec ≤ get_tok_precedence st →
  get_next_token st = Some (t, st1) →
  parse_primary fuel st1 = Some (Some RHS, st2) →
  parse_binop_rhs (S fuel) expr_prec LHS st
  = if get_tok_precedence st <? get_tok_precedence st2
    then (do R <- parse_binop_rhs fuel (get_tok_precedence st + 1) RHS;
          match R with
          | None => ret None
          | Some R =>
              parse_binop_rhs fuel expr_prec (BinaryExprAST (cur_tok st) LHS R)
          end) st2
    else parse_binop_rhs fuel expr_prec (BinaryExprAST (cur_tok st) LHS RHS) st2.
Proof.
  intros Hp Hn Hr. cbn [parse_binop_rhs]. unfold bind at 1, gets at 1.
  rewrite (proj2 (Z.ltb_ge _ _) Hp).
  unfold bind at 1, gets at 1.
  rewrite (bind_run _ _ _ _ _ Hn), (bind_run _ _ _ _ _ Hr).
  unfold bind at 1, gets at 1.
  by destruct (_ <? _).
Qed.

(** [parse_primary] at a number. *)
Lemma parse_primary_number fuel st :
  cur_tok st = tok_number →
  parse_primary (S fuel) st
  = Some (Some (NumberExprAST (num_val st)),
          set_cur_tok (fst (gettok st)) (snd (gettok st))).
Proof.
  intros Hc. cbn [parse_primary]. unfold bind at 1, gets at 1. rewrite Hc.
  cbn [Z.eqb Pos.eqb]. unfold parse_number_expr, bind at 1, gets at 1.
  by rewrite (bind_run _ _ _ _ _ (get_next_token_run st)).
Qed.

End LoopSteps.

Section TwoOperators.
Import Parser.
Variables (op1 p1 op2 p2 : Z).
Hypothesis op1_ascii : isascii op1 = true.
Hypothesis op2_ascii : isascii op2 = true.
Hypothesis p1_positive : 0 < p1.
Hypothesis p2_positive : 0 < p2.

Lemma get_tok_precedence_at T t i s n o e q :
  isascii t = true → T !! t = Some q → 0 < q →
  get_tok_precedence (mkPState t i s n o T e) = q.
Proof.
  intros Ha Ht Hq. unfold get_tok_precedence. cbn. rewrite Ha, Ht. cbn.
  destruct (Z.leb_spec q 0); [lia|done].
Qed.

(** [v0 op1 v1 op2 v2]: the operator that follows takes the middle operand
    when, and only when, it binds tighter. *)
Theorem tighter_operator_takes_the_operand v0 v1 v2 st fuel :
  BINOP_PRECEDENCE st !! op1 = Some p1 →
  BINOP_PRECEDENCE st !! op2 = Some p2 →
  cur_tok st = tok_number → num_val st = v0 →
  input st = [Lx op1; LxNumber v1; Lx op2; LxNumber v2] →
  (4 ≤ fuel)%nat →
  ∃ st', parse_expression fuel st
         = Some (Some (if p1 <? p2
                       then BinaryExprAST op1 (NumberExprAST v0)
                              (BinaryExprAST op2 (NumberExprAST v1)
                                                 (NumberExprAST v2))
                       else BinaryExprAST op2
                              (BinaryExprAST op1 (NumberExprAST v0)
                                                 (NumberExprAST v1))
                              (NumberExprAST v2)), st') ∧
         input st' = [] ∧ cur_tok st' = tok_eof.
Proof.
  intros Ht1 Ht2 Hc Hv Hin Hfuel.
  enough (∃ st', parse_expression 4 st
         = Some (Some (if p1 <? p2
                       then BinaryExprAST op1 (NumberExprAST v0)
                              (BinaryExprAST op2 (NumberExprAST v1)
                                                 (NumberExprAST v2))
                       else BinaryExprAST op2
                              (BinaryExprAST op1 (NumberExprAST v0)
                                                 (NumberExprAST v1))
                              (NumberExprAST v2)), st') ∧
         input st' = [] ∧ cur_tok st' = tok_eof) as (st' & H & Hrest).
  { exists st'. split; [|done]. by apply (parse_expression_mono 4 fuel). }
  destruct st as [ct inp ids nv on T errs].
  cbn in Ht1, Ht2, Hc, Hv, Hin. subst.
  set (s0 := mkPState tok_number [Lx op1; LxNumber v1; Lx op2; LxNumber v2]
                      ids v0 on T errs).
  set (s1 := mkPState op1 [LxNumber v1; Lx op2; LxNumber v2] ids v0 on T errs).
  set (s2 := mkPState tok_number [Lx op2; LxNumber v2] ids v1 on T errs).
  set (s3 := mkPState op2 [LxNumber v2] ids v1 on T errs).
  set (s4 := mkPState tok_number [] ids v2 on T errs).
  set (s5 := mkPState tok_eof [] ids v2 on T errs).
  assert (get_tok_precedence s1 = p1) as G1
    by (by apply get_tok_precedence_at).
  assert (get_tok_precedence s3 = p2) as G3
    by (by apply get_tok_precedence_at).
  assert (get_tok_precedence s5 = -1) as G5 by done.
  assert (get_next_token s1 = Some (tok_number, s2)) as N1 by done.
  assert (get_next_token s3 = Some (tok_number, s4)) as N3 by done.
  assert (∀ f, parse_primary (S f) s0 = Some (Some (NumberExprAST v0), s1))
    as P0 by (intros f; by rewrite parse_primary_number).
  assert (∀ f, parse_primary (S f) s2 = Some (Some (NumberExprAST v1), s3))
    as P2 by (intros f; by rewrite parse_primary_number).
  assert (∀ f, parse_primary (S f) s4 = Some (Some (NumberExprAST v2), s5))
    as P4 by (intros f; by rewrite parse_primary_number).
  exists s5. split; [|done].
  cbn [parse_expression].
  rewrite (bind_run _ _ _ _ _ (P0 _)).
  erewrite (parse_binop_rhs_step 2 0 _ s1 _ s2 _ s3);
    [|rewrite G1; lia|exact N1|apply P2].
  rewrite G1, G3.
  destruct (Z.ltb_spec p1 p2).
  - assert (parse_binop_rhs 2 (p1 + 1) (NumberExprAST v1) s3
            = Some (Some (BinaryExprAST op2 (NumberExprAST v1)
                                            (NumberExprAST v2)), s5)) as R.
    { erewrite (parse_binop_rhs_step 1 _ _ s3 _ s4 _ s5);
      [|rewrite G3; lia|exact N3|apply P4].
      rewrite G3, G5. rewrite (proj2 (Z.ltb_ge _ _)) by lia.
      apply parse_binop_rhs_stop. rewrite G5. lia. }
    rewrite (bind_run _ _ _ _ _ R).
    apply parse_binop_rhs_stop. rewrite G5. lia.
  - erewrite (parse_binop_rhs_step 1 _ _ s3 _ s4 _ s5);
      [|rewrite G3; lia|exact N3|apply P4].
    rewrite G3, G5. rewrite (proj2 (Z.ltb_ge _ _)) by lia.
    apply parse_binop_rhs_stop. rewrite G5. lia.
Qed.

End TwoOperators.

(** [1<2+3] is [1<(2+3)]. *)
Lemma tighter_operator_witness :
  ∃ st', Parser.parse_expression 4
           (Ex.primed [LxNumber 1; Lx (chr "<"); LxNumber 2; Lx (chr "+");
                       LxNumber 3])
         = Some (Some (if 10 <? 20
                       then BinaryExprAST (chr "<") (NumberExprAST 1)
                              (BinaryExprAST (chr "+") (NumberExprAST 2)
                                                       (NumberExprAST 3))
                       else BinaryExprAST (chr "+")
                              (BinaryExprAST (chr "<") (NumberExprAST 1)
                                                       (NumberExprAST 2))
                              (NumberExprAST 3)), st') ∧
         input st' = [] ∧ cur_tok st' = tok_eof.
Proof.
  apply (tighter_operator_takes_the_operand (chr "<") 10 (chr "+") 20
           eq_refl eq_refl eq_refl eq_refl 1%float 2%float 3%float);
    first [reflexivity | lia].
Defined.

(** ** The value of a conditional *)

Section Conditional.
Import LLVM CodeGen.

Lemma Builder_insert_lookup i st id st' :
  Builder_insert i st = Some (id, st') →
  Insts st' !! id = Some (mkInst i (InsertBlock st)) ∧
  InsertBlock st' = InsertBlock st.
Proof.
  unfold Builder_insert, fresh, deref, bind, gets, modify, ret, stuck. cbn.
  destruct (InsertBlock st) as [b|] eqn:E; cbn; [destruct (Blocks st !! b); cbn|];
    intros [=]; subst; cbn; by rewrite lookup_insert_eq.
Qed.

Lemma addIncoming_lookup phi v b st u st' incoming name parent :
  Insts st !! phi = Some (mkInst (PHI incoming name) parent) →
  addIncoming phi v b st = Some (u, st') →
  Insts st' !! phi = Some (mkInst (PHI (incoming ++ [(v, b)]) name) parent) ∧
  InsertBlock st' = InsertBlock st.
Proof.
  intros Hphi. unfold addIncoming, deref, bind, gets, modify, ret.
  rewrite Hphi. cbn. intros [= <- <-]. cbn. by rewrite lookup_insert_eq.
Qed.




End Conditional.

(** * The parser returns *)

#[local] Instance no_more_refl : Reflexive no_more.
Proof. intros st. unfold no_more. done. Qed.

#[local] Instance no_more_trans : Transitive no_more.
Proof. intros s1 s2 s3. unfold no_more. lia. Qed.

Section ParserReturns.
Import Parser.

Lemma get_next_token_left st t st' :
  get_next_token st = Some (t, st') →
  (tokens_left st' ≤ tokens_left st)%nat ∧
  (cur_tok st ≠ tok_eof → (tokens_left st' < tokens_left st)%nat).
Proof.
  unfold get_next_token, gettok, tokens_left.
  destruct (input st) as [|[]] eqn:E; intros [= <- <-]; cbn; rewrite ?E; cbn;
    repeat match goal with |- context [?a =? ?b] => destruct (Z.eqb_spec a b) end;
    lia.
Qed.

Lemma get_next_token_no_more : preserves no_more get_next_token.
Proof. intros st t st' H. by apply get_next_token_left in H as [? _]. Qed.

Lemma log_error_no_more A msg : preserves no_more (@log_error A msg).
Proof. intros st r st'. unfold log_error. intros [= <- <-]. by hnf. Qed.

Lemma parse_no_more fuel :
  preserves no_more (parse_primary fuel) ∧
  preserves no_more (parse_identifier_expr fuel) ∧
  (∀ args, preserves no_more (parse_call_args fuel args)) ∧
  (∀ expr_prec LHS, preserves no_more (parse_binop_rhs fuel expr_prec LHS)) ∧
  preserves no_more (parse_expression fuel).
Proof.
  apply parse_functions_inv; try apply _;
    auto using get_next_token_no_more, log_error_no_more.
Qed.

Lemma parse_prototype_no_more : preserves no_more parse_prototype.
Proof.
  apply parse_prototype_inv; try apply _;
    auto using get_next_token_no_more, log_error_no_more.
Qed.

(** What the tests of the lookahead say about it. *)
Ltac lookahead_facts :=
  repeat match goal with
  | H : (_ =? _) = true |- _ => apply Z.eqb_eq in H
  | H : negb (_ =? _) = false |- _ => apply negb_false_iff in H
  end;
  repeat match goal with
  | H : cur_tok ?s = _ |- _ =>
      lazymatch goal with
      | _ : cur_tok s ≠ tok_eof |- _ => fail
      | _ => idtac
      end;
      assert (cur_tok s ≠ tok_eof) by (rewrite H; by vm_compute)
  end.

(** Collects how many tokens are left along the runs among the
    hypotheses. *)
Ltac left_facts :=
  repeat match goal with
  | Hx : (if _ then _ else _) _ = Some _ |- _ => run_inv Hx
  end;
  repeat match goal with
  | H : get_next_token ?s = Some (_, ?s') |- _ =>
      lazymatch goal with
      | _ : (tokens_left s' ≤ tokens_left s)%nat |- _ => fail
      | _ => idtac
      end;
      destruct (get_next_token_left _ _ _ H)
  | Hc : consumes ?m, H : ?m ?s = Some (Some _, ?s') |- _ =>
      lazymatch goal with
      | _ : (tokens_left s' < tokens_left s)%nat |- _ => fail
      | _ => idtac
      end;
      pose proof (Hc _ _ _ H)
  | H : ?m ?s = Some (_, ?s') |- _ =>
      lazymatch goal with
      | _ : (tokens_left s' ≤ tokens_left s)%nat |- _ => fail
      | _ : (tokens_left s' < tokens_left s)%nat |- _ => fail
      | _ => idtac
      end;
      assert (tokens_left s' ≤ tokens_left s)%nat
        by (assert (preserves no_more m) as Hle by solve [eauto];
            exact (Hle _ _ _ H))
  end.

Lemma parse_identifier_expr_consumes fuel st a st' :
  cur_tok st ≠ tok_eof →
  parse_identifier_expr fuel st = Some (Some a, st') →
  (tokens_left st' < tokens_left st)%nat.
Proof.
  intros NE H. destruct fuel as [|fuel]; [discriminate|].
  destruct (parse_no_more fuel) as (Lp & Li & La & Lb & Le).
  cbn [parse_identifier_expr] in H.
  run_inv H; left_facts; try discriminate; lia.
Qed.

Lemma parse_primary_consumes fuel : consumes (parse_primary fuel).
Proof.
  intros st a st' H. destruct fuel as [|fuel]; [discriminate|].
  destruct (parse_no_more fuel) as (Lp & Li & La & Lb & Le).
  cbn [parse_primary] in H.
  unfold parse_number_expr, parse_paren_expr, parse_if_expr, parse_for_expr,
    log_error in H.
  run_inv H; try discriminate; lookahead_facts;
    try (apply parse_identifier_expr_consumes in H; [done|done]);
    left_facts; try discriminate; lia.
Qed.

Lemma parse_expression_consumes fuel : consumes (parse_expression fuel).
Proof.
  intros st a st' H. destruct fuel as [|fuel]; [discriminate|].
  destruct (parse_no_more fuel) as (Lp & Li & La & Lb & Le).
  pose proof (parse_primary_consumes fuel) as Cp.
  cbn [parse_expression] in H. run_inv H; left_facts; try discriminate; lia.
Qed.

Lemma returns_bind {A B} (m : PM A) (k : A → PM B) Q st :
  returns m (λ a s1, returns (k a) Q s1) st → returns (bind m k) Q st.
Proof.
  intros (a & s1 & Hm & b & s2 & Hk & HQ). exists b, s2.
  split; [|done]. by rewrite (bind_run _ _ _ _ _ Hm).
Qed.

Lemma returns_ret {A} (a : A) (Q : A → PState → Prop) st :
  Q a st → returns (ret a) Q st.
Proof. intros HQ. by exists a, st. Qed.

Lemma returns_gets {A} (f : PState → A) (Q : A → PState → Prop) st :
  Q (f st) st → returns (gets f) Q st.
Proof. intros HQ. by exists (f st), st. Qed.

Lemma returns_next (Q : Z → PState → Prop) st :
  (∀ t st', get_next_token st = Some (t, st') → Q t st') →
  returns get_next_token Q st.
Proof.
  intros HQ. pose proof (get_next_token_run st) as H.
  eexists _, _. split; [exact H|]. by apply HQ.
Qed.

Lemma returns_log {A} msg (Q : option A → PState → Prop) st :
  Q None (plog msg st) → returns (log_error msg) Q st.
Proof. intros HQ. by exists None, (plog msg st). Qed.

Lemma returns_run {A} (m : PM A) (Q : A → PState → Prop) st :
  is_Some (m st) → (∀ a st', m st = Some (a, st') → Q a st') →
  returns m Q st.
Proof. intros [[a st'] H] HQ. exists a, st'. split; [done|]. by apply HQ. Qed.

Lemma returns_is_Some {A} (m : PM A) st :
  returns m (λ _ _, True) st → is_Some (m st).
Proof. intros (a & st' & H & _). by rewrite H. Qed.

(** Follows the code of [m] in a goal [returns m Q st]; a call of one of
    the recursive functions returns by induction, with the fuel that the
    tokens left ask for. *)
Ltac returns_step :=
  cbv beta;
  lazymatch goal with
  | |- returns (bind _ _) _ _ => apply returns_bind
  | |- returns (ret _) _ _ => apply returns_ret
  | |- returns (gets _) _ _ => apply returns_gets
  | |- returns get_next_token _ _ => apply returns_next; intros ? ? ?
  | |- returns (log_error _) _ _ => apply returns_log
  | |- returns (if ?b then _ else _) _ _ => destruct b eqn:?
  | |- returns (match ?x with _ => _ end) _ _ => destruct x
  | |- returns _ _ _ =>
      apply returns_run;
      [solve [match goal with
              | IH : _ |- _ =>
                  apply IH; lookahead_facts; left_facts;
                  first [assumption | lia]
              end]
      |intros ? ? ?]
  | |- True => exact I
  end.

Lemma parse_functions_return fuel :
  (∀ st, (4 * tokens_left st + 2 ≤ fuel)%nat →
         is_Some (parse_primary fuel st)) ∧
  (∀ st, cur_tok st ≠ tok_eof → (4 * tokens_left st + 1 ≤ fuel)%nat →
         is_Some (parse_identifier_expr fuel st)) ∧
  (∀ args st, (4 * tokens_left st + 4 ≤ fuel)%nat →
              is_Some (parse_call_args fuel args st)) ∧
  (∀ expr_prec LHS st, (4 * tokens_left st + 3 ≤ fuel)%nat →
                       is_Some (parse_binop_rhs fuel expr_prec LHS st)) ∧
  (∀ st, (4 * tokens_left st + 3 ≤ fuel)%nat →
         is_Some (parse_expression fuel st)).
Proof.
  induction fuel as [|fuel (IHp & IHi & IHa & IHb & IHe)].
  { repeat split; intros; lia. }
  destruct (parse_no_more fuel) as (Lp & Li & La & Lb & Le).
  pose proof (parse_primary_consumes fuel) as Cp.
  pose proof (parse_expression_consumes fuel) as Ce.
  repeat split; intros; apply returns_is_Some;
    cbn [parse_primary parse_identifier_expr parse_call_args
         parse_binop_rhs parse_expression];
    unfold parse_number_expr, parse_paren_expr, parse_if_expr, parse_for_expr;
    repeat returns_step.
Qed.

(** With fuel for the tokens that are left, the parse of an expression
    returns: the fuel of the model does not run out, and with more fuel
    the parse answers the same and stops at the same place. *)
Theorem parse_expression_returns fuel st :
  (4 * length (input st) + 7 ≤ fuel)%nat →
  ∃ r st',
    parse_expression fuel st = Some (r, st') ∧
    ∀ fuel', (fuel ≤ fuel')%nat → parse_expression fuel' st = Some (r, st').
Proof.
  intros Hfuel.
  destruct (parse_functions_return fuel) as (_ & _ & _ & _ & He).
  destruct (He st) as [[r st'] H].
  { unfold tokens_left. destruct (_ =? _); lia. }
  exists r, st'. split; [done|].
  intros fuel' Hle. by apply (parse_expression_mono fuel).
Qed.

Lemma parse_expression_returns_witness :
  ∃ r st',
    parse_expression 27 (Ex.primed Ex.one_plus_product) = Some (r, st') ∧
    ∀ fuel', (27 ≤ fuel')%nat →
             parse_expression fuel' (Ex.primed Ex.one_plus_product)
               = Some (r, st').
Proof.
  apply (parse_expression_returns 27 (Ex.primed Ex.one_plus_product)).
  vm_compute. lia.
Defined.

Lemma top_level_parses_total fuel st :
  (4 * length (input st) + 7 ≤ fuel)%nat →
  is_Some (parse_definition fuel st) ∧
  is_Some (parse_extern st) ∧
  is_Some (parse_top_level_expression fuel st).
Proof.
  intros Hfuel.
  destruct (parse_functions_return fuel) as (IHp & IHi & IHa & IHb & IHe).
  pose proof parse_prototype_no_more as Lproto.
  assert (tokens_left st ≤ S (length (input st)))%nat as Hst.
  { unfold tokens_left. destruct (_ =? _); lia. }
  repeat split; apply returns_is_Some.
  - unfold parse_definition. do 2 returns_step.
    apply returns_bind, returns_run; [apply parse_prototype_total|].
    intros ? ? ?. repeat returns_step.
  - unfold parse_extern. do 2 returns_step.
    apply returns_run; [apply parse_prototype_total|]. done.
  - unfold parse_top_level_expression. repeat returns_step.
Qed.

(** With fuel for the tokens that are left, the three top-level parses
    return. *)
Theorem top_level_parses_return fuel st :
  (4 * length (input st) + 7 ≤ fuel)%nat →
  is_Some (parse_definition fuel st) ∧
  is_Some (parse_extern st) ∧
  is_Some (parse_top_level_expression fuel st).
Proof. apply top_level_parses_total. Qed.

Lemma top_level_parses_witness :
  is_Some (parse_definition 35 (Ex.primed Ex.def_foo)) ∧
  is_Some (parse_extern (Ex.primed Ex.def_foo)) ∧
  is_Some (parse_top_level_expression 35 (Ex.primed Ex.def_foo)).
Proof.
  apply (top_level_parses_return 35 (Ex.primed Ex.def_foo)).
  vm_compute. lia.
Defined.

End ParserReturns.

(** * Where an expression ends *)

Section ExpressionEnd.
Import Parser.

Lemma get_tok_precedence_range st :
  get_tok_precedence st = -1 ∨ 0 < get_tok_precedence st.
Proof.
  unfold get_tok_precedence. destruct (negb _); [by left|].
  destruct (_ !! _) as [p|]; [|by left].
  destruct (Z.leb_spec p 0); [by left|by right].
Qed.

Lemma parse_binop_rhs_end fuel :
  ∀ expr_prec LHS st e st',
    parse_binop_rhs fuel expr_prec LHS st = Some (Some e, st') →
    get_tok_precedence st' < expr_prec.
Proof.
  induction fuel as [|fuel IH]; intros expr_prec LHS st e st' H;
    [discriminate|].
  cbn [parse_binop_rhs] in H. run_inv H; try discriminate.
  - by apply Z.ltb_lt.
  - by apply IH in H.
Qed.

(** The token after an expression that was parsed is no binary operator of
    the precedence table: the parse takes every operator that follows. *)
Theorem expression_ends_before_a_non_operator fuel st e st' :
  parse_expression fuel st = Some (Some e, st') →
  get_tok_precedence st' = -1.
Proof.
  intros H. destruct fuel as [|fuel]; [discriminate|].
  cbn [parse_expression] in H. run_inv H; try discriminate.
  apply parse_binop_rhs_end in H.
  destruct (get_tok_precedence_range st'); lia.
Qed.

Lemma expression_end_witness :
  get_tok_precedence
    (Ex.end_state
       (parse_expression 10 (Ex.primed (Ex.one_plus_product ++ [Ex.rparen])))
       (Ex.primed [Lx (chr "+")]))
  = -1.
Proof.
  apply (expression_ends_before_a_non_operator 10
           (Ex.primed (Ex.one_plus_product ++ [Ex.rparen]))
           (Ex.answer (parse_expression 10
                         (Ex.primed (Ex.one_plus_product ++ [Ex.rparen])))
                      (Ex.num 0))).
  vm_compute. reflexivity.
Defined.

End ExpressionEnd.

(** * The functions of the module while an expression is lowered *)

#[local] Instance same_signature_refl : Reflexive same_signature.
Proof. by intros f. Qed.

#[local] Instance same_signature_trans : Transitive same_signature.
Proof.
  intros f g h (Hi & Hn & Ha) (Hi' & Hn' & Ha'). unfold same_signature.
  by rewrite Hi', Hn', Ha'.
Qed.

#[local] Instance module_grows_refl : Reflexive module_grows.
Proof.
  intros st. exists (TheModule st), []. by rewrite app_nil_r.
Qed.

#[local] Instance module_grows_trans : Transitive module_grows.
Proof.
  intros s1 s2 s3 (fs1 & d1 & E1 & F1) (fs2 & d2 & E2 & F2).
  rewrite E1 in F2. apply Forall2_app_inv_l in F2 as (fa & fb & Fa & Fb & ->).
  exists fa, (fb ++ d2). split; [by rewrite E2, app_assoc|].
  by transitivity fs1.
Qed.

Section ModuleGrows.
Import LLVM CodeGen.

Lemma same_module_grows {A} (m : CM A) :
  preserves (same TheModule) m → preserves module_grows m.
Proof.
  intros H st a st' Hrun. pose proof (H _ _ _ Hrun) as E. hnf in E.
  destruct (module_grows_refl st) as (fs & d & E1 & F1).
  exists fs, d. by rewrite E.
Qed.

#[local] Hint Extern 2 (preserves module_grows _) =>
  apply same_module_grows; solve [eauto with frame] : frame.

Lemma module_grows_eq st c : TheModule c = TheModule st → module_grows st c.
Proof. intros E. exists (TheModule st), []. by rewrite app_nil_r. Qed.

Lemma update_fn_signature F g m :
  (∀ f, same_signature f (g f)) →
  Forall2 same_signature m (update_fn F g m).
Proof.
  intros Hg. unfold update_fn. induction m as [|f m IH]; cbn; [constructor|].
  constructor; [|done]. by destruct (bool_decide _).
Qed.

Lemma set_TheModule_update F g c st :
  (∀ f, same_signature f (g f)) →
  TheModule c = TheModule st →
  module_grows st (set_TheModule (update_fn F g (TheModule c)) c).
Proof.
  intros Hg E. exists (update_fn F g (TheModule c)), [].
  split; [by rewrite app_nil_r|]. rewrite <- E. by apply update_fn_signature.
Qed.

Lemma Function_Create_grows name args :
  preserves module_grows (Function_Create name args).
Proof.
  intros st F st' H. unfold Function_Create, fresh in H. run_inv H.
  run_inv Hrun. eexists _, _. split; [reflexivity|]. done.
Qed.

Lemma the_function_state F st f st' :
  the_function F st = Some (f, st') → st' = st.
Proof.
  unfold the_function, deref, bind, gets, ret, stuck.
  destruct (lookup_fn _ _); [by intros [= _ <-]|done].
Qed.


Lemma BasicBlock_Create_grows name parent :
  preserves module_grows (BasicBlock_Create name parent).
Proof.
  intros st b st' H. unfold BasicBlock_Create, fresh in H. run_inv H;
    run_inv Hrun.
  - match goal with
    | Hf : the_function _ _ = Some _ |- _ => apply the_function_state in Hf as ->
    end.
    by apply set_TheModule_update.
  - by apply module_grows_eq.
Qed.

Lemma Function_insert_end_grows f b :
  preserves module_grows (Function_insert_end f b).
Proof.
  intros st u st' H. unfold Function_insert_end, deref in H. run_inv H.
  repeat match goal with
  | Hf : the_function _ _ = Some _ |- _ => apply the_function_state in Hf as ->
  | Hf : match ?o with Some _ => _ | None => _ end _ = Some _ |- _ =>
      destruct o; run_inv Hf
  end.
  by apply set_TheModule_update.
Qed.

Lemma SplitBlockAndInsertIfThen_grows c i :
  preserves module_grows (SplitBlockAndInsertIfThen c i).
Proof.
  intros st u st' H. unfold SplitBlockAndInsertIfThen, deref, fresh in H.
  run_inv H.
  repeat match goal with
  | Hf : the_function _ _ = Some _ |- _ => apply the_function_state in Hf as ->
  | Hf : match ?o with Some _ => _ | None => _ end _ = Some _ |- _ =>
      destruct o; run_inv Hf
  | Hf : bind _ _ _ = Some _ |- _ => run_inv Hf
  end.
  by apply set_TheModule_update.
Qed.

Lemma get_function_grows name : preserves module_grows (get_function name).
Proof.
  unfold get_function, PrototypeAST_codegen. frame.
  apply Function_Create_grows.
Qed.

#[local] Hint Resolve BasicBlock_Create_grows Function_insert_end_grows
  SplitBlockAndInsertIfThen_grows get_function_grows : frame.

Lemma log_error_v_module {A} msg :
  preserves (same TheModule) (@log_error_v A msg).
Proof. unfold log_error_v. frame. Qed.

Lemma NamedValues_at_module k : preserves (same TheModule) (NamedValues_at k).
Proof. unfold NamedValues_at. frame. Qed.

Lemma NamedValues_assign_module k v :
  preserves (same TheModule) (NamedValues_assign k v).
Proof. unfold NamedValues_assign. frame. Qed.

#[local] Hint Resolve log_error_v_module NamedValues_at_module
  NamedValues_assign_module : frame.

Lemma binary_switch_grows_module Op L R :
  preserves module_grows (binary_switch Op L R).
Proof. unfold binary_switch. frame. Qed.

Lemma codegen_args_grows_module cg Args ArgsV :
  Forall (λ e, preserves module_grows (cg e)) Args →
  preserves module_grows (codegen_args cg Args ArgsV).
Proof.
  intros HF. revert ArgsV.
  induction HF as [|e Args He _ IH]; intros ArgsV; cbn [codegen_args]; frame.
Qed.

Lemma codegen_grows_module e : preserves module_grows (codegen e).
Proof.
  induction e using ExprAST_nested_ind; cbn [codegen];
    frame; eauto using binary_switch_grows_module, codegen_args_grows_module.
Qed.


Lemma module_grows_getFunction st st' name f :
  module_grows st st' →
  getFunction (TheModule st) name = Some f →
  ∃ f', getFunction (TheModule st') name = Some f' ∧ same_signature f f'.
Proof.
  intros (fs & d & -> & HF). unfold getFunction.
  induction HF as [|g g' m fs Hg _ IH]; cbn; [done|].
  destruct Hg as (Hi & Hn & Ha). rewrite Hn.
  destruct (bool_decide (fn_name g = name)); [|done].
  intros [= <-]. by exists g'.
Qed.


(** Lowering an expression removes no function from the module and leaves
    the name and the parameters of every function as they are: whatever
    name resolved before resolves afterwards, to a function of the same
    signature. *)
Theorem lowering_keeps_the_functions e st r st' name f :
  codegen e st = Some (r, st') →
  getFunction (TheModule st) name = Some f →
  module_grows st st' ∧
  ∃ f', getFunction (TheModule st') name = Some f' ∧ same_signature f f'.
Proof.
  intros H Hf. pose proof (codegen_grows_module e _ _ _ H) as Hg.
  split; [done|]. by apply (module_grows_getFunction st).
Qed.

Lemma lowering_keeps_the_functions_witness :
  module_grows Ex.in_f (Ex.end_state (codegen Ex.count_to_n Ex.in_f) Ex.in_f) ∧
  ∃ f',
    getFunction
      (TheModule (Ex.end_state (codegen Ex.count_to_n Ex.in_f) Ex.in_f)) "f"
      = Some f' ∧
    same_signature
      (default (mkFunction 0 "" [] []) (getFunction (TheModule Ex.in_f) "f"))
      f'.
Proof.
  apply (lowering_keeps_the_functions Ex.count_to_n Ex.in_f
           (Some (ConstantFP 0))).
  - vm_compute. reflexivity.
  - vm_compute. reflexivity.
Defined.




End ModuleGrows.

(** * The end of a parameter list *)

Section ParameterList.
Import Parser.

Lemma get_next_token_lexeme st l rest :
  input st = l :: rest →
  ∃ st', get_next_token st = Some (lexeme_token l, st') ∧
         cur_tok st' = lexeme_token l ∧ input st' = rest ∧
         perrs st' = perrs st.
Proof.
  intros H. unfold get_next_token, gettok. rewrite H.
  destruct l; eexists; (split; [reflexivity|done]).
Qed.

(** The loop over the parameter names stops at the first token that is no
    identifier. *)
Lemma read_arg_names_until names :
  ∀ bound acc st l rest,
    input st = map LxIdent names ++ l :: rest →
    lexeme_token l ≠ tok_identifier →
    (length names ≤ length bound)%nat →
    ∃ st', read_arg_names bound acc st = Some (acc ++ names, st') ∧
           cur_tok st' = lexeme_token l ∧ input st' = rest ∧
           perrs st' = perrs st.
Proof.
  induction names as [|n names IH]; intros bound acc st l rest Hin Hl Hlen.
  - destruct (get_next_token_lexeme st _ _ Hin) as (st' & Hrun & Htok & Hrest & Hp).
    apply Z.eqb_neq in Hl.
    destruct bound; cbn [read_arg_names];
      rewrite (bind_run _ _ _ _ _ Hrun), Hl, app_nil_r; eauto.
  - destruct bound as [|b bound]; [cbn in Hlen; lia|].
    cbn [read_arg_names].
    rewrite (bind_run _ _ _ _ _ (get_next_token_LxIdent st _ _ Hin)).
    cbn [Z.eqb Pos.eqb]. unfold bind at 1, gets. cbn [identifier_str].
    match goal with
    | |- context [read_arg_names bound _ ?s] =>
        destruct (IH bound (acc ++ [n]) s l rest)
          as (st' & -> & Htok & Hrest & Hp);
        [reflexivity|done|cbn in Hlen; lia|]
    end.
    rewrite <- app_assoc. eauto.
Qed.

(** After a function name and [(], the identifiers that follow are the
    parameters; the first token that is no identifier must be [)].  Any
    other one, a comma among them, is consumed and the prototype is
    answered by [nullptr] and "Expected ')' in prototype". *)
Theorem parameter_list_ends_at_the_first_other_token names l rest st :
  cur_tok st = tok_identifier →
  input st = Lx (chr "(") :: map LxIdent names ++ l :: rest →
  lexeme_token l ≠ tok_identifier →
  lexeme_token l ≠ chr ")" →
  ∃ st', parse_prototype st = Some (None, st') ∧
         perrs st' = perrs st ++ ["Expected ')' in prototype"] ∧
         input st' = rest.
Proof.
  intros Htok Hin Hid Hrp.
  assert (parse_prototype_head st
          = Some (Some (identifier_str st, 0, 30),
                  mkPState (chr "(") (map LxIdent names ++ l :: rest)
                    (identifier_str st) (num_val st) (operator_name st)
                    (BINOP_PRECEDENCE st) (perrs st))) as Hhead.
  { unfold parse_prototype_head, bind at 1, gets. rewrite Htok.
    cbn [Z.eqb Pos.eqb]. unfold bind at 1, gets.
    by rewrite (bind_run _ _ _ _ _ (get_next_token_Lx st _ _ Hin)). }
  unfold parse_prototype. rewrite (bind_run _ _ _ _ _ Hhead).
  unfold bind at 1, gets. cbn [cur_tok]. rewrite Z.eqb_refl. cbn [negb].
  unfold bind at 1, gets. cbn [input].
  match goal with
  | |- context [read_arg_names ?b ?a] =>
      unfold bind at 1;
      match goal with
      | |- context [read_arg_names b a ?s] =>
          destruct (read_arg_names_until names b a s l rest)
            as (st' & Hread & Hcur & Hrest & Hp);
          [reflexivity|done|rewrite length_app, length_map; lia|]
      end
  end.
  rewrite Hread.
  unfold bind at 1, gets. rewrite Hcur.
  apply Z.eqb_neq in Hrp. rewrite Hrp. cbn [negb].
  unfold log_error. eexists. split; [reflexivity|].
  cbn. by rewrite Hp.
Qed.

(** [foo(a, b)] *)
Lemma parameter_list_witness :
  ∃ st',
    parse_prototype
      (Ex.primed [LxIdent "foo"; Ex.lparen; LxIdent "a"; Lx (chr ",");
                  LxIdent "b"; Ex.rparen])
    = Some (None, st') ∧
    perrs st'
    = perrs (Ex.primed [LxIdent "foo"; Ex.lparen; LxIdent "a"; Lx (chr ",");
                        LxIdent "b"; Ex.rparen])
      ++ ["Expected ')' in prototype"] ∧
    input st' = [LxIdent "b"; Ex.rparen].
Proof.
  apply (parameter_list_ends_at_the_first_other_token ["a"] (Lx (chr ","))
           [LxIdent "b"; Ex.rparen]
           (Ex.primed [LxIdent "foo"; Ex.lparen; LxIdent "a"; Lx (chr ",");
                       LxIdent "b"; Ex.rparen])).
  - reflexivity.
  - reflexivity.
  - by vm_compute.
  - by vm_compute.
Defined.

End ParameterList.

(** * The turns of the main loop *)

#[local] Instance input_shrinks_refl : Reflexive input_shrinks.
Proof. intros st. unfold input_shrinks. done. Qed.

#[local] Instance input_shrinks_trans : Transitive input_shrinks.
Proof. intros s1 s2 s3. unfold input_shrinks. lia. Qed.

Section Turns.
Import Parser Driver.

Lemma get_next_token_shrinks : preserves input_shrinks get_next_token.
Proof.
  intros st t st' H. rewrite get_next_token_run in H. injection H as <- <-.
  unfold input_shrinks. cbn. rewrite gettok_input_length. lia.
Qed.

Lemma log_error_shrinks A msg : preserves input_shrinks (@log_error A msg).
Proof. intros st r st'. unfold log_error. intros [= <- <-]. by hnf. Qed.

Lemma parse_expression_shrinks fuel :
  preserves input_shrinks (parse_expression fuel).
Proof.
  apply parse_functions_inv; try apply _;
    auto using get_next_token_shrinks, log_error_shrinks.
Qed.


(** Once a token other than the end of the input was looked at, skipping a
    token for error recovery leaves fewer tokens than there were. *)
Lemma skip_consumes st st1 t st2 :
  cur_tok st ≠ tok_eof → no_more st st1 → input_shrinks st st1 →
  get_next_token st1 = Some (t, st2) →
  (tokens_left st2 < tokens_left st)%nat.
Proof.
  intros NE Hle Hin H. apply get_next_token_left in H as [H1 H2].
  unfold no_more, input_shrinks in *.
  destruct (decide (cur_tok st1 = tok_eof)) as [E|NE1]; [|specialize (H2 NE1); lia].
  unfold tokens_left in *. rewrite E in *.
  destruct (Z.eqb_spec (cur_tok st) tok_eof); [done|]. cbn in *. lia.
Qed.

Lemma parse_definition_consumes fuel st r st' :
  cur_tok st ≠ tok_eof →
  parse_definition fuel st = Some (r, st') →
  (tokens_left st' < tokens_left st)%nat.
Proof.
  intros NE H. unfold parse_definition in H.
  pose proof parse_prototype_no_more as Lp.
  destruct (parse_no_more fuel) as (_ & _ & _ & _ & Le).
  run_inv H;
    repeat match goal with
    | Hn : get_next_token _ = Some _ |- _ =>
        apply get_next_token_left in Hn as [_ Hn]; specialize (Hn NE)
    | Hp : parse_prototype _ = Some _ |- _ => apply Lp in Hp
    | He : parse_expression _ _ = Some _ |- _ => apply Le in He
    end; unfold no_more in *; lia.
Qed.

Lemma parse_extern_consumes st r st' :
  cur_tok st ≠ tok_eof →
  parse_extern st = Some (r, st') →
  (tokens_left st' < tokens_left st)%nat.
Proof.
  intros NE H. unfold parse_extern in H.
  pose proof parse_prototype_no_more as Lp.
  run_inv H.
  repeat match goal with
  | Hn : get_next_token _ = Some _ |- _ =>
      apply get_next_token_left in Hn as [_ Hn]; specialize (Hn NE)
  | Hp : parse_prototype _ = Some _ |- _ => apply Lp in Hp
  end; unfold no_more in *; lia.
Qed.

Lemma in_parser_run {A} (m : PM A) s a s' :
  in_parser m s = Some (a, s') →
  m (parser s) = Some (a, parser s').
Proof.
  unfold in_parser. destruct (m (parser s)) as [[a0 p]|]; [|done].
  by intros [= <- <-].
Qed.

Lemma in_lowering_parser {A} (m : LLVM.CM A) :
  preserves (same parser) (in_lowering m).
Proof.
  intros s a s'. unfold in_lowering.
  destruct (m (lowering s)) as [[a0 c]|]; [|done]. by intros [= <- <-].
Qed.

Lemma addModule_parser : preserves (same parser) addModule.
Proof. unfold addModule. frame. Qed.

(** Gathers what the steps of a turn do to the parser state. *)
Ltac turn_facts :=
  repeat match goal with
  | H : in_parser _ _ = Some _ |- _ => apply in_parser_run in H
  | H : in_lowering _ _ = Some _ |- _ =>
      apply in_lowering_parser in H; hnf in H
  | H : addModule _ = Some _ |- _ => apply addModule_parser in H; hnf in H
  end;
  repeat match goal with
  | H : parser _ = parser _ |- _ => rewrite H in *; clear H
  end.

Lemma turn_consumes fuel s s' :
  cur_tok (parser s) ≠ tok_eof →
  handle_definition fuel s = Some (tt, s') ∨
  handle_extern s = Some (tt, s') ∨
  handle_top_level_expression fuel s = Some (tt, s') →
  (tokens_left (parser s') < tokens_left (parser s))%nat.
Proof.
  intros NE [H|[H|H]].
  - unfold handle_definition in H. run_inv H; turn_facts.
    all: match goal with
         | Hp : parse_definition _ _ = Some _ |- _ =>
             apply parse_definition_consumes in Hp; [|done]
         end.
    all: repeat match goal with
         | Hn : get_next_token _ = Some _ |- _ =>
             apply get_next_token_left in Hn as [Hn _]
         end; lia.
  - unfold handle_extern in H. run_inv H; turn_facts.
    all: match goal with
         | Hp : parse_extern _ = Some _ |- _ =>
             apply parse_extern_consumes in Hp; [|done]
         end.
    all: repeat match goal with
         | Hn : get_next_token _ = Some _ |- _ =>
             apply get_next_token_left in Hn as [Hn _]
         end; lia.
  - unfold handle_top_level_expression, parse_top_level_expression in H.
    destruct (parse_no_more fuel) as (_ & _ & _ & _ & Le).
    run_inv H; turn_facts.
    all: match goal with
         | Hp : bind _ _ _ = Some _ |- _ => run_inv Hp
         end; try discriminate.
    all: try match goal with
         | Hp : parse_expression _ _ = Some (Some _, _) |- _ =>
             apply parse_expression_consumes in Hp; lia
         end.
    all: match goal with
         | Hp : parse_expression _ _ = Some (None, _),
           Hn : get_next_token _ = Some _ |- _ =>
             apply (skip_consumes _ _ _ _ NE (Le _ _ _ Hp)
                      (parse_expression_shrinks _ _ _ _ Hp) Hn)
         end.
Qed.

(** Every turn of the main loop that handles a definition, a declaration or
    an expression leaves fewer tokens than it found, whether the parse and
    the lowering succeed or not: the loop does not stay on a token. *)
Theorem every_turn_consumes_a_token fuel s s' :
  cur_tok (parser s) ≠ tok_eof →
  handle_definition fuel s = Some (tt, s') ∨
  handle_extern s = Some (tt, s') ∨
  handle_top_level_expression fuel s = Some (tt, s') →
  (tokens_left (parser s') < tokens_left (parser s))%nat.
Proof. apply turn_consumes. Qed.

(** [) 1]: an expression that does not parse. *)
Lemma every_turn_witness :
  (tokens_left
     (parser
        (Ex.end_state
           (handle_top_level_expression 10
              (mkSession (Ex.primed [Ex.rparen; LxNumber 1]) cstate0 []))
           (mkSession (Ex.primed [Ex.rparen; LxNumber 1]) cstate0 [])))
   < tokens_left
       (parser (mkSession (Ex.primed [Ex.rparen; LxNumber 1]) cstate0 [])))%nat.
Proof.
  apply (every_turn_consumes_a_token 10
           (mkSession (Ex.primed [Ex.rparen; LxNumber 1]) cstate0 [])).
  - by vm_compute.
  - right. right. vm_compute. reflexivity.
Defined.

End Turns.

(** * The operators of a parsed expression *)

Section ParsedOperators.
Import Parser.

Lemma get_tok_precedence_known st :
  0 ≤ get_tok_precedence st →
  known_operator (BINOP_PRECEDENCE st) (cur_tok st) = true.
Proof.
  unfold get_tok_precedence, known_operator.
  destruct (isascii (cur_tok st)); cbn; [|lia].
  destruct (_ !! _) as [p|]; [|lia].
  destruct (Z.leb_spec p 0); [lia|]. intros _. by apply Z.ltb_lt.
Qed.

(** Gathers that the runs among the hypotheses leave the table alone. *)
Ltac table_facts :=
  repeat match goal with
  | Hx : (if _ then _ else _) _ = Some _ |- _ => run_inv Hx
  end;
  repeat match goal with
  | H : ?m ?s = Some (_, ?s') |- _ =>
      lazymatch goal with
      | _ : BINOP_PRECEDENCE s' = BINOP_PRECEDENCE s |- _ => fail
      | _ => idtac
      end;
      assert (BINOP_PRECEDENCE s' = BINOP_PRECEDENCE s)
        by (assert (preserves (same BINOP_PRECEDENCE) m) as Hx
              by solve [eauto];
            exact (Hx _ _ _ H))
  end.

(** Gathers what the induction hypotheses say of the expressions that
    were parsed. *)
Ltac known_facts T :=
  repeat match goal with
  | H : ?m ?s = Some (Some ?e, _) |- _ =>
      lazymatch goal with
      | _ : operators_known T e = true |- _ => fail
      | _ => idtac
      end;
      assert (operators_known T e = true)
        by (match goal with
            | IH : context [operators_known] |- _ =>
                eapply IH; [|exact H]; unfold has_table in *; congruence
            end)
  end.

Ltac known_goal :=
  cbn [operators_known forallb];
  repeat match goal with
  | H : ?b = true |- context [?b] => rewrite H
  end;
  first [ done | assumption | congruence ].

Lemma parse_operators T fuel :
  (∀ st e st', has_table T st →
     parse_primary fuel st = Some (Some e, st') →
     operators_known T e = true) ∧
  (∀ st e st', has_table T st →
     parse_identifier_expr fuel st = Some (Some e, st') →
     operators_known T e = true) ∧
  (∀ args st r st', has_table T st →
     forallb (operators_known T) args = true →
     parse_call_args fuel args st = Some (Some r, st') →
     forallb (operators_known T) r = true) ∧
  (∀ expr_prec LHS st e st', has_table T st →
     0 ≤ expr_prec → operators_known T LHS = true →
     parse_binop_rhs fuel expr_prec LHS st = Some (Some e, st') →
     operators_known T e = true) ∧
  (∀ st e st', has_table T st →
     parse_expression fuel st = Some (Some e, st') →
     operators_known T e = true).
Proof.
  induction fuel as [|fuel (IHp & IHi & IHa & IHb & IHe)].
  { repeat split; intros; discriminate. }
  destruct (parse_functions_same BINOP_PRECEDENCE gettok_table
              ltac:(done) ltac:(done) fuel) as (Tp & Ti & Ta & Tb & Te).
  pose proof (get_next_token_same BINOP_PRECEDENCE gettok_table ltac:(done))
    as Tn.
  repeat split.
  - intros st e st' HT H. cbn [parse_primary] in H.
    unfold parse_number_expr, parse_paren_expr, parse_if_expr, parse_for_expr,
      log_error in H.
    run_inv H; try discriminate; table_facts; try discriminate;
      known_facts T; simplify_eq; known_goal.
  - intros st e st' HT H. cbn [parse_identifier_expr] in H.
    run_inv H; try discriminate; table_facts; try discriminate;
      simplify_eq; try known_goal.
    match goal with
    | Ha : parse_call_args _ [] _ = Some (Some ?r, _) |- _ =>
        assert (forallb (operators_known T) r = true)
          by (eapply IHa; [| |exact Ha];
              [unfold has_table in *; congruence|done])
    end.
    known_goal.
  - intros args st r st' HT Hargs H. cbn [parse_call_args] in H.
    run_inv H; try discriminate; table_facts; try discriminate;
      known_facts T; simplify_eq.
    + rewrite forallb_app. cbn. by rewrite Hargs, andb_true_r.
    + match goal with
      | Ha : parse_call_args _ _ _ = Some (Some r, _) |- _ =>
          eapply IHa; [| |exact Ha]; [unfold has_table in *; congruence|]
      end.
      rewrite forallb_app. cbn. by rewrite Hargs, andb_true_r.
  - intros expr_prec LHS st e st' HT Hprec HL H. cbn [parse_binop_rhs] in H.
    run_inv H; try discriminate; [by simplify_eq|..];
      match goal with
      | Hlt : (get_tok_precedence st <? expr_prec) = false |- _ =>
          apply Z.ltb_ge in Hlt;
          pose proof (get_tok_precedence_known st ltac:(lia)) as Hop;
          rewrite HT in Hop
      end;
      table_facts; try discriminate; known_facts T; simplify_eq.
    + match goal with
      | Hb : parse_binop_rhs _ (_ + 1) ?R _ = Some (Some ?R', _) |- _ =>
          assert (operators_known T R' = true)
            by (eapply (IHb (get_tok_precedence st + 1) R);
                [| | |exact Hb];
                [unfold has_table in *; congruence|lia|done])
      end.
      match goal with
      | Hb : parse_binop_rhs _ expr_prec _ _ = Some (Some e, _) |- _ =>
          eapply IHb; [| | |exact Hb];
            [unfold has_table in *; congruence|done|known_goal]
      end.
    + match goal with
      | Hb : parse_binop_rhs _ expr_prec _ _ = Some (Some e, _) |- _ =>
          eapply IHb; [| | |exact Hb];
            [unfold has_table in *; congruence|done|known_goal]
      end.
  - intros st e st' HT H. cbn [parse_expression] in H.
    run_inv H; try discriminate; table_facts; known_facts T.
    match goal with
    | Hb : parse_binop_rhs _ 0 _ _ = Some (Some e, _) |- _ =>
        eapply IHb; [| | |exact Hb];
          [unfold has_table in *; congruence|done|done]
    end.
Qed.

(** Every binary node of an expression that was parsed carries a character
    that has a positive precedence in the table: the parser builds no
    binary node for any other token. *)
Theorem parsed_operators_are_in_the_table fuel st e st' :
  parse_expression fuel st = Some (Some e, st') →
  operators_known (BINOP_PRECEDENCE st) e = true.
Proof.
  intros H.
  by apply (proj2 (proj2 (proj2 (proj2
              (parse_operators (BINOP_PRECEDENCE st) fuel)))) st e st').
Qed.

Lemma parsed_operators_witness :
  operators_known (BINOP_PRECEDENCE (Ex.primed Ex.one_plus_product))
    (Ex.answer (parse_expression 10 (Ex.primed Ex.one_plus_product))
               (BinaryExprAST (chr "|") (Ex.num 1) (Ex.num 1)))
  = true.
Proof.
  apply (parsed_operators_are_in_the_table 10
           (Ex.primed Ex.one_plus_product) _
           (Ex.end_state (parse_expression 10 (Ex.primed Ex.one_plus_product))
                         (Ex.primed []))).
  vm_compute. reflexivity.
Defined.

Lemma parse_definition_operators T fuel st fn st' :
  has_table T st →
  parse_definition fuel st = Some (Some fn, st') →
  operators_known T (Body fn) = true.
Proof.
  intros HT H. unfold parse_definition in H.
  pose proof (get_next_token_same BINOP_PRECEDENCE gettok_table ltac:(done))
    as Tn.
  pose proof (parse_prototype_same BINOP_PRECEDENCE gettok_table ltac:(done)
                ltac:(done)) as Tp.
  run_inv H; try discriminate. table_facts. simplify_eq. cbn [Body].
  match goal with
  | He : parse_expression _ _ = Some (Some ?e, _) |- _ =>
      eapply (proj2 (proj2 (proj2 (proj2 (parse_operators T fuel)))));
        [|exact He]
  end.
  unfold has_table in *. congruence.
Qed.

Lemma parse_top_level_expression_operators T fuel st fn st' :
  has_table T st →
  parse_top_level_expression fuel st = Some (Some fn, st') →
  operators_known T (Body fn) = true.
Proof.
  intros HT H. unfold parse_top_level_expression in H.
  run_inv H; try discriminate. simplify_eq. cbn [Body].
  match goal with
  | He : parse_expression _ _ = Some (Some ?e, _) |- _ =>
      by eapply (proj2 (proj2 (proj2 (proj2 (parse_operators T fuel)))));
        [|exact He]
  end.
Qed.

End ParsedOperators.

(** * The diagnostic for a binary operator *)

#[local] Instance no_invalid_refl : Reflexive no_invalid.
Proof. intros st H. exact H. Qed.

#[local] Instance no_invalid_trans : Transitive no_invalid.
Proof. intros s1 s2 s3 H12 H23 H. by apply H12, H23. Qed.

#[local] Instance session_no_invalid_refl : Reflexive session_no_invalid.
Proof. intros s H. split; [exact H|reflexivity]. Qed.

#[local] Instance session_no_invalid_trans : Transitive session_no_invalid.
Proof.
  intros s1 s2 s3 H12 H23 H1. destruct (H12 H1) as [H2 N12].
  destruct (H23 H2) as [H3 N23]. split; [done|]. by transitivity (lowering s2).
Qed.

Section InvalidOperator.
Import LLVM CodeGen Driver.

Lemma known_operator_initial op :
  known_operator initial_precedence op = true →
  op = chr "+" ∨ op = chr "-" ∨ op = chr "*" ∨ op = chr "<".
Proof.
  unfold known_operator, initial_precedence. intros [_ H]%andb_true_iff.
  destruct (_ !! op) as [p|] eqn:E; [|done].
  repeat (apply lookup_insert_Some in E as [[<- _]|[_ E]]; [by auto|]).
  by rewrite lookup_empty in E.
Qed.

Lemma same_cerrs_no_invalid {A} (m : CM A) :
  preserves (same cerrs) m → preserves no_invalid m.
Proof. intros H st a st' Hrun. unfold no_invalid. by rewrite (H _ _ _ Hrun). Qed.

Lemma log_error_v_no_invalid {A} msg :
  msg ≠ "invalid binary operator" →
  preserves no_invalid (@log_error_v A msg).
Proof.
  intros Hmsg st r st' H. unfold log_error_v in H. run_inv H.
  unfold no_invalid. cbn. rewrite elem_of_app, list_elem_of_singleton.
  by intros [?|?].
Qed.

Lemma NamedValues_at_cerrs_kept k : preserves (same cerrs) (NamedValues_at k).
Proof. unfold NamedValues_at. frame. Qed.

Lemma NamedValues_assign_cerrs_kept k v :
  preserves (same cerrs) (NamedValues_assign k v).
Proof. unfold NamedValues_assign. frame. Qed.

#[local] Hint Resolve NamedValues_at_cerrs_kept NamedValues_assign_cerrs_kept
  : frame.

#[local] Hint Extern 2 (preserves no_invalid _) =>
  apply same_cerrs_no_invalid; solve [eauto with frame] : frame.

#[local] Hint Extern 2 (preserves no_invalid (log_error_v _)) =>
  apply log_error_v_no_invalid; cbn; discriminate : frame.

Lemma binary_switch_no_invalid Op L R :
  known_operator initial_precedence Op = true →
  preserves no_invalid (binary_switch Op L R).
Proof.
  intros [-> | [-> | [-> | ->]]]%known_operator_initial; unfold binary_switch;
    repeat match goal with
    | |- context [?a =? ?b] =>
        let v := eval vm_compute in (a =? b) in change (a =? b) with v
    end; cbv iota; unfold Create, CreateV; frame.
Qed.

Lemma codegen_args_no_invalid cg Args ArgsV :
  Forall (λ e, preserves no_invalid (cg e)) Args →
  preserves no_invalid (codegen_args cg Args ArgsV).
Proof.
  intros HF. revert ArgsV.
  induction HF as [|e Args He _ IH]; intros ArgsV; cbn [codegen_args]; frame.
Qed.

Lemma codegen_no_invalid e :
  operators_known initial_precedence e = true →
  preserves no_invalid (codegen e).
Proof.
  induction e as [| |op l r IHl IHr|c args IHargs|c t e IHc IHt IHe
                  |x s c stp b IHs IHc IHstp IHb] using ExprAST_nested_ind;
    cbn [operators_known]; rewrite ?andb_true_iff; intros Hk;
    cbn [codegen]; unfold Create, CreateV.
  - frame.
  - frame.
  - destruct Hk as [[Hop Hl] Hr]. frame; eauto using binary_switch_no_invalid.
  - frame. apply codegen_args_no_invalid.
    clear -IHargs Hk.
    induction IHargs as [|arg args Harg _ IH]; [constructor|].
    cbn in Hk. apply andb_true_iff in Hk as [H1 H2].
    constructor; [by apply Harg|by apply IH].
  - destruct Hk as [[Hc Ht] He]. frame; eauto.
  - destruct Hk as [[[Hs Hc] Hstp] Hb]. frame; eauto.
Qed.

Lemma FunctionAST_codegen_no_invalid fn :
  operators_known initial_precedence (Body fn) = true →
  preserves no_invalid (FunctionAST_codegen fn).
Proof.
  intros Hk. unfold FunctionAST_codegen. cbv zeta.
  apply preserves_bind; [apply _|frame|intros protos].
  apply preserves_bind; [apply _|apply same_cerrs_no_invalid; frame|intros _].
  frame; try solve [apply same_cerrs_no_invalid; frame].
  by apply codegen_no_invalid.
Qed.

Lemma in_parser_inv {A} (m : Parser.PM A) s a s' :
  in_parser m s = Some (a, s') →
  m (parser s) = Some (a, parser s') ∧ lowering s' = lowering s.
Proof.
  unfold in_parser. destruct (m (parser s)) as [[a0 p]|]; [|done].
  by intros [= <- <-].
Qed.

Lemma in_lowering_inv {A} (m : CM A) s a s' :
  in_lowering m s = Some (a, s') →
  m (lowering s) = Some (a, lowering s') ∧ parser s' = parser s.
Proof.
  unfold in_lowering. destruct (m (lowering s)) as [[a0 c]|]; [|done].
  by intros [= <- <-].
Qed.

Lemma addModule_inv s u s' :
  addModule s = Some (u, s') →
  lowering s' = lowering s ∧ parser s' = parser s.
Proof. unfold addModule. intros H. by run_inv H. Qed.

(** Takes the steps of a turn apart into what they do to the parser and to
    the lowering state. *)
Ltac session_inv :=
  repeat match goal with
  | H : in_parser _ _ = Some _ |- _ => apply in_parser_inv in H as [H ?]
  | H : in_lowering _ _ = Some _ |- _ => apply in_lowering_inv in H as [H ?]
  | H : addModule _ = Some _ |- _ => apply addModule_inv in H as [H ?]
  | H : modify _ _ = Some _ |- _ => apply modify_inv in H
  end.

Lemma no_invalid_eq st st' : cerrs st' = cerrs st → no_invalid st st'.
Proof. intros E. unfold no_invalid. by rewrite E. Qed.

Lemma handle_definition_no_invalid fuel :
  preserves session_no_invalid (handle_definition fuel).
Proof.
  intros s u s' H Htable.
  split; [by rewrite (handle_definition_table fuel _ _ _ H)|].
  unfold handle_definition in H. run_inv H; session_inv;
    try (apply no_invalid_eq; congruence).
  all: match goal with
       | Hp : Parser.parse_definition _ _ = Some (Some ?fn, _),
         Hc : FunctionAST_codegen ?fn _ = Some _ |- _ =>
           apply (parse_definition_operators initial_precedence) in Hp;
             [|exact Htable];
           apply (FunctionAST_codegen_no_invalid _ Hp) in Hc
       end.
  all: unfold no_invalid in *.
  all: repeat match goal with
       | E : lowering _ = _ |- _ => rewrite E in *; clear E
       end; cbn; done.
Qed.

Lemma handle_top_level_expression_no_invalid fuel :
  preserves session_no_invalid (handle_top_level_expression fuel).
Proof.
  intros s u s' H Htable.
  split; [by rewrite (handle_top_level_expression_table fuel _ _ _ H)|].
  unfold handle_top_level_expression in H. run_inv H; session_inv;
    try (apply no_invalid_eq; congruence).
  all: match goal with
       | Hp : Parser.parse_top_level_expression _ _ = Some (Some ?fn, _),
         Hc : FunctionAST_codegen ?fn _ = Some _ |- _ =>
           apply (parse_top_level_expression_operators initial_precedence)
             in Hp; [|exact Htable];
           apply (FunctionAST_codegen_no_invalid _ Hp) in Hc
       end.
  all: unfold no_invalid in *.
  all: repeat match goal with
       | E : lowering _ = _ |- _ => rewrite E in *; clear E
       end; cbn; done.
Qed.

Lemma handle_extern_no_invalid : preserves session_no_invalid handle_extern.
Proof.
  intros s u s' H Htable.
  split; [by rewrite (handle_extern_table _ _ _ H)|].
  unfold handle_extern in H. run_inv H; session_inv;
    try (apply no_invalid_eq; congruence).
  repeat match goal with
  | Hc : bind _ _ _ = Some _ |- _ => run_inv Hc
  end.
  match goal with
  | Hc : PrototypeAST_codegen _ _ = Some _ |- _ =>
      apply (PrototypeAST_codegen_same cerrs) in Hc; [|done..]
  end.
  apply no_invalid_eq. unfold same in *.
  repeat match goal with
  | E : lowering _ = _ |- _ => rewrite E in *; clear E
  end. cbn. congruence.
Qed.

Lemma in_parser_no_invalid {A} (m : Parser.PM A) :
  preserves (same BINOP_PRECEDENCE) m →
  preserves session_no_invalid (in_parser m).
Proof.
  intros Hm s a s' H Htable. apply in_parser_inv in H as [H E].
  split; [|by apply no_invalid_eq; rewrite E].
  unfold table in *. by rewrite (Hm _ _ _ H).
Qed.

Lemma main_loop_no_invalid turns fuel :
  preserves session_no_invalid (main_loop turns fuel).
Proof.
  induction turns as [|turns IH]; cbn [main_loop]; frame;
    auto using handle_definition_no_invalid, handle_extern_no_invalid,
      handle_top_level_expression_no_invalid;
    apply in_parser_no_invalid;
    first [ apply preserves_gets; apply _
          | apply get_next_token_same; auto using gettok_table ].
Qed.

(** No session reports an invalid binary operator: the parser builds
    binary nodes for the operators of its table only, the table is the
    initial one throughout, and the lowering pass knows each of its four
    operators. *)
Theorem session_reports_no_invalid_operator turns fuel inp s :
  main turns fuel inp = Some (tt, s) →
  "invalid binary operator" ∉ cerrs (lowering s).
Proof.
  intros H. unfold main in H. run_inv H.
  match goal with
  | H1 : in_parser Parser.get_next_token _ = Some (_, ?s1),
    H2 : main_loop _ _ ?s1 = Some _ |- _ =>
      apply in_parser_no_invalid in H1;
        [|apply get_next_token_same; auto using gettok_table];
      apply main_loop_no_invalid in H2;
      destruct (transitivity H1 H2 eq_refl) as [_ Hno]
  end.
  intros Hin. apply Hno in Hin. cbn in Hin. by apply elem_of_nil in Hin.
Qed.

(** [def binary| 5 (a b) a;] and then [1|0|1]. *)
Lemma session_reports_no_invalid_operator_witness :
  "invalid binary operator"
    ∉ cerrs (lowering (Ex.session_after
                         (Ex.def_binary_or ++ Ex.one_or_zero_or_one))).
Proof.
  apply (session_reports_no_invalid_operator 50 50
           (Ex.def_binary_or ++ Ex.one_or_zero_or_one)).
  vm_compute. reflexivity.
Defined.

End InvalidOperator.

(** * The instructions that exist when an expression is lowered *)

#[local] Instance ids_grow_refl : Reflexive ids_grow.
Proof. intros st. unfold ids_grow. done. Qed.

#[local] Instance ids_grow_trans : Transitive ids_grow.
Proof. intros s1 s2 s3. unfold ids_grow. lia. Qed.

#[local] Instance kept_refl n : Reflexive (kept n).
Proof. by intros st id Hid. Qed.

#[local] Instance kept_trans n : Transitive (kept n).
Proof.
  intros s1 s2 s3 H12 H23 id Hid. by rewrite (H23 id Hid), (H12 id Hid).
Qed.

Section InstructionsKept.
Import LLVM CodeGen.

Lemma same_ids_grow {A} (m : CM A) :
  preserves (same next_id) m → preserves ids_grow m.
Proof. intros H st a st' Hrun. unfold ids_grow. by rewrite (H _ _ _ Hrun). Qed.

Lemma same_kept {A} n (m : CM A) :
  preserves (same Insts) m → preserves (kept n) m.
Proof. intros H st a st' Hrun id Hid. by rewrite (H _ _ _ Hrun). Qed.

Lemma fresh_run st : fresh st = Some (next_id st, set_next_id (S (next_id st)) st).
Proof. done. Qed.

Lemma fresh_ids : preserves ids_grow fresh.
Proof. intros st n st'. rewrite fresh_run. intros [= <- <-]. hnf. cbn. lia. Qed.

Lemma log_error_v_next_id {A} msg :
  preserves (same next_id) (@log_error_v A msg).
Proof. unfold log_error_v. frame. Qed.

Lemma NamedValues_at_next_id k : preserves (same next_id) (NamedValues_at k).
Proof. unfold NamedValues_at. frame. Qed.

Lemma NamedValues_assign_next_id k v :
  preserves (same next_id) (NamedValues_assign k v).
Proof. unfold NamedValues_assign. frame. Qed.

Lemma log_error_v_Insts {A} msg : preserves (same Insts) (@log_error_v A msg).
Proof. unfold log_error_v. frame. Qed.

Lemma NamedValues_at_Insts k : preserves (same Insts) (NamedValues_at k).
Proof. unfold NamedValues_at. frame. Qed.

Lemma NamedValues_assign_Insts k v :
  preserves (same Insts) (NamedValues_assign k v).
Proof. unfold NamedValues_assign. frame. Qed.

#[local] Hint Resolve fresh_ids log_error_v_next_id NamedValues_at_next_id
  NamedValues_assign_next_id log_error_v_Insts NamedValues_at_Insts
  NamedValues_assign_Insts : frame.

#[local] Hint Extern 2 (preserves ids_grow _) =>
  apply same_ids_grow; solve [eauto with frame] : frame.

#[local] Hint Extern 2 (preserves (kept _) _) =>
  apply same_kept; solve [eauto with frame] : frame.

Lemma Function_Create_ids name args :
  preserves ids_grow (Function_Create name args).
Proof. unfold Function_Create. frame. Qed.

Lemma BasicBlock_Create_ids name parent :
  preserves ids_grow (BasicBlock_Create name parent).
Proof. unfold BasicBlock_Create. frame. Qed.

Lemma Builder_insert_ids i : preserves ids_grow (Builder_insert i).
Proof. unfold Builder_insert. frame. Qed.

Lemma SplitBlockAndInsertIfThen_ids c i :
  preserves ids_grow (SplitBlockAndInsertIfThen c i).
Proof. unfold SplitBlockAndInsertIfThen. frame. Qed.

Lemma get_function_ids name : preserves ids_grow (get_function name).
Proof.
  unfold get_function, PrototypeAST_codegen. frame.
  apply Function_Create_ids.
Qed.

#[local] Hint Resolve Function_Create_ids BasicBlock_Create_ids
  Builder_insert_ids SplitBlockAndInsertIfThen_ids get_function_ids : frame.

Lemma binary_switch_ids Op L R : preserves ids_grow (binary_switch Op L R).
Proof. unfold binary_switch, Create, CreateV. frame. Qed.

Lemma codegen_args_ids cg Args ArgsV :
  Forall (λ e, preserves ids_grow (cg e)) Args →
  preserves ids_grow (codegen_args cg Args ArgsV).
Proof.
  intros HF. revert ArgsV.
  induction HF as [|e Args He _ IH]; intros ArgsV; cbn [codegen_args]; frame.
Qed.

Lemma codegen_ids e : preserves ids_grow (codegen e).
Proof.
  induction e using ExprAST_nested_ind; cbn [codegen];
    unfold Create, CreateV;
    frame; eauto using binary_switch_ids, codegen_args_ids.
Qed.

Lemma Builder_insert_id i st id st' :
  Builder_insert i st = Some (id, st') → id = next_id st.
Proof.
  unfold Builder_insert, deref, bind, gets, modify, ret, stuck.
  rewrite fresh_run. cbn.
  destruct (InsertBlock st) as [b|]; cbn; [destruct (Blocks st !! b); cbn|];
    by intros [= <- _].
Qed.

Lemma Builder_insert_next_id i st id st' :
  Builder_insert i st = Some (id, st') → next_id st' = S (next_id st).
Proof.
  unfold Builder_insert, deref, bind, gets, modify, ret, stuck.
  rewrite fresh_run. cbn.
  destruct (InsertBlock st) as [b|]; cbn; [destruct (Blocks st !! b); cbn|];
    by intros [= _ <-].
Qed.


Lemma Builder_insert_kept n i st id st' :
  (n ≤ next_id st)%nat → Builder_insert i st = Some (id, st') →
  kept n st st'.
Proof.
  intros Hn. unfold Builder_insert, deref, bind, gets, modify, ret, stuck.
  rewrite fresh_run. cbn.
  destruct (InsertBlock st) as [b|]; cbn; [destruct (Blocks st !! b); cbn|];
    intros [=]; subst; intros k Hk; cbn; apply lookup_insert_ne; lia.
Qed.

Lemma addIncoming_kept n phi v b st u st' :
  (n ≤ phi)%nat → addIncoming phi v b st = Some (u, st') → kept n st st'.
Proof.
  intros Hn. unfold addIncoming, deref, bind, gets, modify, ret, stuck.
  destruct (Insts st !! phi) as [[[] ?]|]; cbn; intros [=]; subst.
  intros k Hk. cbn. apply lookup_insert_ne. lia.
Qed.

Lemma Instruction_eraseFromParent_kept n id st u st' :
  (n ≤ id)%nat → Instruction_eraseFromParent id st = Some (u, st') →
  kept n st st'.
Proof.
  intros Hn H k Hk. unfold Instruction_eraseFromParent, deref in H.
  run_inv H;
    repeat match goal with
    | Hf : match ?o with Some _ => _ | None => _ end _ = Some _ |- _ =>
        destruct o; run_inv Hf
    end; cbn; apply lookup_delete_ne; lia.
Qed.

Lemma SplitBlockAndInsertIfThen_run c i st t st' :
  SplitBlockAndInsertIfThen c i st = Some (t, st') →
  (next_id st ≤ t)%nat ∧
  ∀ n, (n ≤ next_id st)%nat → (n ≤ i)%nat → kept n st st'.
Proof.
  intros H. unfold SplitBlockAndInsertIfThen, deref in H.
  run_inv H.
  repeat match goal with
  | Hf : the_function _ _ = Some _ |- _ => apply the_function_state in Hf as ->
  | Hf : match ?o with Some _ => _ | None => _ end _ = Some _ |- _ =>
      destruct o; run_inv Hf
  | Hf : fresh _ = Some _ |- _ => rewrite fresh_run in Hf; injection Hf as <- <-
  end.
  split; [cbn; lia|].
  intros m Hm Hi k Hk. cbn in *. rewrite !lookup_insert_ne by lia. done.
Qed.

Lemma SplitBlockAndInsertIfThen_kept n c i st t st' :
  (n ≤ next_id st)%nat → (n ≤ i)%nat →
  SplitBlockAndInsertIfThen c i st = Some (t, st') → kept n st st'.
Proof. intros Hn Hi H. by apply (SplitBlockAndInsertIfThen_run _ _ _ _ _ H). Qed.

Lemma codegen_args_ids_all Args ArgsV :
  preserves ids_grow (codegen_args codegen Args ArgsV).
Proof.
  apply codegen_args_ids, Forall_forall. intros e _. apply codegen_ids.
Qed.

(** Gathers, for the runs among the hypotheses, that identifiers grow,
    which identifier a new instruction got and, for the instructions
    below [n], that they were kept. *)
Ltac kept_facts n :=
  repeat match goal with
  | Hx : bind _ _ _ = Some _ |- _ => run_inv Hx
  end;
  repeat match goal with
  | H : ?m ?s = Some (_, ?s') |- _ =>
      lazymatch goal with
      | _ : (next_id s ≤ next_id s')%nat |- _ => fail
      | _ => idtac
      end;
      assert (next_id s ≤ next_id s')%nat
        by (assert (preserves ids_grow m) as Hx
              by solve [eauto using codegen_ids, codegen_args_ids_all
                          with frame];
            exact (Hx _ _ _ H))
  end;
  repeat match goal with
  | H : Builder_insert _ ?s = Some (?id, _) |- _ =>
      lazymatch goal with
      | _ : id = next_id s |- _ => fail
      | _ => idtac
      end;
      pose proof (Builder_insert_id _ _ _ _ H);
      pose proof (Builder_insert_next_id _ _ _ _ H)
  | H : SplitBlockAndInsertIfThen _ _ ?s = Some (?t, _) |- _ =>
      lazymatch goal with
      | _ : (next_id s ≤ t)%nat |- _ => fail
      | _ => idtac
      end;
      pose proof (proj1 (SplitBlockAndInsertIfThen_run _ _ _ _ _ H))
  end;
  repeat match goal with
  | H : ?m ?s = Some (_, ?s') |- _ =>
      lazymatch goal with
      | _ : kept n s s' |- _ => fail
      | _ => idtac
      end;
      assert (kept n s s')
        by first
             [ eapply Builder_insert_kept; [|exact H]; lia
             | eapply addIncoming_kept; [|exact H]; lia
             | eapply Instruction_eraseFromParent_kept; [|exact H]; lia
             | eapply SplitBlockAndInsertIfThen_kept; [| |exact H]; lia
             | match goal with
               | IH : context [kept] |- _ => eapply IH; [|exact H]; lia
               end
             | (assert (preserves (kept n) m) as Hx
                  by solve [eauto with frame];
                exact (Hx _ _ _ H)) ]
  end.

Ltac kept_chain :=
  let k := fresh "k" in
  let Hk := fresh "Hk" in
  intros k Hk;
  repeat match goal with
  | H : kept _ _ _ |- _ => specialize (H k Hk)
  end;
  congruence.

Lemma codegen_args_kept Args :
  Forall (λ e, ∀ n st r st', (n ≤ next_id st)%nat →
                 codegen e st = Some (r, st') → kept n st st') Args →
  ∀ n ArgsV st r st', (n ≤ next_id st)%nat →
    codegen_args codegen Args ArgsV st = Some (r, st') → kept n st st'.
Proof.
  induction 1 as [|e Args He _ IH]; intros n ArgsV st r st' Hn H;
    cbn [codegen_args] in H; run_inv H; try done; kept_facts n; kept_chain.
Qed.

Lemma codegen_kept e :
  ∀ n st r st', (n ≤ next_id st)%nat →
    codegen e st = Some (r, st') → kept n st st'.
Proof.
  induction e as [| |op l r IHl IHr|c args IHargs|c t e IHc IHt IHe
                  |x s c stp b IHs IHc IHstp IHb] using ExprAST_nested_ind;
    intros lim s0 res s1 Hlim H; cbn [codegen] in H;
    unfold binary_switch, Create, CreateV in H; run_inv H;
    try done;
    try pose proof (codegen_args_kept _ IHargs) as IHa;
    kept_facts lim; kept_chain.
Qed.

(** Lowering an expression leaves every instruction that existed before as
    it was: the identifiers handed out before the lowering name the same
    instructions afterwards, and the new instructions have new
    identifiers. *)
Theorem lowering_leaves_older_instructions e st r st' :
  codegen e st = Some (r, st') →
  (next_id st ≤ next_id st')%nat ∧
  ∀ id, (id < next_id st)%nat → Insts st' !! id = Insts st !! id.
Proof.
  intros H. split.
  - exact (codegen_ids e _ _ _ H).
  - exact (codegen_kept e _ _ _ _ (Nat.le_refl _) H).
Qed.

Lemma lowering_leaves_older_instructions_witness :
  (next_id after_comparison
   ≤ next_id (Ex.end_state (codegen Ex.count_to_n after_comparison)
                           Ex.in_f))%nat ∧
  ∀ id, (id < next_id after_comparison)%nat →
        Insts (Ex.end_state (codegen Ex.count_to_n after_comparison) Ex.in_f)
          !! id
        = Insts after_comparison !! id.
Proof.
  apply (lowering_leaves_older_instructions Ex.count_to_n after_comparison
           (Some (ConstantFP 0))).
  vm_compute. reflexivity.
Defined.

Ltac kept_codegen n :=
  repeat match goal with
  | H : codegen _ ?s = Some (_, ?s') |- _ =>
      lazymatch goal with
      | _ : kept n s s' |- _ => fail
      | _ => idtac
      end;
      assert (kept n s s') by (eapply codegen_kept; [|exact H]; lia)
  end.




(** * The lowering pass does not get stuck *)

#[local] Instance blocks_grow_refl : Reflexive blocks_grow.
Proof. by intros st b. Qed.

#[local] Instance blocks_grow_trans : Transitive blocks_grow.
Proof. intros s1 s2 s3 H12 H23 b Hb. by apply H23, H12. Qed.


Lemma same_blocks_grow {A} (m : CM A) :
  preserves (same Blocks) m → preserves blocks_grow m.
Proof. intros H st a st' Hrun b. by rewrite (H _ _ _ Hrun). Qed.

Lemma is_Some_insert (bs : gmap nat BasicBlock) b bb k :
  is_Some (bs !! k) → is_Some (<[b := bb]> bs !! k).
Proof.
  intros Hk. destruct (decide (k = b)) as [->|Hne].
  - rewrite lookup_insert_eq. eauto.
  - by rewrite lookup_insert_ne.
Qed.

Lemma log_error_v_Blocks {A} msg : preserves (same Blocks) (@log_error_v A msg).
Proof. unfold log_error_v. frame. Qed.

Lemma NamedValues_at_Blocks k : preserves (same Blocks) (NamedValues_at k).
Proof. unfold NamedValues_at. frame. Qed.

Lemma NamedValues_assign_Blocks k v :
  preserves (same Blocks) (NamedValues_assign k v).
Proof. unfold NamedValues_assign. frame. Qed.

#[local] Hint Resolve log_error_v_Blocks NamedValues_at_Blocks
  NamedValues_assign_Blocks : frame.

#[local] Hint Extern 2 (preserves blocks_grow _) =>
  apply same_blocks_grow; solve [eauto with frame] : frame.

(** Inverts every step of a primitive of the builder. *)
Ltac prim_inv H :=
  run_inv H;
  repeat match goal with
  | Hf : the_function _ _ = Some _ |- _ => apply the_function_state in Hf as ->
  | Hf : match ?o with Some _ => _ | None => _ end _ = Some _ |- _ =>
      destruct o eqn:?; run_inv Hf
  | Hf : fresh _ = Some _ |- _ => rewrite fresh_run in Hf; injection Hf as <- <-
  | Hf : bind _ _ _ = Some _ |- _ => run_inv Hf
  end.

Lemma BasicBlock_Create_blocks name parent :
  preserves blocks_grow (BasicBlock_Create name parent).
Proof.
  intros st b st' H k Hk. unfold BasicBlock_Create in H. prim_inv H;
    cbn; by apply is_Some_insert.
Qed.

Lemma Function_insert_end_blocks f b :
  preserves blocks_grow (Function_insert_end f b).
Proof.
  intros st u st' H k Hk. unfold Function_insert_end, deref in H. prim_inv H.
  cbn. by apply is_Some_insert.
Qed.

Lemma Builder_insert_blocks i : preserves blocks_grow (Builder_insert i).
Proof.
  intros st id st' H k Hk. unfold Builder_insert, deref in H. prim_inv H;
    cbn; [by apply is_Some_insert|done].
Qed.

Lemma Instruction_eraseFromParent_blocks id :
  preserves blocks_grow (Instruction_eraseFromParent id).
Proof.
  intros st u st' H k Hk. unfold Instruction_eraseFromParent, deref in H.
  prim_inv H; cbn; [by apply is_Some_insert|done].
Qed.

Lemma SplitBlockAndInsertIfThen_blocks c i :
  preserves blocks_grow (SplitBlockAndInsertIfThen c i).
Proof.
  intros st t st' H k Hk. unfold SplitBlockAndInsertIfThen, deref in H.
  prim_inv H. cbn. by do 3 apply is_Some_insert.
Qed.

#[local] Hint Resolve BasicBlock_Create_blocks Function_insert_end_blocks
  Builder_insert_blocks Instruction_eraseFromParent_blocks
  SplitBlockAndInsertIfThen_blocks : frame.

Lemma binary_switch_blocks Op L R : preserves blocks_grow (binary_switch Op L R).
Proof. unfold binary_switch, Create, CreateV. frame. Qed.

Lemma codegen_args_blocks cg Args ArgsV :
  Forall (λ e, preserves blocks_grow (cg e)) Args →
  preserves blocks_grow (codegen_args cg Args ArgsV).
Proof.
  intros HF. revert ArgsV.
  induction HF as [|e Args He _ IH]; intros ArgsV; cbn [codegen_args]; frame.
Qed.

Lemma codegen_blocks e : preserves blocks_grow (codegen e).
Proof.
  induction e using ExprAST_nested_ind; cbn [codegen];
    unfold Create, CreateV;
    frame; eauto using binary_switch_blocks, codegen_args_blocks.
Qed.



Lemma lowers_bind {A B} F (m : CM A) (k : A → CM B) st a s1 :
  m st = Some (a, s1) → lowers F (k a) s1 → lowers F (bind m k) st.
Proof.
  intros Hm (r & st' & Hk & Hinv). exists r, st'.
  by rewrite (bind_run _ _ _ _ _ Hm).
Qed.

Lemma lowers_ret {A} F (a : A) st : in_function F st → lowers F (ret a) st.
Proof. intros Hinv. by exists a, st. Qed.

Lemma in_function_frame F st st' :
  InsertBlock st' = InsertBlock st → Blocks st' = Blocks st →
  TheModule st' = TheModule st → (next_id st ≤ next_id st')%nat →
  in_function F st → in_function F st'.
Proof.
  intros Ei Eb Em Hn ((b & Hib & Hb & Hlt) & Hf & Ho).
  unfold in_function, block_of. rewrite Ei, Eb, Em.
  split; [|done]. exists b. split; [done|]. split; [done|lia].
Qed.

Lemma lookup_fn_update_fn F F' g m :
  (∀ f, fn_id (g f) = fn_id f) →
  is_Some (lookup_fn F m) → is_Some (lookup_fn F (update_fn F' g m)).
Proof.
  intros Hg. unfold lookup_fn, update_fn.
  induction m as [|f m IH]; cbn; [done|].
  destruct (bool_decide (fn_id f = F')); rewrite ?Hg;
    destruct (bool_decide (fn_id f = F)); eauto.
Qed.

Lemma others_declared_update_fn F g m :
  (∀ f, fn_id (g f) = fn_id f) →
  others_declared F m → others_declared F (update_fn F g m).
Proof.
  intros Hg Ho. unfold others_declared, update_fn.
  apply Forall_fmap. eapply Forall_impl; [exact Ho|].
  intros f Hf. cbn. destruct (bool_decide_reflect (fn_id f = F)) as [E|NE].
  - rewrite Hg. intros Hne. by destruct Hne.
  - done.
Qed.

Lemma log_error_v_lowers {A} F msg st :
  in_function F st →
  ∃ st', @log_error_v A msg st = Some (None, st') ∧ in_function F st'.
Proof.
  intros Hinv. eexists. split; [reflexivity|].
  by apply (in_function_frame F st).
Qed.

Lemma NamedValues_at_lowers F k st :
  in_function F st →
  ∃ v st', NamedValues_at k st = Some (v, st') ∧ in_function F st'.
Proof.
  intros Hinv. unfold NamedValues_at, bind, gets, modify, ret.
  destruct (NamedValues st !! k); eexists _, _; (split; [reflexivity|]);
    by apply (in_function_frame F st).
Qed.

Lemma NamedValues_assign_lowers F k v st :
  in_function F st →
  ∃ st', NamedValues_assign k v st = Some (tt, st') ∧ in_function F st'.
Proof.
  intros Hinv. eexists. split; [reflexivity|].
  by apply (in_function_frame F st).
Qed.

Lemma Builder_insert_lowers F i st :
  in_function F st →
  ∃ st', Builder_insert i st = Some (next_id st, st') ∧ in_function F st'.
Proof.
  intros ((b & Hib & (bb & Hb & Hp) & Hlt) & Hf & Ho).
  unfold Builder_insert, deref, bind, gets, modify, ret. rewrite fresh_run.
  cbn. rewrite Hib. cbn. rewrite Hb. cbn.
  eexists. split; [reflexivity|]. split; [|done].
  exists b. cbn. split; [done|]. split; [|lia].
  eexists. cbn. by rewrite lookup_insert_eq.
Qed.

Lemma GetInsertBlock_lowers F st :
  in_function F st →
  ∃ b, GetInsertBlock st = Some (b, st) ∧ InsertBlock st = Some b ∧
       block_of F st b ∧ (b < next_id st)%nat.
Proof.
  intros ((b & Hib & Hb & Hlt) & _). exists b.
  unfold GetInsertBlock, deref, bind, gets, ret. by rewrite Hib.
Qed.

Lemma BasicBlock_getParent_run F b st :
  block_of F st b → BasicBlock_getParent b st = Some (Some F, st).
Proof.
  intros (bb & Hb & Hp).
  unfold BasicBlock_getParent, deref, bind, gets, ret. by rewrite Hb, Hp.
Qed.

Lemma the_function_total F st :
  is_Some (lookup_fn F (TheModule st)) →
  ∃ f, the_function F st = Some (f, st).
Proof. intros [f Hf]. exists f. by apply the_function_run. Qed.

Lemma BasicBlock_Create_lowers F name parent st :
  in_function F st → parent = None ∨ parent = Some F →
  ∃ st', BasicBlock_Create name parent st = Some (next_id st, st') ∧
         in_function F st' ∧
         Blocks st' !! next_id st = Some (mkBB name parent []) ∧
         (∀ b, (b < next_id st)%nat → Blocks st' !! b = Blocks st !! b) ∧
         next_id st' = S (next_id st).
Proof.
  intros ((b & Hib & (bb & Hb & Hp) & Hlt) & Hf & Ho) Hparent.
  unfold BasicBlock_Create, the_function, deref, bind, gets, modify, ret.
  rewrite fresh_run. cbn -[lookup_fn update_fn].
  destruct Hparent as [-> | ->].
  - eexists. split; [reflexivity|]. cbn.
    split; [|split; [by rewrite lookup_insert_eq|split; [|done]]].
    + split; [|done]. exists b. cbn. split; [done|]. split; [|lia].
      exists bb. cbn. by rewrite lookup_insert_ne by lia.
    + intros k Hk. by rewrite lookup_insert_ne by lia.
  - destruct Hf as [f Hf]. cbn [TheModule set_Blocks set_next_id].
    rewrite Hf. eexists. split; [reflexivity|]. cbn -[lookup_fn update_fn].
    split; [|split; [by rewrite lookup_insert_eq|split; [|done]]].
    + split; [|split].
      * exists b. cbn. split; [done|]. split; [|lia].
        exists bb. cbn. by rewrite lookup_insert_ne by lia.
      * apply lookup_fn_update_fn; [done|]. cbn. eauto.
      * by apply others_declared_update_fn.
    + intros k Hk. by rewrite lookup_insert_ne by lia.
Qed.

Lemma SetInsertPoint_lowers F b st :
  in_function F st → block_of F st b → (b < next_id st)%nat →
  ∃ st', SetInsertPoint b st = Some (tt, st') ∧ in_function F st'.
Proof.
  intros (_ & Hf & Ho) Hb Hlt. eexists. split; [reflexivity|].
  split; [|done]. by exists b.
Qed.

Lemma Function_insert_end_lowers F b st :
  in_function F st → is_Some (Blocks st !! b) → (b < next_id st)%nat →
  ∃ st', Function_insert_end (Some F) b st = Some (tt, st') ∧
         in_function F st' ∧ block_of F st' b ∧ next_id st' = next_id st.
Proof.
  intros ((ib & Hib & (bb & Hb & Hp) & Hlt) & [f Hf] & Ho) [bb' Hb'] Hlt'.
  unfold Function_insert_end, the_function, deref, bind, gets, modify, ret.
  cbn -[lookup_fn update_fn]. rewrite Hf, Hb'.
  eexists. split; [reflexivity|]. cbn -[lookup_fn update_fn].
  split; [|split; [|done]].
  - split; [|split].
    + exists ib. cbn. split; [done|]. split; [|done].
      unfold block_of. cbn. destruct (decide (ib = b)) as [->|Hne].
      * eexists. by rewrite lookup_insert_eq.
      * exists bb. by rewrite lookup_insert_ne.
    + apply lookup_fn_update_fn; [done|]. eauto.
    + by apply others_declared_update_fn.
  - eexists. cbn. by rewrite lookup_insert_eq.
Qed.

Lemma addIncoming_lowers F phi v b st incoming name parent :
  in_function F st →
  Insts st !! phi = Some (mkInst (PHI incoming name) parent) →
  ∃ st', addIncoming phi v b st = Some (tt, st') ∧ in_function F st'.
Proof.
  intros Hinv Hphi. unfold addIncoming, deref, bind, gets, modify, ret.
  rewrite Hphi. cbn. eexists. split; [reflexivity|].
  by apply (in_function_frame F st).
Qed.

Lemma Instruction_getParent_run id st i b :
  Insts st !! id = Some (mkInst i (Some b)) →
  Instruction_getParent id st = Some (b, st).
Proof.
  intros Hid. unfold Instruction_getParent, deref, bind, gets, ret.
  by rewrite Hid.
Qed.

Lemma Instruction_eraseFromParent_lowers F id st i b :
  in_function F st →
  Insts st !! id = Some (mkInst i (Some b)) → is_Some (Blocks st !! b) →
  ∃ st', Instruction_eraseFromParent id st = Some (tt, st') ∧
         in_function F st'.
Proof.
  intros ((ib & Hib & (bb & Hb & Hp) & Hlt) & Hf & Ho) Hid [bb' Hb'].
  unfold Instruction_eraseFromParent, deref, bind, gets, modify, ret.
  rewrite Hid. cbn. rewrite Hb'. eexists. split; [reflexivity|].
  split; [|done]. exists ib. cbn. split; [done|]. split; [|done].
  unfold block_of. cbn. destruct (decide (ib = b)) as [->|Hne].
  - eexists. rewrite lookup_insert_eq. split; [done|]. cbn. congruence.
  - exists bb. by rewrite lookup_insert_ne.
Qed.

Lemma SplitBlockAndInsertIfThen_lowers F c sb st i head :
  in_function F st → InsertBlock st = Some head →
  Insts st !! sb = Some (mkInst i (Some head)) →
  ∃ t st' then_bb i',
    SplitBlockAndInsertIfThen c sb st = Some (t, st') ∧
    in_function F st' ∧
    Insts st' !! t = Some (mkInst i' (Some then_bb)) ∧
    block_of F st' then_bb ∧ (then_bb < next_id st')%nat.
Proof.
  intros ((ib & Hib & (bb & Hb & Hp) & Hlt) & [f Hf] & Ho) Hhead Hsb.
  assert (ib = head) as -> by congruence.
  unfold SplitBlockAndInsertIfThen, the_function, deref, bind, gets, modify,
    ret.
  rewrite Hsb. cbn -[lookup_fn update_fn]. rewrite Hb.
  cbn -[lookup_fn update_fn]. rewrite Hp. cbn -[lookup_fn update_fn].
  rewrite Hf. cbn -[lookup_fn update_fn].
  eexists _, _, _, _. split; [reflexivity|]. cbn -[lookup_fn update_fn].
  split; [|split; [|split]].
  - split; [|split].
    + exists head. cbn. split; [done|]. split; [|lia].
      eexists. cbn. by rewrite lookup_insert_eq.
    + apply lookup_fn_update_fn; [done|]. eauto.
    + by apply others_declared_update_fn.
  - rewrite lookup_insert_ne by lia. by rewrite lookup_insert_eq.
  - eexists. cbn. rewrite lookup_insert_ne by lia.
    by rewrite lookup_insert_eq.
  - lia.
Qed.

Lemma others_declared_app F m f :
  others_declared F m → fn_blocks f = [] → others_declared F (m ++ [f]).
Proof.
  intros Ho Hf. apply Forall_app. split; [done|]. by constructor.
Qed.

Lemma lookup_fn_app_Some F m l :
  is_Some (lookup_fn F m) → is_Some (lookup_fn F (m ++ l)).
Proof.
  unfold lookup_fn. induction m as [|f m IH]; cbn; [by intros [? [=]]|].
  by destruct (bool_decide (fn_id f = F)).
Qed.

Lemma getFunction_lookup_fn m name f :
  getFunction m name = Some f → is_Some (lookup_fn (fn_id f) m).
Proof.
  unfold getFunction, lookup_fn. induction m as [|g m IH]; cbn; [done|].
  destruct (bool_decide_reflect (fn_name g = name)) as [E|NE].
  - intros [= ->]. rewrite bool_decide_eq_true_2 by done. eauto.
  - intros Hf. destruct (bool_decide (fn_id g = fn_id f)); eauto.
Qed.

Lemma lookup_fn_app_last F m f :
  fn_id f = F → is_Some (lookup_fn F (m ++ [f])).
Proof.
  intros Hf. unfold lookup_fn. induction m as [|g m IH]; cbn.
  - rewrite bool_decide_eq_true_2 by done. eauto.
  - destruct (bool_decide (fn_id g = F)); eauto.
Qed.

Lemma get_function_lowers F name st :
  in_function F st →
  ∃ r st', get_function name st = Some (r, st') ∧ in_function F st' ∧
           ∀ F', r = Some F' → is_Some (lookup_fn F' (TheModule st')).
Proof.
  intros ((ib & Hib & (bb & Hb & Hp) & Hlt) & Hf & Ho).
  unfold get_function, PrototypeAST_codegen, Function_Create, bind, gets,
    modify, ret.
  destruct (getFunction (TheModule st) name) as [f|] eqn:Eg.
  { eexists _, _. split; [reflexivity|]. split.
    - split; [|done]. by exists ib; split; [|split; [exists bb|]].
    - intros F' [= <-]. by eapply getFunction_lookup_fn. }
  destruct (FunctionProtos st !! name) as [p|].
  - rewrite fresh_run. cbn -[lookup_fn].
    eexists _, _. split; [reflexivity|]. cbn -[lookup_fn]. split.
    + split; [|split].
      * exists ib. cbn. split; [done|]. split; [by exists bb|lia].
      * by apply lookup_fn_app_Some.
      * by apply others_declared_app.
    + intros F' [= <-]. by apply lookup_fn_app_last.
  - eexists _, _. split; [reflexivity|]. split; [|done].
    split; [|done]. by exists ib; split; [|split; [exists bb|]].
Qed.

Lemma CreateV_lowers F i st :
  in_function F st →
  ∃ st', CreateV i st = Some (Inst (next_id st), st') ∧ in_function F st'.
Proof.
  intros Hinv. destruct (Builder_insert_lowers F i st Hinv) as (st' & H & I).
  exists st'. split; [|done]. unfold CreateV. by rewrite (bind_run _ _ _ _ _ H).
Qed.

Lemma Create_lowers F i st :
  in_function F st →
  ∃ st', Create i st = Some (Some (Inst (next_id st)), st') ∧
         in_function F st'.
Proof.
  intros Hinv. destruct (Builder_insert_lowers F i st Hinv) as (st' & H & I).
  exists st'. split; [|done]. unfold Create. by rewrite (bind_run _ _ _ _ _ H).
Qed.

Lemma lowers_run {A} F (m : CM A) st r st' :
  m st = Some (r, st') → in_function F st' → lowers F m st.
Proof. intros H I. by exists r, st'. Qed.

(** One step of the code in a goal [lowers F m st], for the steps that
    need nothing but [in_function F st]. *)
Ltac lowers_step :=
  cbv beta;
  lazymatch goal with
  | |- lowers _ (ret _) _ => apply lowers_ret; assumption
  | |- lowers ?F (log_error_v ?msg) ?s =>
      let H := fresh "Hrun" in
      let I := fresh "Inv" in
      destruct (log_error_v_lowers (A:=Value) F msg s ltac:(assumption))
        as (? & H & I);
      exact (lowers_run F _ _ _ _ H I)
  | |- lowers ?F (Create ?i) ?s =>
      let H := fresh "Hrun" in
      let I := fresh "Inv" in
      destruct (Create_lowers F i s ltac:(assumption)) as (? & H & I);
      exact (lowers_run F _ _ _ _ H I)
  | |- lowers ?F (bind (NamedValues_at ?k) _) ?s =>
      let H := fresh "Hrun" in
      let I := fresh "Inv" in
      destruct (NamedValues_at_lowers F k s ltac:(assumption))
        as (? & ? & H & I);
      apply (lowers_bind F _ _ _ _ _ H)
  | |- lowers ?F (bind (NamedValues_assign ?k ?v) _) ?s =>
      let H := fresh "Hrun" in
      let I := fresh "Inv" in
      destruct (NamedValues_assign_lowers F k v s ltac:(assumption))
        as (? & H & I);
      apply (lowers_bind F _ _ _ _ _ H)
  | |- lowers ?F (bind (CreateV ?i) _) ?s =>
      let H := fresh "Hrun" in
      let I := fresh "Inv" in
      destruct (CreateV_lowers F i s ltac:(assumption)) as (? & H & I);
      apply (lowers_bind F _ _ _ _ _ H)
  | |- lowers ?F (bind (Builder_insert ?i) _) ?s =>
      let H := fresh "Hrun" in
      let I := fresh "Inv" in
      destruct (Builder_insert_lowers F i s ltac:(assumption)) as (? & H & I);
      apply (lowers_bind F _ _ _ _ _ H)
  | |- lowers ?F (bind (codegen ?e) _) ?s =>
      let H := fresh "Hrun" in
      let I := fresh "Inv" in
      match goal with
      | IH : ∀ F st, in_function F st → lowers F (codegen e) st |- _ =>
          destruct (IH F s ltac:(assumption)) as (? & ? & H & I)
      end;
      apply (lowers_bind F _ _ _ _ _ H)
  | |- lowers _ (match ?x with _ => _ end) _ => destruct x
  | |- lowers _ (if ?b then _ else _) _ => destruct b eqn:?
  end.

Lemma binary_switch_lowers F Op L R st :
  in_function F st → lowers F (binary_switch Op L R) st.
Proof. intros Hinv. unfold binary_switch. repeat lowers_step. Qed.

Lemma codegen_args_lowers F Args :
  Forall (λ e, ∀ F st, in_function F st → lowers F (codegen e) st) Args →
  ∀ ArgsV st, in_function F st →
              lowers F (codegen_args codegen Args ArgsV) st.
Proof.
  induction 1 as [|e Args He _ IH]; intros ArgsV st Hinv;
    cbn [codegen_args]; repeat lowers_step.
  by apply IH.
Qed.



#[local] Hint Resolve BasicBlock_Create_blocks Function_insert_end_blocks
  Builder_insert_blocks Instruction_eraseFromParent_blocks
  SplitBlockAndInsertIfThen_blocks codegen_blocks : frame.

Lemma Builder_insert_block_of F i st id st' b :
  Builder_insert i st = Some (id, st') → block_of F st b → block_of F st' b.
Proof.
  intros H (bb & Hb & Hp). unfold Builder_insert, deref in H. prim_inv H;
    unfold block_of; cbn; [|by exists bb].
  match goal with
  | |- context [<[?k := _]> _ !! b] => destruct (decide (b = k)) as [->|Hne]
  end.
  - eexists. rewrite lookup_insert_eq. split; [done|]. cbn in *.
    by simplify_eq.
  - exists bb. by rewrite lookup_insert_ne.
Qed.

(** Proves that a block is still there, back along the runs among the
    hypotheses. *)
Ltac blocks_back :=
  repeat match goal with
  | Hb : Blocks ?s !! ?b = Some _ |- is_Some (Blocks ?s !! ?b) =>
      rewrite Hb; eauto
  | Hb : block_of _ ?s ?b |- is_Some (Blocks ?s !! ?b) =>
      destruct Hb as (? & -> & _); eauto
  | Hk : ∀ k, (k < _)%nat → Blocks ?s' !! k = Blocks _ !! k
    |- is_Some (Blocks ?s' !! ?b) => rewrite (Hk b) by lia
  | H : ?m ?s = Some (_, ?s') |- is_Some (Blocks ?s' !! ?b) =>
      tryif constr_eq s s' then fail else idtac;
      let Hx := fresh in
      assert (preserves blocks_grow m) as Hx by solve [eauto with frame];
      apply (Hx _ _ _ H); clear Hx
  end.

Ltac lowers_with H := apply (lowers_bind _ _ _ _ _ _ H); cbv beta.

Lemma CreateV_run i st id st' :
  Builder_insert i st = Some (id, st') → CreateV i st = Some (Inst id, st').
Proof. intros H. unfold CreateV. by rewrite (bind_run _ _ _ _ _ H). Qed.

Ltac create_value :=
  match goal with
  | I : in_function ?F ?s |- lowers ?F (bind (CreateV ?i) _) ?s =>
      let H := fresh "Hrun" in
      let I' := fresh "Inv" in
      destruct (Builder_insert_lowers F i s I) as (? & H & I');
      lowers_with (CreateV_run _ _ _ _ H)
  end.

Ltac insert_branch :=
  match goal with
  | I : in_function ?F ?s |- lowers ?F (bind (Builder_insert ?i) _) ?s =>
      let H := fresh "Hrun" in
      let I' := fresh "Inv" in
      let Hi := fresh "Hinst" in
      let Hib := fresh "Hib" in
      destruct (Builder_insert_lowers F i s I) as (? & H & I');
      destruct (Builder_insert_lookup _ _ _ _ H) as [Hi Hib];
      lowers_with H
  end.

(** Gathers how the identifiers grow along the runs among the
    hypotheses. *)
Ltac ids_facts :=
  repeat match goal with
  | H : ?m ?s = Some (_, ?s') |- _ =>
      lazymatch goal with
      | _ : (next_id s ≤ next_id s')%nat |- _ => fail
      | _ => idtac
      end;
      assert (next_id s ≤ next_id s')%nat
        by (assert (preserves ids_grow m) as Hx
              by solve [eauto using codegen_ids, codegen_args_ids_all
                          with frame];
            exact (Hx _ _ _ H))
  end.

Ltac get_block :=
  match goal with
  | I : in_function ?F ?s |- lowers ?F (bind GetInsertBlock _) ?s =>
      let ib := fresh "ib" in
      let Hg := fresh "Hrun" in
      let Hib := fresh "Hib" in
      let Hbo := fresh "Hblock" in
      let Hlt := fresh "Hlt" in
      destruct (GetInsertBlock_lowers F s I) as (ib & Hg & Hib & Hbo & Hlt);
      lowers_with Hg
  end.

Ltac insert_end :=
  match goal with
  | I : in_function ?F ?s
    |- lowers ?F (bind (Function_insert_end (Some ?F) ?b) _) ?s =>
      let H := fresh "Hrun" in
      let I' := fresh "Inv" in
      let Hb := fresh "Hblock" in
      let Hn := fresh "Hid" in
      let P1 := fresh in
      let P2 := fresh in
      assert (is_Some (Blocks s !! b)) as P1 by blocks_back;
      assert (b < next_id s)%nat as P2 by (ids_facts; lia);
      destruct (Function_insert_end_lowers F b s I P1 P2)
        as (? & H & I' & Hb & Hn);
      clear P1 P2;
      lowers_with H
  end.

Ltac add_incoming :=
  match goal with
  | I : in_function ?F ?s,
    Hphi : Insts ?s !! ?phi = Some (mkInst (PHI _ _) _)
    |- lowers ?F (bind (addIncoming ?phi ?v ?b) _) ?s =>
      let H := fresh "Hrun" in
      let I' := fresh "Inv" in
      let Hphi' := fresh "Hphi" in
      destruct (addIncoming_lowers F phi v b s _ _ _ I Hphi) as (? & H & I');
      destruct (addIncoming_lookup _ _ _ _ _ _ _ _ _ Hphi H) as [Hphi' _];
      lowers_with H
  end.

Ltac insert_phi :=
  match goal with
  | I : in_function ?F ?s
    |- lowers ?F (bind (Builder_insert (PHI [] ?name)) _) ?s =>
      let H := fresh "Hrun" in
      let I' := fresh "Inv" in
      let Hphi := fresh "Hphi" in
      destruct (Builder_insert_lowers F (PHI [] name) s I) as (? & H & I');
      destruct (Builder_insert_lookup _ _ _ _ H) as [Hphi _];
      lowers_with H
  end.

Ltac split_block :=
  match goal with
  | I : in_function ?F ?s, I0 : in_function ?F ?s0,
    Hi : Insts ?s !! ?sb = Some (mkInst ?i (InsertBlock ?s0)),
    Hib : InsertBlock ?s = InsertBlock ?s0
    |- lowers ?F (bind (SplitBlockAndInsertIfThen ?c ?sb) _) ?s =>
      let head := fresh "head" in
      let Hh := fresh "Hhead" in
      let t := fresh "then_inst" in
      let s' := fresh "s" in
      let then_bb := fresh "then_bb" in
      let i' := fresh "i" in
      let H := fresh "Hrun" in
      let I' := fresh "Inv" in
      let Ht := fresh "Hthen_inst" in
      let Hbt := fresh "Hblock" in
      let Hlt := fresh "Hlt" in
      pose proof I0 as ((head & Hh & _) & _);
      rewrite Hh in Hi, Hib;
      destruct (SplitBlockAndInsertIfThen_lowers F c sb s i head I Hib Hi)
        as (t & s' & then_bb & i' & H & I' & Ht & Hbt & Hlt);
      lowers_with H;
      lowers_with (Instruction_getParent_run t s' i' then_bb Ht)
  end.

Ltac erase_inst :=
  match goal with
  | I : in_function ?F ?s, E : same Insts ?s0 ?s,
    Ht : Insts ?s0 !! ?t = Some (mkInst ?i (Some ?b))
    |- lowers ?F (bind (Instruction_eraseFromParent ?t) _) ?s =>
      let H := fresh "Hrun" in
      let I' := fresh "Inv" in
      let P1 := fresh in
      let P2 := fresh in
      assert (Insts s !! t = Some (mkInst i (Some b))) as P1
        by (unfold same in E; rewrite E; exact Ht);
      assert (is_Some (Blocks s !! b)) as P2 by blocks_back;
      destruct (Instruction_eraseFromParent_lowers F t s i b I P1 P2)
        as (? & H & I');
      clear P1 P2;
      lowers_with H
  end.

Ltac phi_here :=
  match goal with
  | Hphi : Insts ?s0 !! ?phi = Some (mkInst (PHI _ _) _)
    |- lowers _ (bind (addIncoming ?phi _ _) _) ?s =>
      let K := fresh "K" in
      kept_facts (S phi); kept_codegen (S phi);
      assert (kept (S phi) s0 s) as K by kept_chain;
      rewrite <- (K phi) in Hphi by lia
  end.

Ltac set_point :=
  match goal with
  | I : in_function ?F ?s, Hb : block_of ?F ?s ?b
    |- lowers ?F (bind (SetInsertPoint ?b) _) ?s =>
      let H := fresh "Hrun" in
      let I' := fresh "Inv" in
      let P2 := fresh in
      assert (b < next_id s)%nat as P2 by (ids_facts; lia);
      destruct (SetInsertPoint_lowers F b s I Hb P2) as (? & H & I');
      clear P2;
      pose proof (SetInsertPoint_same Insts (λ _ _, eq_refl) b _ _ _ H);
      lowers_with H
  end.

Lemma codegen_lowers e :
  ∀ F st, in_function F st → lowers F (codegen e) st.
Proof.
  induction e as [| |op l r IHl IHr|c args IHargs|c t e IHc IHt IHe
                  |x s c stp b IHs IHc IHstp IHb] using ExprAST_nested_ind;
    intros F st Inv0; cbn [codegen].
  - repeat lowers_step.
  - repeat lowers_step.
  - repeat lowers_step; by apply binary_switch_lowers.
  - destruct (get_function_lowers F c st Inv0) as (r & s1 & Hg & Inv1 & Hr).
    lowers_with Hg. destruct r as [F'|]; [|repeat lowers_step].
    destruct (the_function_total F' s1 (Hr _ eq_refl)) as [f Hf].
    lowers_with Hf. lowers_step; [repeat lowers_step|].
    destruct (codegen_args_lowers F args IHargs [] s1 Inv1)
      as (vs & s2 & Ha & Inv2).
    lowers_with Ha. repeat lowers_step.
  - lowers_step. lowers_step; [|repeat lowers_step].
    lowers_step.
    match goal with
    | I : in_function F ?s |- lowers F _ ?s =>
        destruct (GetInsertBlock_lowers F s I) as (ib & Hg & Hib & Hbo & Hlt);
        lowers_with Hg;
        lowers_with (BasicBlock_getParent_run F ib s Hbo);
        destruct (BasicBlock_Create_lowers F "then" (Some F) s I
                    (or_intror eq_refl))
          as (s3 & Hc1 & Inv3 & Hthen & Hkeep1 & Hn1);
        lowers_with Hc1;
        destruct (BasicBlock_Create_lowers F "else" None s3 Inv3
                    (or_introl eq_refl))
          as (s4 & Hc2 & Inv4 & Helse & Hkeep2 & Hn2);
        lowers_with Hc2;
        destruct (BasicBlock_Create_lowers F "finish" None s4 Inv4
                    (or_introl eq_refl))
          as (s5 & Hc3 & Inv5 & Hfin & Hkeep3 & Hn3);
        lowers_with Hc3
    end.
    lowers_step.
    match goal with
    | Hi : Builder_insert (CondBr _ _ _) s5 = Some (_, ?s6) |- _ =>
        assert (block_of F s6 (next_id x)) as Hbt
          by (apply (Builder_insert_block_of _ _ _ _ _ _ Hi);
              eexists; rewrite Hkeep3, Hkeep2 by lia;
              split; [exact Hthen|done])
    end.
    set_point. lowers_step. lowers_step; [|repeat lowers_step].
    lowers_step. get_block. insert_end. set_point.
    lowers_step. lowers_step; [|repeat lowers_step].
    lowers_step. get_block. insert_end. set_point.
    insert_phi. add_incoming. add_incoming. lowers_step.
  - lowers_step. lowers_step; [|repeat lowers_step].
    get_block.
    match goal with
    | I : in_function F ?s, Hb : block_of F ?s ?ib |- lowers F _ ?s =>
        lowers_with (BasicBlock_getParent_run F ib s Hb)
    end.
    get_block.
    match goal with
    | I : in_function F ?s |- lowers F _ ?s =>
        destruct (BasicBlock_Create_lowers F "loop" (Some F) s I
                    (or_intror eq_refl))
          as (s3 & Hc1 & Inv3 & Hloop & Hkeep1 & Hn1);
        lowers_with Hc1;
        destruct (BasicBlock_Create_lowers F "endfor" None s3 Inv3
                    (or_introl eq_refl))
          as (s4 & Hc2 & Inv4 & Hend & Hkeep2 & Hn2);
        lowers_with Hc2
    end.
    lowers_step.
    match goal with
    | Hi : Builder_insert (Br _) s4 = Some (_, ?s5) |- lowers _ (bind (SetInsertPoint ?b) _) _ =>
        assert (block_of F s5 b) as Hbl
          by (apply (Builder_insert_block_of _ _ _ _ _ _ Hi);
              eexists; rewrite Hkeep2 by lia;
              split; [exact Hloop|done])
    end.
    set_point. insert_phi. add_incoming.
    lowers_step. lowers_step.
    lowers_step. lowers_step; [|repeat lowers_step].
    create_value. insert_branch. split_block. set_point. erase_inst.
    lowers_step. lowers_step; [|repeat lowers_step].
    lowers_step. lowers_step; [|repeat lowers_step].
    create_value. phi_here. add_incoming.
    lowers_step. insert_end. set_point. lowers_step. lowers_step.
Qed.






End InstructionsKept.

(** * The session returns *)

Section SessionReturns.
Import LLVM CodeGen Parser Driver.












(** In the body of a function the lowering of an expression returns: none
    of the pointers it follows is null or dangling.  It leaves the builder
    in a block of the function, the function in the module, and every
    other function without blocks. *)
Theorem expression_lowering_returns e F st :
  in_function F st →
  ∃ r st', codegen e st = Some (r, st') ∧ in_function F st'.
Proof. apply codegen_lowers. Qed.

Lemma expression_lowering_returns_witness :
  ∃ r st', codegen Ex.count_to_n Ex.in_f = Some (r, st') ∧ in_function 1 st'.
Proof.
  apply (expression_lowering_returns Ex.count_to_n 1 Ex.in_f).
  split; [|split].
  - exists 2%nat. split; [reflexivity|]. split; [|vm_compute; lia].
    eexists. split; [vm_compute; reflexivity|reflexivity].
  - eexists. vm_compute. reflexivity.
  - unfold others_declared. vm_compute.
    repeat (constructor; [done|]). constructor.
Defined.











End SessionReturns.

(** * The body of a definition *)

Section DefinitionBody.
Import LLVM CodeGen.










End DefinitionBody.
